(** * ClothSim: a shallow embedding of the cloth simulation core

    The development follows [clothSim.cpp]: the vector maths library, the
    [Particle]/[Spring] arena of [ClothSheet], the [Sphere] collider and the
    [Wind] generator.

    - [GLfloat] arithmetic is an interface ([GLfloatOps]) with two
      implementations: IEEE-754 binary32 (what the program runs on, total and
      executable) and exact real arithmetic (where division by zero is
      undefined).
    - [std::vector::at], pointer dereferences and undefined divisions are
      fallible: every operation that can throw or is undefined returns in the
      error monad [res].
    - [Particle*] pointers into the particle grid are (row, column) addresses,
      [Sphere*] pointers are addresses into a heap of spheres. *)

From Stdlib Require Import ZArith Reals Lra Lia List Bool.
From Stdlib Require Import Floats.SpecFloat.
From stdpp Require Import base list.

Set Default Proof Using "Type".

(** ** Errors *)

Inductive error : Set :=
  | DivByZero    (* a division whose result is undefined *)
  | OutOfRange   (* std::out_of_range thrown by vector::at *)
  | BadPointer   (* dereference of a null or dangling pointer *)
  | LengthError. (* a vector constructed with a negative size *)

Inductive res (A : Type) : Type :=
  | Ok (a : A)
  | Err (e : error).
Arguments Ok {A} a.
Arguments Err {A} e.

Definition rbind {A B} (c : res A) (k : A -> res B) : res B :=
  match c with
  | Ok a => k a
  | Err e => Err e
  end.

Notation "'do' x <- c ; k" := (rbind c (fun x => k))
  (at level 10, x name, c at level 100, k at level 200,
   format "'[v' 'do'  x  <-  c ; '/' k ']'").

Definition of_option {A} (e : error) (o : option A) : res A :=
  match o with
  | Some a => Ok a
  | None => Err e
  end.

(** Monadic loops: [foldM] is a [for] loop threading the mutated state,
    [mapM] a loop that rewrites each element where it stands. *)
Fixpoint foldM {A B} (f : B -> A -> res B) (l : list A) (b : B) : res B :=
  match l with
  | [] => Ok b
  | a :: l' => do b' <- f b a; foldM f l' b'
  end.

Fixpoint mapM {A B} (f : A -> res B) (l : list A) : res (list B) :=
  match l with
  | [] => Ok []
  | a :: l' => do b <- f a; do bs <- mapM f l'; Ok (b :: bs)
  end.

Fixpoint iterM {A} (n : nat) (f : A -> res A) (a : A) : res A :=
  match n with
  | O => Ok a
  | S n' => do a' <- f a; iterM n' f a'
  end.

(** ** GLfloat *)

(** The operations the program performs on [GLfloat].  [flit n d] is the
    literal or converted integer of value [n/d]; [fdiv] is [None] where the
    arithmetic leaves the quotient undefined. *)
Class GLfloatOps (F : Type) := {
  flit : Z -> positive -> F;
  fadd : F -> F -> F;
  fsub : F -> F -> F;
  fmul : F -> F -> F;
  fdiv : F -> F -> option F;
  fsqrt : F -> F;
  fltb : F -> F -> bool
}.

Module Binary32.
(** IEEE-754 single precision: 24 bits of mantissa, infinities at 2^128. *)
Definition prec : Z := 24.
Definition emax : Z := 128.
Definition float32 : Type := spec_float.

(** Correctly rounded [n/d]. *)
Definition lit (n : Z) (d : positive) : float32 :=
  match n with
  | Z0 => S754_zero false
  | Zpos m => SFdiv prec emax (S754_finite false m 0) (S754_finite false d 0)
  | Zneg m => SFdiv prec emax (S754_finite true m 0) (S754_finite false d 0)
  end.

#[global] Instance ops : GLfloatOps float32 := {
  flit := lit;
  fadd := SFadd prec emax;
  fsub := SFsub prec emax;
  fmul := SFmul prec emax;
  fdiv := fun a b => Some (SFdiv prec emax a b);
  fsqrt := SFsqrt prec emax;
  fltb := SFltb
}.
End Binary32.

Module Exact.
(** Exact real arithmetic; [x / 0] is undefined. *)
Definition div (a b : R) : option R :=
  if Req_dec_T b 0 then None else Some (a / b)%R.

Definition ltb (a b : R) : bool :=
  if Rlt_dec a b then true else false.

#[global] Instance ops : GLfloatOps R := {
  flit := fun n d => (IZR n / IZR (Zpos d))%R;
  fadd := Rplus;
  fsub := Rminus;
  fmul := Rmult;
  fdiv := div;
  fsqrt := sqrt;
  fltb := ltb
}.
End Exact.

(** ** Vector maths and the data model *)

Section Model.
Context {F : Type} `{GLfloatOps F}.

Record vec3 : Type := mkvec3 { x : F; y : F; z : F }.
Record vec4 : Type := mkvec4 { x4 : F; y4 : F; z4 : F; w4 : F }.

Definition fzero : F := flit 0 1.
Definition fone : F := flit 1 1.
Definition ftwo : F := flit 2 1.

(** The checked division: [Err DivByZero] where the quotient is undefined. *)
Definition fdivide (a b : F) : res F := of_option DivByZero (fdiv a b).

Definition magnitude (v : vec3) : F :=
  fsqrt (fadd (fadd (fmul (x v) (x v)) (fmul (y v) (y v))) (fmul (z v) (z v))).

(** [operator/] *)
Definition vdiv (v : vec3) (s : F) : res vec3 :=
  do a <- fdivide (x v) s;
  do b <- fdivide (y v) s;
  do c <- fdivide (z v) s;
  Ok (mkvec3 a b c).

Definition normalize (v : vec3) : res vec3 := vdiv v (magnitude v).

Definition cross (u v : vec3) : vec3 :=
  mkvec3 (fsub (fmul (y u) (z v)) (fmul (z u) (y v)))
         (fsub (fmul (z u) (x v)) (fmul (x u) (z v)))
         (fsub (fmul (x u) (y v)) (fmul (y u) (x v))).

Definition dot (u v : vec3) : F :=
  fadd (fadd (fmul (x u) (x v)) (fmul (y u) (y v))) (fmul (z u) (z v)).

(** [operator*], [operator+], [operator-] *)
Definition vmul (v : vec3) (s : F) : vec3 :=
  mkvec3 (fmul (x v) s) (fmul (y v) s) (fmul (z v) s).
Definition vadd (u v : vec3) : vec3 :=
  mkvec3 (fadd (x u) (x v)) (fadd (y u) (y v)) (fadd (z u) (z v)).
Definition vsub (u v : vec3) : vec3 :=
  mkvec3 (fsub (x u) (x v)) (fsub (y u) (y v)) (fsub (z u) (z v)).

Definition vzero : vec3 := mkvec3 fzero fzero fzero.

(** *** Constants *)
Definition PARTICLE_MASS_KG : F := flit 50 1.
Definition CONSTRAINT_ITERATIONS : nat := 50.
Definition MIN_TIME_STEP : Z := 16.
Definition gravity : vec3 := mkvec3 fzero (flit (-2) 100) fzero.
Definition springConstK : F := flit 2 100000000000.
Definition damperConstD : F := fsub fone (flit 2 100000).

(** *** Particles, springs, spheres *)

(** A [Particle*]: null, or the address (row, column) of an element of the
    particle grid. *)
Abbreviation pptr := (option (nat * nat)) (only parsing).

Record Particle : Type := mkParticle {
  position : vec3;
  prevPosition : vec3;
  acceleration : vec3;
  color : vec4;
  mass : F;
  pinned : bool
}.

Record Spring : Type := mkSpring {
  p0 : pptr;
  p1 : pptr;
  restLength : F
}.

Record Sphere : Type := mkSphere {
  sph_position : vec3;
  sph_radius : F;
  sph_velocity : vec3;
  sph_isMoving : bool
}.

Record ClothSheet : Type := mkClothSheet {
  cs_position : vec3;
  cs_color : vec4;
  particles : list (list Particle);
  springs : list (list Spring);
  potentialColliders : list nat;
  pinnedParticles : list (nat * nat);
  vWindForce : vec3
}.

Record Wind : Type := mkWind {
  enabled : bool;
  timeBlowing : Z;
  windForce : vec3
}.
End Model.

Arguments vec3 F : clear implicits.
Arguments vec4 F : clear implicits.
Arguments Particle F : clear implicits.
Arguments Spring F : clear implicits.
Arguments Sphere F : clear implicits.
Arguments ClothSheet F : clear implicits.
Arguments Wind F : clear implicits.

Abbreviation pptr := (option (nat * nat)) (only parsing).
Abbreviation grid F := (list (list (Particle F))) (only parsing).

(** ** Vectors, the particle arena and its pointers *)

Section Arena.
Context {F : Type} `{GLfloatOps F}.

(** [v.at(i)] *)
Definition at_ {A} (v : list A) (i : nat) : res A :=
  of_option OutOfRange (v !! i).

(** [v.at(i) = a] *)
Definition set_at {A} (v : list A) (i : nat) (a : A) : res (list A) :=
  if decide (i < length v) then Ok (<[i := a]> v) else Err OutOfRange.

(** [size_t] subtraction wraps modulo 2^64. *)
Definition size_sub (a b : Z) : Z := (a - b) mod 2 ^ 64.

(** [&particles.at(i).at(j)] *)
Definition addr (g : grid F) (i j : nat) : res pptr :=
  do row <- at_ g i;
  do _p <- at_ row j;
  Ok (Some (i, j)).

Definition look (g : grid F) (a : nat * nat) : option (Particle F) :=
  match g !! a.1 with
  | Some row => row !! a.2
  | None => None
  end.

(** [*p] for reading *)
Definition deref (g : grid F) (p : pptr) : res (Particle F) :=
  match p with
  | Some a => of_option BadPointer (look g a)
  | None => Err BadPointer
  end.

(** [*p = q] *)
Definition store (g : grid F) (p : pptr) (q : Particle F) : grid F :=
  match p with
  | Some a => alter (fun row => <[a.2 := q]> row) a.1 g
  | None => g
  end.

Definition set_position (p : Particle F) (v : vec3 F) : Particle F :=
  mkParticle v (prevPosition p) (acceleration p) (color p) (mass p) (pinned p).
Definition set_prevPosition (p : Particle F) (v : vec3 F) : Particle F :=
  mkParticle (position p) v (acceleration p) (color p) (mass p) (pinned p).
Definition set_acceleration (p : Particle F) (v : vec3 F) : Particle F :=
  mkParticle (position p) (prevPosition p) v (color p) (mass p) (pinned p).
Definition set_pinned (p : Particle F) (b : bool) : Particle F :=
  mkParticle (position p) (prevPosition p) (acceleration p) (color p) (mass p) b.
End Arena.

(** ** class Sphere *)

Section SphereOps.
Context {F : Type} `{GLfloatOps F}.

Definition Sphere_new (position : vec3 F) (radius scale : F) : Sphere F :=
  mkSphere position (fmul radius scale)
           (mkvec3 (flit 5 100) fzero fzero) true.

(** Moves the sphere back and forth along the x-axis. *)
Definition Sphere_move (s : Sphere F) (deltaT : Z) : Sphere F :=
  if sph_isMoving s then
    let px := x (sph_position s) in
    let v := sph_velocity s in
    let v' :=
      if fltb px (flit (-15) 10) then mkvec3 (flit 5 100) (y v) (z v)
      else if fltb (flit 15 10) px then mkvec3 (flit (-5) 100) (y v) (z v)
      else v in
    mkSphere (vadd (sph_position s) v') (sph_radius s) v' true
  else s.

Definition toggleMovement (s : Sphere F) : Sphere F :=
  mkSphere (sph_position s) (sph_radius s) (sph_velocity s)
           (negb (sph_isMoving s)).

(** Checks whether a given point lies within this sphere. *)
Definition contains (s : Sphere F) (point : vec3 F) : bool :=
  let deltaDist := vsub point (sph_position s) in
  fltb (magnitude deltaDist) (sph_radius s).
End SphereOps.

(** ** class Wind *)

Section WindOps.
Context {F : Type} `{GLfloatOps F}.

Definition Wind_new (windForce : vec3 F) : Wind F := mkWind true 0 windForce.

(** The values of a [long], and its addition: 64 bits in two's complement,
    a sum beyond the range wraps. *)
Definition is_long (n : Z) : Prop := (- 2 ^ 63 <= n < 2 ^ 63)%Z.
Definition wrap_long (n : Z) : Z := ((n + 2 ^ 63) mod 2 ^ 64 - 2 ^ 63)%Z.

(** [timeBlowing += deltaT] on two [long]s. *)
Definition generateWindForce (w : Wind F) (deltaT : Z) : Wind F * vec3 F :=
  let t := wrap_long (timeBlowing w + deltaT) in
  let w' :=
    if (1200 <? t)%Z
    then mkWind (enabled w) 0 (vmul (windForce w) (flit (-1) 1))
    else mkWind (enabled w) t (windForce w) in
  (w', if enabled w' then windForce w' else vzero).

Definition toggleWind (w : Wind F) : Wind F :=
  mkWind (negb (enabled w)) (timeBlowing w) (windForce w).

(** What the program does to its wind: the driver asks for the force of a
    frame, the keyboard toggles it. *)
Inductive wind_call : Set :=
  | Generate (deltaT : Z)
  | Toggle.

Definition wind_step (w : Wind F) (c : wind_call) : Wind F :=
  match c with
  | Generate deltaT => (generateWindForce w deltaT).1
  | Toggle => toggleWind w
  end.

Definition wind_run (calls : list wind_call) (w : Wind F) : Wind F :=
  fold_left wind_step calls w.

Definition is_generate (c : wind_call) : bool :=
  match c with Generate _ => true | Toggle => false end.

Definition sumZ (l : list Z) : Z := fold_right Z.add 0%Z l.

(** The oscillation phase: the accumulator and the current vector. *)
Definition phase (w : Wind F) : Z * vec3 F := (timeBlowing w, windForce w).
End WindOps.

(** ** class ClothSheet: construction *)

Section Construction.
Context {F : Type} `{GLfloatOps F}.

(** Choosing color based on particle order. *)
Definition particle_color (i j : nat) : vec4 F :=
  if negb (i mod 2 =? 0) && negb (j mod 2 =? 0)
  then mkvec4 (flit 941 1000) (flit 427 1000) (flit 102 1000) (flit 1 1)
  else mkvec4 (flit 996 1000) (flit 1 1) (flit 906 1000) (flit 1 1).

(** The inner loop of the particle matrix: the [n] particles of row [i]
    from column [j] on; [vSpacer.x] grows by [xSpacing] after each one. *)
Fixpoint particle_row (xSpacing : F) (i j n : nat) (vSpacer : vec3 F)
  : list (Particle F) :=
  match n with
  | O => []
  | S n' =>
      mkParticle vSpacer vSpacer vzero (particle_color i j)
                 PARTICLE_MASS_KG false
      :: particle_row xSpacing i (S j) n'
           (mkvec3 (fadd (x vSpacer) xSpacing) (y vSpacer) (z vSpacer))
  end.

(** The outer loop: [vSpacer.x] restarts at [position.x] on every row and
    [vSpacer.y] drops by [ySpacing] after it. *)
Fixpoint particle_rows (xSpacing ySpacing : F) (position : vec3 F)
  (i n cols : nat) (vSpacer : vec3 F) : grid F :=
  match n with
  | O => []
  | S n' =>
      let vSpacer := mkvec3 (x position) (y vSpacer) (z vSpacer) in
      particle_row xSpacing i 0 cols vSpacer
      :: particle_rows xSpacing ySpacing position (S i) n' cols
           (mkvec3 (x vSpacer) (fsub (y vSpacer) ySpacing) (z vSpacer))
  end.

(** The springs the generator writes into a grid: between neighbours
    down a column or along a row, across the diagonals of a quad, and
    between particles two apart. *)
Inductive generated_spring (g : grid F) (xSpacing ySpacing : F)
  : Spring F -> Prop :=
  | gen_vertical r c :
      is_Some (look g (r, c)) -> is_Some (look g (r + 1, c)) ->
      generated_spring g xSpacing ySpacing
        (mkSpring (Some (r, c)) (Some (r + 1, c)) ySpacing)
  | gen_horizontal r c :
      is_Some (look g (r, c)) -> is_Some (look g (r, c + 1)) ->
      generated_spring g xSpacing ySpacing
        (mkSpring (Some (r, c)) (Some (r, c + 1)) xSpacing)
  | gen_shear_up r c :
      is_Some (look g (r + 1, c)) -> is_Some (look g (r, c + 1)) ->
      generated_spring g xSpacing ySpacing
        (mkSpring (Some (r + 1, c)) (Some (r, c + 1))
           (fsqrt (fadd (fmul xSpacing xSpacing) (fmul ySpacing ySpacing))))
  | gen_shear_down r c :
      is_Some (look g (r, c)) -> is_Some (look g (r + 1, c + 1)) ->
      generated_spring g xSpacing ySpacing
        (mkSpring (Some (r, c)) (Some (r + 1, c + 1))
           (fsqrt (fadd (fmul xSpacing xSpacing) (fmul ySpacing ySpacing))))
  | gen_bend_vertical r c :
      is_Some (look g (r, c)) -> is_Some (look g (r + 2, c)) ->
      generated_spring g xSpacing ySpacing
        (mkSpring (Some (r, c)) (Some (r + 2, c)) (fadd ySpacing ySpacing))
  | gen_bend_horizontal r c :
      is_Some (look g (r, c)) -> is_Some (look g (r, c + 2)) ->
      generated_spring g xSpacing ySpacing
        (mkSpring (Some (r, c)) (Some (r, c + 2)) (fadd xSpacing xSpacing)).

(** Where the particle matrix puts the particle of an address: [a.2]
    steps of [xSpacing] right of the anchor and [a.1] steps of [ySpacing]
    below it. *)
Definition lattice (position : vec3 F) (xSpacing ySpacing : F)
  (a : nat * nat) : vec3 F :=
  mkvec3 (Nat.iter a.2 (fun v => fadd v xSpacing) (x position))
         (Nat.iter a.1 (fun v => fsub v ySpacing) (y position))
         (z position).

(** A value-initialised [Spring]. *)
Definition Spring_default : Spring F := mkSpring None None fzero.

(** One turn of the inner spring loop, at slot [l] for the particle at
    ([row], [col]): four structural and two shear springs, then the bend
    springs under their guards. *)
Definition spring_group (g : grid F) (xSpacing ySpacing : F)
  (nsprings k row : nat) (sp : list (Spring F)) (col : nat) (l : nat)
  : res (list (Spring F)) :=
  let xBendSpacing := fadd xSpacing xSpacing in
  let yBendSpacing := fadd ySpacing ySpacing in
  let shear := fsqrt (fadd (fmul xSpacing xSpacing) (fmul ySpacing ySpacing)) in
  do a00 <- addr g row col;
  do a10 <- addr g (row + 1) col;
  do sp <- set_at sp l (mkSpring a00 a10 ySpacing);
  do a01 <- addr g row (col + 1);
  do sp <- set_at sp (l + 1) (mkSpring a00 a01 xSpacing);
  do a11 <- addr g (row + 1) (col + 1);
  do sp <- set_at sp (l + 2) (mkSpring a01 a11 ySpacing);
  do sp <- set_at sp (l + 3) (mkSpring a10 a11 xSpacing);
  do sp <- set_at sp (l + 4) (mkSpring a10 a01 shear);
  do sp <- set_at sp (l + 5) (mkSpring a00 a11 shear);
  do sp <-
    (if (Z.of_nat k <? size_sub (Z.of_nat nsprings) 3)%Z then
       do a20 <- addr g (row + 2) col;
       set_at sp (l + 6) (mkSpring a00 a20 yBendSpacing)
     else Ok sp);
  if (Z.of_nat (l + 7) <? size_sub (Z.of_nat (length sp)) 3)%Z then
    do a02 <- addr g row (col + 2);
    set_at sp (l + 7) (mkSpring a00 a02 xBendSpacing)
  else Ok sp.

(** Row [k] of the spring matrix.  The loop [for (l = 0; l < size;
    l += springGroupSize)] runs for [col = 0, 1, ...] with
    [l = col * springGroupSize], as long as [l < size]. *)
Definition spring_row (g : grid F) (xSpacing ySpacing : F) (width : Z)
  (nsprings k : nat) : res (list (Spring F)) :=
  let bend := (Z.of_nat k <? size_sub (Z.of_nat nsprings) 3)%Z in
  let size := if bend then ((width - 1) * 8 - 1)%Z else ((width - 1) * 6)%Z in
  let springGroupSize := if bend then 8 else 6 in
  if (size <? 0)%Z then Err LengthError else
  let size := Z.to_nat size in
  foldM (fun sp col =>
           spring_group g xSpacing ySpacing nsprings k k sp col
                        (col * springGroupSize))
        (seq 0 ((size + springGroupSize - 1) / springGroupSize))
        (replicate size Spring_default).

(** Generates a height*width matrix of particles and a matrix of springs.
    The dimensions arrive as [GLfloat]s converted from [int] and are
    converted back for the loops; the conversions are exact for the
    dimensions that fit a [GLfloat] mantissa. *)
Definition generateParticleSheet (position : vec3 F) (height width : Z)
  : res (grid F * list (list (Spring F))) :=
  do xSpacing <- fdivide ftwo (fsub (flit height 1) fone);
  do ySpacing <- fdivide ftwo (fsub (flit width 1) fone);
  if (height <? 0)%Z || (width <? 0)%Z then Err LengthError else
  let g := particle_rows xSpacing ySpacing position 0
             (Z.to_nat height) (Z.to_nat width) position in
  if (height - 1 <? 0)%Z then Err LengthError else
  let nsprings := Z.to_nat (height - 1) in
  do sps <- mapM (spring_row g xSpacing ySpacing width nsprings)
                 (seq 0 nsprings);
  Ok (g, sps).

(** [particles.at(0).at(j).pinned = true;
     pinnedParticles.push(&particles.at(0).at(j));]
    with [j] a [size_t]. *)
Definition pin (cs : ClothSheet F) (j : Z) : res (ClothSheet F) :=
  if (j <? 0)%Z then Err OutOfRange else
  let j := Z.to_nat j in
  do row <- at_ (particles cs) 0;
  do p <- at_ row j;
  Ok (mkClothSheet (cs_position cs) (cs_color cs)
        (store (particles cs) (Some (0, j)) (set_pinned p true))
        (springs cs) (potentialColliders cs)
        (pinnedParticles cs ++ [(0, j)]) (vWindForce cs)).

(** The constructor hands [width] to the [height] parameter of
    [generateParticleSheet] and [height] to its [width] parameter. *)
Definition ClothSheet_new (position : vec3 F) (color : vec4 F)
  (width height : Z) : res (ClothSheet F) :=
  do gs <- generateParticleSheet position width height;
  let cs := mkClothSheet position color gs.1 gs.2 [] [] vzero in
  let size := Z.of_nat (length (particles cs)) in
  (* Pinning top left three particles *)
  do cs <- pin cs 0;
  do cs <- pin cs 1;
  do cs <- pin cs 2;
  (* Pinning top right three particles *)
  do cs <- pin cs (size_sub size 1);
  do cs <- pin cs (size_sub size 2);
  pin cs (size_sub size 3).
End Construction.

(** ** class ClothSheet: simulation *)

(** The objects the cloth reaches through pointers it does not own: the
    spheres allocated by the program and the global [sphere] pointer. *)
Record Globals (F : Type) : Type := mkGlobals {
  heap : list (Sphere F);
  sphere : option nat
}.
Arguments heap {F} _.
Arguments sphere {F} _.
Arguments mkGlobals {F} _ _.

Section Simulation.
Context {F : Type} `{GLfloatOps F}.

Definition with_particles (cs : ClothSheet F) (g : grid F) : ClothSheet F :=
  mkClothSheet (cs_position cs) (cs_color cs) g (springs cs)
               (potentialColliders cs) (pinnedParticles cs) (vWindForce cs).

(** *** accumulateForces *)

(** [v->acceleration = v->acceleration + a] *)
Definition add_acceleration (g : grid F) (v : pptr) (a : vec3 F)
  : res (grid F) :=
  do q <- deref g v;
  Ok (store g v (set_acceleration q (vadd (acceleration q) a))).

(** Wind force acceleration of one triangle, added to its three corners. *)
Definition wind_triangle (wind : vec3 F) (g : grid F) (v0 v1 v2 : pptr)
  : res (grid F) :=
  do q0 <- deref g v0;
  do q1 <- deref g v1;
  do q2 <- deref g v2;
  do vFaceNormal <-
    normalize (cross (vsub (position q1) (position q0))
                     (vsub (position q2) (position q0)));
  let vWindAcceleration := vmul vFaceNormal (dot vFaceNormal wind) in
  do vWindAcceleration <-
    vdiv vWindAcceleration (fadd (fadd (mass q0) (mass q1)) (mass q2));
  do g <- add_acceleration g v0 vWindAcceleration;
  do g <- add_acceleration g v1 vWindAcceleration;
  add_acceleration g v2 vWindAcceleration.

(** The upper and the lower triangle of the quad at ([k], [l]). *)
Definition wind_quad (wind : vec3 F) (k : nat) (g : grid F) (l : nat)
  : res (grid F) :=
  do v0 <- addr g (k + 1) l;
  do v1 <- addr g k l;
  do v2 <- addr g k (l + 1);
  do g <- wind_triangle wind g v0 v1 v2;
  let v1 := v2 in
  do v2 <- addr g (k + 1) (l + 1);
  wind_triangle wind g v0 v1 v2.

(** The loop bounds [size() - 1] are [size_t]: on an empty vector they
    wrap to [SIZE_MAX], the loop is entered and the first [at] throws. *)
Definition wind_pass (wind : vec3 F) (g : grid F) : res (grid F) :=
  if length g =? 0 then Err OutOfRange else
  foldM (fun g k =>
           do row <- at_ g k;
           if length row =? 0 then Err OutOfRange else
           foldM (wind_quad wind k) (seq 0 (length row - 1)) g)
        (seq 0 (length g - 1)) g.

(** Gravity and spring force of one spring, added to its two ends. *)
Definition spring_force (g : grid F) (spring : Spring F) : res (grid F) :=
  do q0 <- deref g (p0 spring);
  do q1 <- deref g (p1 spring);
  let vCurrentDistance := vsub (position q0) (position q1) in
  let currentDistMagnitude := magnitude vCurrentDistance in
  let deltaDistance := fsub currentDistMagnitude (restLength spring) in
  do unit <- vdiv vCurrentDistance currentDistMagnitude;
  let vSpringAcceleration := vmul unit (fmul springConstK deltaDistance) in
  do vSpringAcceleration <- vdiv vSpringAcceleration (mass q0);
  do g0 <- vdiv gravity (mass q0);
  let g := store g (p0 spring)
             (set_acceleration q0
                (vadd (vsub g0 vSpringAcceleration) (acceleration q0))) in
  do q1 <- deref g (p1 spring);
  do g1 <- vdiv gravity (mass q1);
  Ok (store g (p1 spring)
        (set_acceleration q1
           (vadd (vadd g1 vSpringAcceleration) (acceleration q1)))).

Definition spring_pass (sps : list (list (Spring F))) (g : grid F)
  : res (grid F) :=
  foldM (fun g row => foldM spring_force row g) sps g.

(** Accumulates forces on each particle and stores acceleration. *)
Definition accumulateForces (cs : ClothSheet F) : res (ClothSheet F) :=
  do _vWindNormal <- normalize (vWindForce cs);
  do g <- wind_pass (vWindForce cs) (particles cs);
  do g <- spring_pass (springs cs) g;
  Ok (with_particles cs g).

(** *** satisfyConstraints *)

Definition relax_spring (g : grid F) (spring : Spring F) : res (grid F) :=
  do q0 <- deref g (p0 spring);
  do q1 <- deref g (p1 spring);
  let vCurrentDistance := vsub (position q0) (position q1) in
  let deltaDistance := magnitude vCurrentDistance in
  do ratio <- fdivide (restLength spring) deltaDistance;
  let vConstraints := vmul vCurrentDistance (fsub fone ratio) in
  let vConstraints := vmul vConstraints (flit 1 2) in
  let g :=
    if pinned q0 then g
    else store g (p0 spring)
           (set_position q0 (vsub (position q0) vConstraints)) in
  do q1 <- deref g (p1 spring);
  Ok (if pinned q1 then g
      else store g (p1 spring)
             (set_position q1 (vadd (position q1) vConstraints))).

(** One relaxation iteration over every spring. *)
Definition relax_pass (sps : list (list (Spring F))) (g : grid F)
  : res (grid F) :=
  foldM (fun g row => foldM relax_spring row g) sps g.

(** [iterations] relaxation iterations. *)
Definition relax (iterations : nat) (cs : ClothSheet F)
  : res (ClothSheet F) :=
  do g <- iterM iterations (relax_pass (springs cs)) (particles cs);
  Ok (with_particles cs g).

(** Moves particles closer to their spring rest length. *)
Definition satisfyConstraints (cs : ClothSheet F) : res (ClothSheet F) :=
  relax CONSTRAINT_ITERATIONS cs.

(** *** move: Verlet integration *)

Definition timeTSquared : F := flit 1 100.

Definition integrate_particle (particle : Particle F) : Particle F :=
  if pinned particle then particle
  else
    let vTempPos := position particle in
    set_prevPosition
      (set_position particle
         (vadd (vsub (vmul (position particle) ftwo)
                     (vmul (prevPosition particle) damperConstD))
               (vmul (acceleration particle) timeTSquared)))
      vTempPos.

Definition integrate (cs : ClothSheet F) : ClothSheet F :=
  with_particles cs (map (map integrate_particle) (particles cs)).

(** *** handleCollision *)

Definition offsetScalar : F := flit 3 100.

(** The body of the particle loop; the centre is read through
    [collidable], the radius through the global [sphere] pointer. *)
Definition collide_particle (gl : Globals F) (collidable : nat)
  (particle : Particle F) : res (Particle F) :=
  do c <- of_option BadPointer (heap gl !! collidable);
  if contains c (position particle) then
    let vDistance := vsub (position particle) (sph_position c) in
    do vNormalizedDist <- normalize vDistance;
    do sph <- match sphere gl with
              | Some a => of_option BadPointer (heap gl !! a)
              | None => Err BadPointer
              end;
    let vScaledDist := vmul vNormalizedDist (sph_radius sph) in
    Ok (set_position particle
          (vadd (vadd (sph_position c)
                      (vmul vNormalizedDist (sph_radius sph)))
                (vmul vScaledDist offsetScalar)))
  else Ok particle.

Definition collide_with (gl : Globals F) (g : grid F) (collidable : nat)
  : res (grid F) :=
  mapM (mapM (collide_particle gl collidable)) g.

(** Handles collisions with nearby spheres. *)
Definition handleCollision (gl : Globals F) (cs : ClothSheet F)
  : res (ClothSheet F) :=
  do g <- foldM (collide_with gl) (potentialColliders cs) (particles cs);
  Ok (with_particles cs g).

(** Moves particles using Verlet integration. *)
Definition move (gl : Globals F) (cs : ClothSheet F) (deltaT : Z)
  : res (ClothSheet F) :=
  do cs <- accumulateForces cs;
  do cs <- satisfyConstraints cs;
  handleCollision gl (integrate cs).

(** *** The other methods *)

Definition applyWindForce (cs : ClothSheet F) (windForce : vec3 F)
  : ClothSheet F :=
  mkClothSheet (cs_position cs) (cs_color cs) (particles cs) (springs cs)
               (potentialColliders cs) (pinnedParticles cs) windForce.

(** One turn of the loop of [detach]. *)
Definition unpin (g : grid F) (a : nat * nat) : res (grid F) :=
  do q <- deref g (Some a);
  Ok (store g (Some a) (set_pinned q false)).

(** Unpins pinned particles, emptying the queue. *)
Definition detach (cs : ClothSheet F) : res (ClothSheet F) :=
  do g <- foldM unpin (pinnedParticles cs) (particles cs);
  Ok (mkClothSheet (cs_position cs) (cs_color cs) g (springs cs)
        (potentialColliders cs) [] (vWindForce cs)).

Definition pushCollidable (cs : ClothSheet F) (collidable : nat)
  : ClothSheet F :=
  mkClothSheet (cs_position cs) (cs_color cs) (particles cs) (springs cs)
               (potentialColliders cs ++ [collidable])
               (pinnedParticles cs) (vWindForce cs).
End Simulation.

(** * Scenes in exact arithmetic *)

Module ExactScene.
Definition origin : vec3 R := mkvec3 0%R 0%R 0%R.
Definition white : vec4 R := mkvec4 1%R 1%R 1%R 1%R.
Definition resting (v : vec3 R) : Particle R :=
  mkParticle v v origin white 50%R false.

(** Two particles at the same place, joined by a spring. *)
Definition collapsed (wind : vec3 R) : ClothSheet R :=
  mkClothSheet origin white [[resting origin; resting origin]]
    [[mkSpring (Some (0, 0)) (Some (0, 1)) 1%R]] [] [] wind.

Definition half_way : vec3 R := mkvec3 (1 / 2)%R 0%R 0%R.

Definition speck (colliders : list nat) : ClothSheet R :=
  mkClothSheet origin white [[resting half_way]] [] colliders [] origin.
End ExactScene.

(** * The frame driver's view of the cloth *)

Section Driver.
Context {F : Type} `{GLfloatOps F}.

(** What one frame of [driver] does to the cloth: [applyWindForce] with the
    wind of the frame, then [move]; the spheres are where the frame finds
    them. *)
Definition tick (cs : ClothSheet F) (frame : Globals F * vec3 F * Z)
  : res (ClothSheet F) :=
  move frame.1.1 (applyWindForce cs frame.1.2) frame.2.

Definition ticks (frames : list (Globals F * vec3 F * Z)) (cs : ClothSheet F)
  : res (ClothSheet F) :=
  foldM tick frames cs.

(** The values of an [int]. *)
Definition is_int (n : Z) : Prop := (- 2 ^ 31 <= n <= 2 ^ 31 - 1)%Z.

(** The states a cloth goes through: constructed, then any of its public
    methods. *)
Inductive reachable : ClothSheet F -> Prop :=
  | reach_new position color width height cs :
      is_int width -> is_int height ->
      ClothSheet_new position color width height = Ok cs -> reachable cs
  | reach_pushCollidable cs c :
      reachable cs -> reachable (pushCollidable cs c)
  | reach_applyWindForce cs w :
      reachable cs -> reachable (applyWindForce cs w)
  | reach_move cs gl deltaT cs' :
      reachable cs -> move gl cs deltaT = Ok cs' -> reachable cs'
  | reach_handleCollision cs gl cs' :
      reachable cs -> handleCollision gl cs = Ok cs' -> reachable cs'
  | reach_detach cs cs' :
      reachable cs -> detach cs = Ok cs' -> reachable cs'.

(** Every pinned particle is in the queue, and the queue points into the
    grid. *)
Definition queue_ok (cs : ClothSheet F) : Prop :=
  (forall a p, look (particles cs) a = Some p -> pinned p = true ->
               a ∈ pinnedParticles cs) /\
  (forall a, a ∈ pinnedParticles cs -> is_Some (look (particles cs) a)).

Definition no_pin (cs : ClothSheet F) : Prop :=
  forall a p, look (particles cs) a = Some p -> pinned p = false.

(** How many particles are pinned. *)
Definition pinned_count (cs : ClothSheet F) : nat :=
  length (List.filter pinned (concat (particles cs))).
End Driver.

(** * The rest of the vector maths library *)

(** The comparisons [==] and [<=] of [GLfloat]; [a >= b] is [b <= a]. *)
Class GLfloatCmp (F : Type) := {
  feqb : F -> F -> bool;
  fleb : F -> F -> bool
}.

#[global] Instance binary32_cmp : GLfloatCmp Binary32.float32 := {
  feqb := SFeqb;
  fleb := SFleb
}.

#[global] Instance exact_cmp : GLfloatCmp R := {
  feqb := fun a b => if Req_dec_T a b then true else false;
  fleb := fun a b => if Rle_dec a b then true else false
}.

Section VectorMaths.
Context {F : Type} `{GLfloatOps F} `{GLfloatCmp F}.

(** [operator!=] on [vec3], as the source has it. *)
Definition vec3_ne (u v : vec3 F) : bool :=
  if feqb (x u) (x v) && feqb (y u) (y v) && feqb (z u) (z v)
  then true else false.

(** [operator+] on [vec4]. *)
Definition vadd4 (u v : vec4 F) : vec4 F :=
  mkvec4 (fadd (x4 u) (x4 v)) (fadd (y4 u) (y4 v)) (fadd (z4 u) (z4 v))
         (fadd (w4 u) (w4 v)).
End VectorMaths.

(** * The sphere's mesh: generateCube and generateSpherifiedCube *)

Section CubeMesh.
Context {F : Type} `{GLfloatOps F} `{GLfloatCmp F}.

(** [-1 * v], the [int] converted to [GLfloat]. *)
Definition fneg1 (v : F) : F := fmul (flit (-1) 1) v.

(** The two triangles pushed for a face at constant [z], [x] and [y]. *)
Definition face_z (x y z delta : F) : list F :=
  [x; fsub y delta; z;   x; y; z;   fadd x delta; y; z;
   x; fsub y delta; z;   fadd x delta; y; z;   fadd x delta; fsub y delta; z].

Definition face_x (x y z delta : F) : list F :=
  [x; fsub y delta; z;   x; y; z;   x; y; fsub z delta;
   x; fsub y delta; z;   x; y; fsub z delta;   x; fsub y delta; fsub z delta].

Definition face_y (x y z delta : F) : list F :=
  [x; y; fsub z delta;   x; y; z;   fadd x delta; y; z;
   x; y; fsub z delta;   fadd x delta; y; z;   fadd x delta; y; fsub z delta].

(** [for (GLfloat v = -1.0f; v <= 1.0f; v += delta) body], at most [fuel]
    turns; [None] when the turns run out. *)
Fixpoint count_up (fuel : nat) (delta v : F)
    (body : F -> list F -> option (list F)) (vertices : list F)
  : option (list F) :=
  match fuel with
  | O => None
  | S fuel' =>
      if fleb v fone then
        match body v vertices with
        | Some vertices' => count_up fuel' delta (fadd v delta) body vertices'
        | None => None
        end
      else Some vertices
  end.

(** [for (GLfloat v = 1.0f; v >= -1.0f; v -= delta) body]. *)
Fixpoint count_down (fuel : nat) (delta v : F)
    (body : F -> list F -> option (list F)) (vertices : list F)
  : option (list F) :=
  match fuel with
  | O => None
  | S fuel' =>
      if fleb (flit (-1) 1) v then
        match body v vertices with
        | Some vertices' =>
            count_down fuel' delta (fsub v delta) body vertices'
        | None => None
        end
      else Some vertices
  end.

(** The three pairs of loops of [generateCube], given [delta]. *)
Definition cube_faces (fuel : nat) (delta : F) (vertices : list F)
  : option (list F) :=
  let z := fone in
  match
    count_up fuel delta (flit (-1) 1)
      (fun x => count_down fuel delta fone
         (fun y vertices =>
            Some (vertices ++ face_z x y z delta
                           ++ face_z x y (fneg1 z) delta)))
      vertices
  with
  | None => None
  | Some vertices =>
      let x := fone in
      match
        count_down fuel delta fone
          (fun z => count_down fuel delta fone
             (fun y vertices =>
                Some (vertices ++ face_x x y z delta
                               ++ face_x (fneg1 x) y z delta)))
          vertices
      with
      | None => None
      | Some vertices =>
          let y := fone in
          count_up fuel delta (flit (-1) 1)
            (fun x => count_down fuel delta fone
               (fun z vertices =>
                  Some (vertices ++ face_y x y z delta
                                 ++ face_y x (fneg1 y) z delta)))
            vertices
      end
  end.

Definition generateCube (fuel : nat) (smoothness : Z) (vertices : list F)
  : res (option (list F)) :=
  do delta <- fdivide fone (flit smoothness 1);
  Ok (cube_faces fuel delta vertices).

(** The vertex whose coordinates start at index [i]. *)
Definition vertex_at (vertices : list F) (i : nat) : res (vec3 F) :=
  do a <- at_ vertices i;
  do b <- at_ vertices (i + 1);
  do c <- at_ vertices (i + 2);
  Ok (mkvec3 a b c).

(** One turn of the loop of [generateSpherifiedCube], at [i = 3 * n]. *)
Definition spherify_vertex (vertices : list F) (n : nat) : res (list F) :=
  let i := 3 * n in
  do point <- vertex_at vertices i;
  do normal <- normalize point;
  do vertices <- set_at vertices i (x normal);
  do vertices <- set_at vertices (i + 1) (y normal);
  set_at vertices (i + 2) (z normal).

(** Normalizing each vertex to create a unit sphere. *)
Definition spherify (vertices : list F) : res (list F) :=
  foldM spherify_vertex (seq 0 ((length vertices + 3 - 1) / 3)) vertices.

Definition generateSpherifiedCube (fuel : nat) (smoothness : Z)
    (vertices : list F) : res (option (list F)) :=
  do cube <- generateCube fuel smoothness vertices;
  match cube with
  | None => Ok None
  | Some vertices => do vertices <- spherify vertices; Ok (Some vertices)
  end.
End CubeMesh.


(** ** The mesh in closed form *)

Section CubeMeshForm.
Context {F : Type} `{GLfloatOps F} `{GLfloatCmp F}.

(** The value of the loop variable at turn [k]. *)
Definition up_at (delta v : F) (k : nat) : F :=
  Nat.iter k (fun u => fadd u delta) v.
Definition down_at (delta v : F) (k : nat) : F :=
  Nat.iter k (fun u => fsub u delta) v.

(** The vertices of a cube whose loops take [m] turns upwards and [n]
    turns downwards. *)
Definition cube_mesh (delta : F) (m n : nat) : list F :=
  let up := up_at delta (flit (-1) 1) in
  let down := down_at delta fone in
  concat (map (fun i =>
     concat (map (fun j => face_z (up i) (down j) fone delta
                           ++ face_z (up i) (down j) (fneg1 fone) delta)
                 (seq 0 n))) (seq 0 m))
  ++ concat (map (fun i =>
     concat (map (fun j => face_x fone (down j) (down i) delta
                           ++ face_x (fneg1 fone) (down j) (down i) delta)
                 (seq 0 n))) (seq 0 n))
  ++ concat (map (fun i =>
     concat (map (fun j => face_y (up i) fone (down j) delta
                           ++ face_y (up i) (fneg1 fone) (down j) delta)
                 (seq 0 n))) (seq 0 m)).

(** The vertices of a list of coordinates. *)
Fixpoint triples (vs : list F) : list (vec3 F) :=
  match vs with
  | a :: b :: c :: vs' => mkvec3 a b c :: triples vs'
  | _ => []
  end.
End CubeMeshForm.

(** * Drawing: the OpenGL calls of the actors *)

(** The OpenGL and GLUT calls the program makes while it runs; the mode
    of [glBegin] is always [GL_TRIANGLES], the mask of [glClear] the
    colour and depth buffers. *)
Inductive gl_call (F : Type) : Type :=
  | glClearColor (c : vec4 F)
  | glClear
  | glutSwapBuffers
  | glPushMatrix
  | glPopMatrix
  | glTranslatef (v : vec3 F)
  | glScalef (v : vec3 F)
  | glBegin
  | glEnd
  | glColor4f (c : vec4 F)
  | glNormal3f (n : vec3 F)
  | glVertex3f (v : vec3 F)
  | glMatrixMode_MODELVIEW
  | glLoadIdentity
  | gluLookAt (eye centre up : vec3 F).
Arguments glClearColor {F} c.
Arguments glClear {F}.
Arguments glutSwapBuffers {F}.
Arguments glPushMatrix {F}.
Arguments glPopMatrix {F}.
Arguments glTranslatef {F} v.
Arguments glScalef {F} v.
Arguments glBegin {F}.
Arguments glEnd {F}.
Arguments glColor4f {F} c.
Arguments glNormal3f {F} n.
Arguments glVertex3f {F} v.
Arguments glMatrixMode_MODELVIEW {F}.
Arguments glLoadIdentity {F}.
Arguments gluLookAt {F} eye centre up.

(** The members of [Sphere] that only [draw] reads. *)
Record SphereMesh (F : Type) : Type := mkSphereMesh {
  sm_scale : vec3 F;
  sm_color : vec4 F;
  sm_vertices : list F
}.
Arguments mkSphereMesh {F} _ _ _.
Arguments sm_scale {F} _.
Arguments sm_color {F} _.
Arguments sm_vertices {F} _.

Record Camera (F : Type) : Type := mkCamera {
  cam_position : vec3 F;
  cam_facing : vec3 F;
  cam_up : vec3 F
}.
Arguments mkCamera {F} _ _ _.
Arguments cam_position {F} _.
Arguments cam_facing {F} _.
Arguments cam_up {F} _.

Section Drawing.
Context {F : Type} `{GLfloatOps F}.

(** [normalize(cross(p2 - p1, p3 - p1))] *)
Definition face_normal (p1 p2 p3 : vec3 F) : res (vec3 F) :=
  normalize (cross (vsub p2 p1) (vsub p3 p1)).

(** One turn of the loop of [Sphere::draw], at [j = 3 * vertCount]. *)
Definition Sphere_draw_vertex (m : SphereMesh F) (calls : list (gl_call F))
    (vertCount : nat) : res (list (gl_call F)) :=
  let j := 3 * vertCount in
  let calls := calls ++ [glColor4f (sm_color m)] in
  do calls <-
    (if vertCount mod 6 =? 0 then
       do p1 <- vertex_at (sm_vertices m) j;
       do p2 <- vertex_at (sm_vertices m) (j + 3);
       do p3 <- vertex_at (sm_vertices m) (j + 6);
       do normal <- face_normal p1 p2 p3;
       Ok (calls ++ [glNormal3f normal])
     else Ok calls);
  do v <- vertex_at (sm_vertices m) j;
  Ok (calls ++ [glVertex3f v]).

Definition Sphere_draw (s : Sphere F) (m : SphereMesh F)
  : res (list (gl_call F)) :=
  do calls <-
    foldM (Sphere_draw_vertex m)
          (seq 0 ((length (sm_vertices m) + 3 - 1) / 3))
          [glPushMatrix; glTranslatef (sph_position s);
           glScalef (sm_scale m); glBegin];
  Ok (calls ++ [glEnd; glPopMatrix]).

(** The two triangles of the quad at ([i], [j]). *)
Definition ClothSheet_draw_quad (g : grid F) (i : nat)
    (calls : list (gl_call F)) (j : nat) : res (list (gl_call F)) :=
  do rowi <- at_ g i;
  do pij <- at_ rowi j;
  do rowi1 <- at_ g (i + 1);
  do pi1j <- at_ rowi1 j;
  do pij1 <- at_ rowi (j + 1);
  let p1 := position pi1j in
  let p2 := position pij in
  let p3 := position pij1 in
  do normal <- face_normal p1 p2 p3;
  let calls := calls ++ [glColor4f (color pij); glNormal3f normal;
                         glVertex3f p1; glVertex3f p2; glVertex3f p3] in
  do pi1j1 <- at_ rowi1 (j + 1);
  let p2 := position pij1 in
  let p3 := position pi1j1 in
  do normal <- face_normal p1 p2 p3;
  Ok (calls ++ [glNormal3f normal;
                glVertex3f p1; glVertex3f p2; glVertex3f p3]).

(** Draws cloth using particle positions for vertices.  The loop bounds
    [size() - 1] are [size_t], as in [accumulateForces]. *)
Definition ClothSheet_draw (cs : ClothSheet F) : res (list (gl_call F)) :=
  let g := particles cs in
  if length g =? 0 then Err OutOfRange else
  do calls <-
    foldM (fun calls i =>
             do row <- at_ g i;
             if length row =? 0 then Err OutOfRange else
             foldM (ClothSheet_draw_quad g i) (seq 0 (length row - 1)) calls)
          (seq 0 (length g - 1)) [glPushMatrix; glBegin];
  Ok (calls ++ [glEnd; glPopMatrix]).

(** Updates view to given camera. *)
Definition switchCamera (camera : Camera F) : list (gl_call F) :=
  [glMatrixMode_MODELVIEW; glLoadIdentity;
   gluLookAt (cam_position camera) (cam_facing camera) (cam_up camera)].
End Drawing.

(** * The program: its globals, the driver and the keyboard *)

(** An element of [actors]. *)
Inductive Actor : Set :=
  | ActorSphere (a : nat)
  | ActorCloth.

(** The globals of the program that its callbacks use; [meshes] holds, for
    each sphere of the heap, the members that [draw] reads. *)
Record World (F : Type) : Type := mkWorld {
  w_globals : Globals F;
  w_meshes : list (SphereMesh F);
  w_actors : list Actor;
  w_cloth : ClothSheet F;
  w_wind : Wind F;
  lastUpdateT : Z;
  paused : bool
}.
Arguments mkWorld {F} _ _ _ _ _ _ _.
Arguments w_globals {F} _.
Arguments w_meshes {F} _.
Arguments w_actors {F} _.
Arguments w_cloth {F} _.
Arguments w_wind {F} _.
Arguments lastUpdateT {F} _.
Arguments paused {F} _.

(** What [keyboardHandler] leaves behind: the program has exited, or it
    runs on with these globals after these OpenGL calls. *)
Inductive key_result (F : Type) : Type :=
  | Exited
  | Running (w : World F) (calls : list (gl_call F)).
Arguments Exited {F}.
Arguments Running {F} w calls.

Section Program.
Context {F : Type} `{GLfloatOps F} `{GLfloatCmp F}.

Definition camera : Camera F :=
  mkCamera (mkvec3 fzero fzero fone) (mkvec3 fzero fzero fzero)
           (mkvec3 fzero fone fzero).
Definition cameraUp : Camera F :=
  mkCamera (mkvec3 fzero ftwo fone) (mkvec3 fzero fzero (flit (-1) 1))
           (mkvec3 fzero fone fzero).
Definition cameraLeft : Camera F :=
  mkCamera (mkvec3 (flit (-2) 1) (flit 5 10) (flit (-3) 1))
           (mkvec3 fzero fzero (flit (-1) 1)) (mkvec3 fzero fone fzero).
Definition cameraRight : Camera F :=
  mkCamera (mkvec3 ftwo (flit 5 10) (flit (-3) 1))
           (mkvec3 fzero fzero (flit (-1) 1)) (mkvec3 fzero fone fzero).

Definition with_cloth (w : World F) (cs : ClothSheet F) : World F :=
  mkWorld (w_globals w) (w_meshes w) (w_actors w) cs (w_wind w)
          (lastUpdateT w) (paused w).
Definition with_wind (w : World F) (wind : Wind F) : World F :=
  mkWorld (w_globals w) (w_meshes w) (w_actors w) (w_cloth w) wind
          (lastUpdateT w) (paused w).
Definition with_heap (w : World F) (heap : list (Sphere F)) : World F :=
  mkWorld (mkGlobals heap (sphere (w_globals w))) (w_meshes w) (w_actors w)
          (w_cloth w) (w_wind w) (lastUpdateT w) (paused w).
Definition with_lastUpdateT (w : World F) (t : Z) : World F :=
  mkWorld (w_globals w) (w_meshes w) (w_actors w) (w_cloth w) (w_wind w)
          t (paused w).

(** [paused = !paused] *)
Definition pause (w : World F) : World F :=
  mkWorld (w_globals w) (w_meshes w) (w_actors w) (w_cloth w) (w_wind w)
          (lastUpdateT w) (negb (paused w)).

(** [actor->draw()] *)
Definition Actor_draw (w : World F) (actor : Actor)
  : res (list (gl_call F)) :=
  match actor with
  | ActorSphere a =>
      do s <- of_option BadPointer (heap (w_globals w) !! a);
      do m <- of_option BadPointer (w_meshes w !! a);
      Sphere_draw s m
  | ActorCloth => ClothSheet_draw (w_cloth w)
  end.

(** Delegating draw to each Actor object. *)
Definition draw (w : World F) : res (list (gl_call F)) :=
  do calls <-
    foldM (fun calls actor =>
             do more <- Actor_draw w actor; Ok (calls ++ more))
          (w_actors w)
          [glClearColor (mkvec4 (flit 1 10) (flit 1 10) (flit 1 10) fone);
           glClear];
  Ok (calls ++ [glutSwapBuffers]).

(** Updating state: the four calls of the driver on an unpaused frame. *)
Definition update (w : World F) (deltaT : Z) : res (World F) :=
  do a <- of_option BadPointer (sphere (w_globals w));
  do s <- of_option BadPointer (heap (w_globals w) !! a);
  let w := with_heap w (<[a := Sphere_move s deltaT]> (heap (w_globals w))) in
  let '(wind, windUpdate) := generateWindForce (w_wind w) deltaT in
  let w := with_wind w wind in
  do cs <- move (w_globals w) (applyWindForce (w_cloth w) windUpdate) deltaT;
  Ok (with_cloth w cs).

(** Main "loop" since GLUT is event driven; [currT] is the reading of the
    steady clock in milliseconds. *)
Definition driver (currT : Z) (w : World F)
  : res (World F * list (gl_call F)) :=
  let deltaT :=
    if negb (lastUpdateT w =? 0)%Z then (currT - lastUpdateT w)%Z else 0%Z in
  let w :=
    if negb (lastUpdateT w =? 0)%Z then w else with_lastUpdateT w currT in
  if (MIN_TIME_STEP <? deltaT)%Z then
    do w <- (if negb (paused w) then update w deltaT else Ok w);
    do calls <- draw w;
    Ok (with_lastUpdateT w currT, calls)
  else Ok (w, []).

Definition keyboardHandler (key : Z) (w : World F) : res (key_result F) :=
  if (key =? 27)%Z then Ok Exited
  else if (key =? 32)%Z then
    do cs <- detach (w_cloth w); Ok (Running (with_cloth w cs) [])
  else if (key =? 13)%Z then Ok (Running (pause w) [])
  else if (key =? 97)%Z then Ok (Running w (switchCamera cameraLeft))
  else if (key =? 100)%Z then Ok (Running w (switchCamera cameraRight))
  else if (key =? 119)%Z then Ok (Running w (switchCamera cameraUp))
  else if (key =? 115)%Z then Ok (Running w (switchCamera camera))
  else if (key =? 122)%Z then
    Ok (Running (with_wind w (toggleWind (w_wind w))) [])
  else if (key =? 120)%Z then
    do a <- of_option BadPointer (sphere (w_globals w));
    do s <- of_option BadPointer (heap (w_globals w) !! a);
    Ok (Running (with_heap w (<[a := toggleMovement s]> (heap (w_globals w))))
                [])
  else Ok (Running w []).

(** The scene that [main] sets up before it enters the GLUT loop. *)
Definition main (fuel : nat) : res (option (World F)) :=
  do vertices <- generateSpherifiedCube fuel 16 [];
  match vertices with
  | None => Ok None
  | Some vertices =>
      let spherePos := mkvec3 (flit (-5) 10) (flit (-5) 10) (flit (-25) 10) in
      let sphereColor :=
        mkvec4 (flit 212 1000) (flit 969 1000) (flit 627 1000) fone in
      let scale := flit 5 10 in
      let sph := Sphere_new spherePos fone scale in
      let mesh := mkSphereMesh (mkvec3 scale scale scale) sphereColor
                               vertices in
      let clothPos := mkvec3 (flit (-1) 1) fone (flit (-2) 1) in
      let clothColor :=
        mkvec4 (flit 212 1000) (flit 969 1000) (flit 627 1000) fone in
      do cloth <- ClothSheet_new clothPos clothColor 50 50;
      let cloth := pushCollidable cloth 0 in
      let wind := Wind_new (mkvec3 fzero (flit (-2) 1) (flit (-15) 10)) in
      Ok (Some (mkWorld (mkGlobals [sph] (Some 0)) [mesh]
                        [ActorSphere 0; ActorCloth] cloth wind 0 false))
  end.
End Program.

(** * The vocabulary of the statements *)

Section Relations.
Context {F : Type} `{GLfloatOps F}.
Implicit Types (g : grid F) (a b : nat * nat) (p q : Particle F).
Implicit Types (cs : ClothSheet F) (sp : list (Spring F)) (s : Spring F).

(** Two grids hold related particles at the same addresses. *)
Definition grid_rel (rel : Particle F -> Particle F -> Prop) g g' : Prop :=
  forall a, option_Forall2 rel (look g a) (look g' a).

(** Only the acceleration differs. *)
Definition acc_only p p' : Prop :=
  position p' = position p /\ prevPosition p' = prevPosition p /\
  color p' = color p /\ mass p' = mass p /\ pinned p' = pinned p.

(** The pin is kept, and so is the position under a pin. *)
Definition pin_stable p p' : Prop :=
  pinned p' = pinned p /\ (pinned p = true -> position p' = position p).

(** Only the position differs. *)
Definition pos_only p p' : Prop :=
  prevPosition p' = prevPosition p /\ acceleration p' = acceleration p /\
  color p' = color p /\ mass p' = mass p /\ pinned p' = pinned p.

(** Only the pin differs. *)
Definition pin_only p p' : Prop :=
  position p' = position p /\ prevPosition p' = prevPosition p /\
  acceleration p' = acceleration p /\ color p' = color p /\
  mass p' = mass p.

(** Colour, mass and pin are the same. *)
Definition same_body p p' : Prop :=
  color p' = color p /\ mass p' = mass p /\ pinned p' = pinned p.

(** The shape of a grid: [rows] rows of [cols] particles. *)
Definition shaped (g : grid F) (rows cols : nat) : Prop :=
  length g = rows /\ Forall (fun row => length row = cols) g.

(** The pins set so far are the queue, and nothing else is pinned. *)
Definition pins_are cs (l : list (nat * nat)) : Prop :=
  pinnedParticles cs = l /\
  (forall a, a ∈ l -> is_Some (look (particles cs) a)) /\
  (forall a p, look (particles cs) a = Some p -> (pinned p = true <-> a ∈ l)).

(** Slot [j] holds a spring with property [P], or does not exist. *)
Definition slot_ok (P : Spring F -> Prop) sp (j : nat) : Prop :=
  forall s, sp !! j = Some s -> P s.
End Relations.

Section ExactRelations.
Implicit Types (g : grid R) (s : Spring R).
Open Scope R_scope.

End ExactRelations.

(** ** Soundness of a cloth, and the ways a step may fail *)

Section SafetyDefs.
Context {F : Type} `{GLfloatOps F}.

(** Some quotient of the arithmetic is undefined. *)
Definition undefined_division : Prop := exists a b : F, fdiv a b = None.

(** The one way a step may fail: by a division the arithmetic leaves
    undefined. *)
Definition may_fail (e : error) : Prop :=
  e = DivByZero /\ undefined_division.

(** The step returns a result with [P], or fails by such a division. *)
Definition yields {A} (P : A -> Prop) (r : res A) : Prop :=
  match r with
  | Ok a => P a
  | Err e => may_fail e
  end.

(** A pointer to a particle of a grid of [rows] by [cols]. *)
Definition in_range (rows cols : nat) (ptr : pptr) : Prop :=
  exists a, ptr = Some a /\ a.1 < rows /\ a.2 < cols.

(** A cloth whose grid has [rows] rows of [cols] particles, and whose
    springs and queue of pins point into it. *)
Definition sound (rows cols : nat) (cs : ClothSheet F) : Prop :=
  shaped (particles cs) rows cols /\ 0 < rows /\ 0 < cols /\
  Forall (Forall (fun s => in_range rows cols (p0 s) /\
                           in_range rows cols (p1 s))) (springs cs) /\
  Forall (fun a => in_range rows cols (Some a)) (pinnedParticles cs).

(** The colliders of the cloth and the global [sphere] pointer point to
    spheres. *)
Definition colliders_live (gl : Globals F) (cs : ClothSheet F) : Prop :=
  (exists a, sphere gl = Some a /\ is_Some (heap gl !! a)) /\
  Forall (fun c => is_Some (heap gl !! c)) (potentialColliders cs).
End SafetyDefs.

(** ** The layout of the spring matrix *)

Section SpringLayoutDefs.
Context {F : Type} `{GLfloatOps F}.


End SpringLayoutDefs.

(** ** The sphere's track, in exact arithmetic *)

Section ExactMotion.
Open Scope R_scope.

(** The sphere moves along x only, 0.05 a frame, and is within 0.05 of
    the bounds [-1.5] and [1.5] at which [Sphere::move] turns it. *)
Definition on_track (s : Sphere R) : Prop :=
  (x (sph_velocity s) = 5 / 100 \/ x (sph_velocity s) = - (5 / 100)) /\
  y (sph_velocity s) = 0 /\ z (sph_velocity s) = 0 /\
  - (155 / 100) <= x (sph_position s) <= 155 / 100.
End ExactMotion.

(** * What force accumulation adds, in the order it adds it *)

Section ForceTerms.
Context {F : Type} `{GLfloatOps F}.
Implicit Types (g : grid F) (s : Spring F) (a : nat * nat) (v : vec3 F).

(** 1 if the pointer is the address, 0 otherwise. *)
Definition hit a (ptr : pptr) : nat := if decide (ptr = Some a) then 1 else 0.

(** [operator/] and [normalize]; where the quotient is undefined the pass
    does not return, and the value here is of no account. *)
Definition vquo v (d : F) : vec3 F :=
  match vdiv v d with
  | Ok q => q
  | Err _ => vzero
  end.
Definition unit_vec v : vec3 F := vquo v (magnitude v).

(** The wind acceleration of a triangle, as the pass computes it. *)
Definition wind_of (wind : vec3 F) g (v0 v1 v2 : pptr) : vec3 F :=
  match deref g v0, deref g v1, deref g v2 with
  | Ok q0, Ok q1, Ok q2 =>
      let n := unit_vec (cross (vsub (position q1) (position q0))
                               (vsub (position q2) (position q0))) in
      vquo (vmul n (dot n wind)) (fadd (fadd (mass q0) (mass q1)) (mass q2))
  | _, _, _ => vzero
  end.

(** What a triangle adds to the particle at [a]: its wind acceleration,
    once for each corner that is [a]. *)
Definition triangle_terms (wind : vec3 F) g (v0 v1 v2 : pptr) a
  : list (vec3 F) :=
  replicate (hit a v0 + hit a v1 + hit a v2) (wind_of wind g v0 v1 v2).

Definition quad_terms (wind : vec3 F) g (k l : nat) a : list (vec3 F) :=
  triangle_terms wind g (Some (k + 1, l)) (Some (k, l)) (Some (k, l + 1)) a
  ++ triangle_terms wind g (Some (k + 1, l)) (Some (k, l + 1))
       (Some (k + 1, l + 1)) a.

Definition row_len g (k : nat) : nat :=
  match g !! k with
  | Some row => length row
  | None => 0
  end.

(** The wind accelerations added to the particle at [a], quad by quad in
    the order of the loops. *)
Definition wind_terms (wind : vec3 F) g a : list (vec3 F) :=
  concat (map (fun k => concat (map (fun l => quad_terms wind g k l a)
                                    (seq 0 (row_len g k - 1))))
              (seq 0 (length g - 1))).

(** The elastic acceleration of a spring, as the pass computes it. *)
Definition elastic_of g s : vec3 F :=
  match deref g (p0 s), deref g (p1 s) with
  | Ok q0, Ok q1 =>
      let d := vsub (position q0) (position q1) in
      vquo (vmul (unit_vec d)
                  (fmul springConstK (fsub (magnitude d) (restLength s))))
           (mass q0)
  | _, _ => vzero
  end.

(** [gravity / mass] of the particle at [a]. *)
Definition gravity_of g a : vec3 F :=
  match look g a with
  | Some p => vquo gravity (mass p)
  | None => vzero
  end.

(** What a spring adds to the particle at [a]: gravity less the elastic
    acceleration if [a] is its first end, gravity plus the elastic
    acceleration if [a] is its second end. *)
Definition spring_term g s a : list (vec3 F) :=
  replicate (hit a (p0 s)) (vsub (gravity_of g a) (elastic_of g s))
  ++ replicate (hit a (p1 s)) (vadd (gravity_of g a) (elastic_of g s)).

(** The terms that the springs add to the particle at [a], spring by
    spring in the order of the loops. *)
Definition spring_terms g (sps : list (list (Spring F))) a
  : list (vec3 F) :=
  concat (map (fun s => spring_term g s a) (concat sps)).

(** The number of spring ends at [a]. *)
Definition spring_ends (sps : list (list (Spring F))) a : nat :=
  sum_list (map (fun s => hit a (p0 s) + hit a (p1 s)) (concat sps)).

(** The writes of a pass to one acceleration, first to last. *)
Definition rewrites (l : list (vec3 F -> vec3 F)) (acc : vec3 F) : vec3 F :=
  fold_left (fun acc f => f acc) l acc.

(** The particles of [g'] are those of [g] after the writes [w] to their
    accelerations. *)
Definition accrued (w : nat * nat -> list (vec3 F -> vec3 F)) g g' : Prop :=
  map length g' = map length g /\
  forall a, option_Forall2
              (fun p p' => acc_only p p' /\
                           acceleration p' = rewrites (w a) (acceleration p))
              (look g a) (look g' a).

(** Two grids of the same shape whose particles differ in acceleration
    only. *)
Definition framed g g' : Prop :=
  map length g' = map length g /\ grid_rel acc_only g g'.
End ForceTerms.

(** * Scenes: concrete inputs in binary32 *)

Module Scene.
Import Binary32.

(** The cloth, the sphere and the wind of [main], on a smaller mesh. *)
Definition clothPos : vec3 float32 :=
  mkvec3 (flit (-1) 1) (flit 1 1) (flit (-2) 1).
Definition clothColor : vec4 float32 :=
  mkvec4 (flit 212 1000) (flit 969 1000) (flit 627 1000) (flit 1 1).
Definition windForce0 : vec3 float32 :=
  mkvec3 (flit 0 1) (flit (-2) 1) (flit (-15) 10).
Definition sphere0 : Sphere float32 :=
  Sphere_new (mkvec3 (flit (-5) 10) (flit (-5) 10) (flit (-25) 10))
             (flit 1 1) (flit 5 10).
Definition globals0 : Globals float32 := mkGlobals [sphere0] (Some 0).

(** A sphere that overlaps the pinned top left corner of the cloth. *)
Definition sphere_corner : Sphere float32 :=
  Sphere_new (mkvec3 (flit (-12) 10) (flit 1 1) (flit (-2) 1))
             (flit 1 1) (flit 5 10).
Definition globals_corner : Globals float32 :=
  mkGlobals [sphere_corner] (Some 0).

(** [new ClothSheet(...)] then [pushCollidable(sphere)]. *)
Definition cloth (width height : Z) : res (ClothSheet float32) :=
  do cs <- ClothSheet_new clothPos clothColor width height;
  Ok (pushCollidable cs 0).

Definition no_cloth : ClothSheet float32 :=
  mkClothSheet clothPos clothColor [] [] [] [] vzero.

(** The 4 by 4 and the 6 by 6 cloth as the constructor returns them. *)
Definition cloth44_new : ClothSheet float32 :=
  Eval vm_compute in
    match ClothSheet_new clothPos clothColor 4 4 with
    | Ok cs => cs
    | Err _ => no_cloth
    end.

Definition cloth66_new : ClothSheet float32 :=
  Eval vm_compute in
    match ClothSheet_new clothPos clothColor 6 6 with
    | Ok cs => cs
    | Err _ => no_cloth
    end.

(** [new ClothSheet(clothPos, clothColor, 4, 5)]. *)
Definition cloth45_new : ClothSheet float32 :=
  Eval vm_compute in
    match ClothSheet_new clothPos clothColor 4 5 with
    | Ok cs => cs
    | Err _ => no_cloth
    end.

(** 2 / (4 - 1) and 2 / (5 - 1) as the generator computes them. *)
Definition two_thirds : float32 :=
  Eval vm_compute in SFdiv prec emax ftwo (fsub (flit 4 1) fone).
Definition one_half : float32 :=
  Eval vm_compute in SFdiv prec emax ftwo (fsub (flit 5 1) fone).

(** The 4 by 4 cloth with the sphere registered. *)
Definition cloth44 : ClothSheet float32 :=
  Eval vm_compute in
    match cloth 4 4 with Ok cs => cs | Err _ => no_cloth end.

(** Two frames of the program's scene, and the cloth after them. *)
Definition frames2 : list (Globals float32 * vec3 float32 * Z) :=
  [(globals0, windForce0, 17%Z); (globals0, windForce0, 18%Z)].

Definition cloth44_frames2 : ClothSheet float32 :=
  Eval vm_compute in
    match foldM (fun cs frame => move frame.1.1 (applyWindForce cs frame.1.2) frame.2)
                frames2 cloth44
    with Ok cs => cs | Err _ => no_cloth end.

(** One frame with a sphere on the pinned corner, and the cloth after it. *)
Definition cloth44_corner : ClothSheet float32 :=
  Eval vm_compute in
    match move globals_corner (applyWindForce cloth44 windForce0) 17 with
    | Ok cs => cs
    | Err _ => no_cloth
    end.
End Scene.

(** * What the draw functions hand to OpenGL *)

Section Drawn.
Context {F : Type}.
(** The vertices handed to [glVertex3f], in order. *)
Definition drawn_vertices (calls : list (gl_call F)) : list (vec3 F) :=
  omap (fun c => match c with glVertex3f v => Some v | _ => None end) calls.

(** The normals handed to [glNormal3f], in order. *)
Definition drawn_normals (calls : list (gl_call F)) : list (vec3 F) :=
  omap (fun c => match c with glNormal3f n => Some n | _ => None end) calls.
End Drawn.

(** The corners of the two triangles of the quad at ([i], [j]), in the
    order [ClothSheet::draw] hands them to OpenGL. *)
Definition quad_corners (i j : nat) : list (nat * nat) :=
  [(i + 1, j); (i, j); (i, j + 1); (i + 1, j); (i, j + 1); (i + 1, j + 1)].

(** The corners of all triangles of a cloth of [rows] by [cols], row by
    row. *)
Definition cloth_triangles (rows cols : nat) : list (nat * nat) :=
  concat (map (fun i => concat (map (quad_corners i) (seq 0 (cols - 1))))
              (seq 0 (rows - 1))).

(** * The event loop *)

(** What [glutMainLoop] does with the callbacks that [main] registers and
    that touch the globals of the program: the idle callback [driver], with
    the reading of the clock that it takes; the display callback [draw];
    the keyboard callback, with the key. *)
Inductive event : Set :=
  | Idle (currT : Z)
  | Display
  | Keyboard (key : Z).

Section EventLoop.
Context {F : Type} `{GLfloatOps F}.

(** One callback. *)
Definition react (w : World F) (e : event) : res (key_result F) :=
  match e with
  | Idle currT => do r <- driver currT w; Ok (Running r.1 r.2)
  | Display => do calls <- draw w; Ok (Running w calls)
  | Keyboard key => keyboardHandler key w
  end.

(** The callbacks one after the other, until [exit(0)]. *)
Fixpoint run (w : World F) (events : list event) : res (key_result F) :=
  match events with
  | [] => Ok (Running w [])
  | e :: events =>
      do r <- react w e;
      match r with
      | Exited => Ok Exited
      | Running w calls =>
          do r <- run w events;
          Ok (match r with
              | Exited => Exited
              | Running w' more => Running w' (calls ++ more)
              end)
      end
  end.

(** A sphere among the actors is on the heap, and its mesh is made of
    whole pairs of triangles. *)
Definition actor_live (w : World F) (actor : Actor) : Prop :=
  match actor with
  | ActorSphere a =>
      is_Some (heap (w_globals w) !! a) /\
      exists m n, w_meshes w !! a = Some m /\
                  length (sm_vertices m) = 18 * n
  | ActorCloth => True
  end.

(** The globals point where they should: the cloth is one that its
    constructor and methods have made, its colliders and the global
    [sphere] pointer point to spheres, and so do the actors. *)
Definition world_live (w : World F) : Prop :=
  reachable (w_cloth w) /\ colliders_live (w_globals w) (w_cloth w) /\
  Forall (actor_live w) (w_actors w).

(** The callbacks that draw. *)
Definition is_frame (e : event) : Prop :=
  match e with
  | Keyboard _ => False
  | _ => True
  end.
End EventLoop.

(** * The program's scene in binary32 *)

Module ProgramScene.
Import Binary32.

(** 1 / 16, the [delta] of [generateCube(16, vertices)]. *)
Definition sixteenth : float32 :=
  Eval vm_compute in SFdiv prec emax fone (flit 16 1).

Definition sphereScale : vec3 float32 :=
  mkvec3 (flit 5 10) (flit 5 10) (flit 5 10).

(** The first pair of triangles of the cube, and the same mesh cut short
    after its second vertex. *)
Definition quad_mesh : SphereMesh float32 :=
  mkSphereMesh sphereScale Scene.clothColor
               (face_z (flit (-1) 1) fone fone sixteenth).
Definition short_mesh : SphereMesh float32 :=
  mkSphereMesh sphereScale Scene.clothColor
               (take 6 (face_z (flit (-1) 1) fone fone sixteenth)).

(** The globals of the program a second into its run, on the 4 by 4 cloth
    and with the small mesh. *)
Definition world44 : World float32 :=
  mkWorld Scene.globals0 [quad_mesh] [ActorSphere 0; ActorCloth]
          Scene.cloth44 (Wind_new Scene.windForce0) 1000 false.

(** A particle 0.3 from the centre of the sphere of [main], alone on a
    cloth with that sphere as its collider, and the cloth after one pass
    of collision resolution. *)
Definition inside0 : vec3 float32 :=
  mkvec3 (flit (-4) 10) (flit (-3) 10) (flit (-23) 10).
Definition speck0 : Particle float32 :=
  mkParticle inside0 inside0 vzero Scene.clothColor PARTICLE_MASS_KG false.

(** The 4 by 4 cloth in the wind of [main], the cloth after one pass of
    force accumulation, and the particle of row 1 and column 1, which is
    an end of twelve springs. *)
Definition cloth44_blown : ClothSheet float32 :=
  applyWindForce Scene.cloth44 Scene.windForce0.
Definition cloth44_forces : ClothSheet float32 :=
  Eval vm_compute in
    match accumulateForces cloth44_blown with
    | Ok cs => cs
    | Err _ => Scene.no_cloth
    end.
Definition particle11 : Particle float32 :=
  Eval vm_compute in
    match look (particles cloth44_blown) (1, 1) with
    | Some p => p
    | None => speck0
    end.

(** The same cloth with no wind, as the constructor leaves it, after one
    pass and after two. *)
Definition cloth44_calm : ClothSheet float32 :=
  Eval vm_compute in
    match accumulateForces Scene.cloth44 with
    | Ok cs => cs
    | Err _ => Scene.no_cloth
    end.
Definition particle11_calm : Particle float32 :=
  Eval vm_compute in
    match look (particles cloth44_calm) (1, 1) with
    | Some p => p
    | None => speck0
    end.
Definition cloth44_calm2 : ClothSheet float32 :=
  Eval vm_compute in
    match accumulateForces cloth44_calm with
    | Ok cs => cs
    | Err _ => Scene.no_cloth
    end.
End ProgramScene.

(** * Numbers of the binary32 format *)

(** Mantissa and exponent are in the range of the format. *)
Definition is_binary32 (a : Binary32.float32) : Prop :=
  valid_binary Binary32.prec Binary32.emax a = true.

(** * Relaxation in binary32 *)

Module Rest32.
Import Binary32.

(** A coordinate is where it was; at most a negative zero has become the
    positive one (the two compare equal). *)
Definition settles (a b : float32) : Prop :=
  b = a \/ (a = S754_zero true /\ b = S754_zero false).

(** Only the position differs, and that by the sign of a zero at most. *)
Definition settled (p p' : Particle float32) : Prop :=
  settles (x (position p)) (x (position p')) /\
  settles (y (position p)) (y (position p')) /\
  settles (z (position p)) (z (position p')) /\
  prevPosition p' = prevPosition p /\ acceleration p' = acceleration p /\
  color p' = color p /\ mass p' = mass p /\ pinned p' = pinned p.

(** The ends of the spring exist, their distance as [magnitude] computes
    it is exactly the rest length, and that is a positive finite number. *)
Definition at_rest32 (g : grid float32) (s : Spring float32) : Prop :=
  exists q0 q1,
    deref g (p0 s) = Ok q0 /\ deref g (p1 s) = Ok q1 /\
    magnitude (vsub (position q0) (position q1)) = restLength s /\
    exists m e, restLength s = S754_finite false m e.

(** No coordinate of a position is the negative zero. *)
Definition positive_zeros (g : grid float32) : Prop :=
  forall a p, look g a = Some p ->
    x (position p) <> S754_zero true /\ y (position p) <> S754_zero true /\
    z (position p) <> S754_zero true.

#[global] Instance spec_float_eq_dec : EqDecision spec_float.
Proof. solve_decision. Defined.

(** The same as [at_rest32], decided. *)
Definition at_rest32b (g : grid float32) (s : Spring float32) : bool :=
  match deref g (p0 s), deref g (p1 s), restLength s with
  | Ok q0, Ok q1, S754_finite false _ _ =>
      bool_decide (magnitude (vsub (position q0) (position q1)) = restLength s)
  | _, _, _ => false
  end.

Definition positive_zerosb (g : grid float32) : bool :=
  forallb (forallb (fun p =>
    negb (bool_decide (x (position p) = S754_zero true)) &&
    negb (bool_decide (y (position p) = S754_zero true)) &&
    negb (bool_decide (z (position p) = S754_zero true)))) g.

(** Zero or finite; a zero; equal up to the sign of a zero. *)
Definition finite (a : float32) : Prop :=
  match a with
  | S754_zero _ | S754_finite _ _ _ => True
  | _ => False
  end.
Definition is_zero (a : float32) : Prop :=
  match a with
  | S754_zero _ => True
  | _ => False
  end.
Definition alike (a b : float32) : Prop := a = b \/ (is_zero a /\ is_zero b).

(** [new ClothSheet(clothPos, clothColor, 5, 5)]: its spacings are 1/2. *)
Definition cloth55_new : ClothSheet float32 :=
  Eval vm_compute in
    match ClothSheet_new Scene.clothPos Scene.clothColor 5 5 with
    | Ok cs => cs
    | Err _ => Scene.no_cloth
    end.
End Rest32.

(** * Reasoning about the error monad and the arena *)

Arguments store : simpl never.

Lemma rbind_Ok {A B} (c : res A) (k : A -> res B) (b : B) :
  rbind c k = Ok b -> exists a, c = Ok a /\ k a = Ok b.
Proof. destruct c; simpl; [eauto | discriminate]. Qed.

Lemma of_option_Ok {A} (e : error) (o : option A) (a : A) :
  of_option e o = Ok a -> o = Some a.
Proof. destruct o; simpl; congruence. Qed.

(** Inversion of a successful run, one bind at a time. *)
Ltac inv_res :=
  repeat match goal with
  | H : Ok _ = Ok _ |- _ => injection H as H; try subst
  | H : Err _ = Ok _ |- _ => discriminate H
  | H : rbind _ _ = Ok _ |- _ =>
      let a := fresh "r" in
      let E := fresh "E" in
      apply rbind_Ok in H; destruct H as (a & E & H)
  | H : of_option _ _ = Ok _ |- _ => apply of_option_Ok in H
  end.

(** The same, one bind and with chosen names. *)
Tactic Notation "inv_bind" hyp(H) "as" ident(x) ident(Hx) :=
  apply rbind_Ok in H; destruct H as (x & Hx & H).

Lemma foldM_app {A B} (f : B -> A -> res B) (l1 l2 : list A) (b : B) :
  foldM f (l1 ++ l2) b = do b' <- foldM f l1 b; foldM f l2 b'.
Proof.
  revert b; induction l1 as [|a l1 IH]; intros b; simpl; [done|].
  destruct (f b a); simpl; auto.
Qed.

(** A counting loop: the invariant of turn [c] carries to turn [c + 1]. *)
Lemma foldM_seq_invariant {B} (I : nat -> B -> Prop) (f : B -> nat -> res B)
    (start count : nat) (b b' : B) :
  (forall c x y, start <= c < start + count -> I c x -> f x c = Ok y ->
     I (S c) y) ->
  I start b -> foldM f (seq start count) b = Ok b' -> I (start + count) b'.
Proof.
  revert start b; induction count as [|count IH]; intros start b Hf Hb Hrun;
    simpl in Hrun.
  - inv_res. by rewrite Nat.add_0_r.
  - inv_bind Hrun as b1 Hb1. rewrite <- Nat.add_succ_comm.
    eapply IH; [|by eapply (Hf start); [lia|exact Hb|]|exact Hrun].
    intros c x y Hc. apply Hf. lia.
Qed.

Lemma div_up_cover (size step : nat) :
  0 < step -> size <= (size + step - 1) / step * step.
Proof.
  intros Hstep. pose proof (Nat.div_mod_eq (size + step - 1) step).
  pose proof (Nat.mod_upper_bound (size + step - 1) step). nia.
Qed.

(** A loop invariant that every turn preserves holds at the exit. *)
Lemma foldM_invariant {A B} (I : B -> Prop) (f : B -> A -> res B)
    (l : list A) (b b' : B) :
  (forall x a y, a ∈ l -> I x -> f x a = Ok y -> I y) ->
  I b -> foldM f l b = Ok b' -> I b'.
Proof.
  revert b; induction l as [|a l IH]; intros b Hf Hb Hrun; simpl in Hrun.
  - by inv_res.
  - inv_res. eapply IH; [| |exact Hrun].
    + intros x a' y Hin. apply Hf. by right.
    + eapply Hf; [by left|exact Hb|done].
Qed.

Lemma iterM_invariant {A} (I : A -> Prop) (f : A -> res A) (n : nat)
    (a a' : A) :
  (forall x y, I x -> f x = Ok y -> I y) ->
  I a -> iterM n f a = Ok a' -> I a'.
Proof.
  intros Hf; revert a; induction n as [|n IH]; intros a Ha Hrun;
    simpl in Hrun; inv_res; eauto.
Qed.

Lemma mapM_lookup {A B} (f : A -> res B) (l : list A) (l' : list B) :
  mapM f l = Ok l' ->
  length l' = length l /\
  forall i a, l !! i = Some a -> exists b, f a = Ok b /\ l' !! i = Some b.
Proof.
  revert l'; induction l as [|a l IH]; intros l' Hrun; simpl in Hrun; inv_res.
  - split; [done|]. intros i a Hi. by rewrite lookup_nil in Hi.
  - destruct (IH _ E0) as [Hlen Hl]. split; [simpl; by rewrite Hlen|].
    intros [|i] a' Hi; simpl in *.
    + inversion Hi; subst. eauto.
    + eauto.
Qed.

Lemma deref_Ok {F} (g : grid F) (ptr : pptr) (p : Particle F) :
  deref g ptr = Ok p -> exists a, ptr = Some a /\ look g a = Some p.
Proof.
  destruct ptr as [a|]; simpl; [|discriminate].
  intros Hd; inv_res; eauto.
Qed.

Lemma mapM_total {A B} (f : A -> res B) (l : list A) :
  (forall a, a ∈ l -> exists b, f a = Ok b) -> exists l', mapM f l = Ok l'.
Proof.
  induction l as [|a l IH]; intros Hf; simpl; [eauto|].
  destruct (Hf a) as [b ->]; [by left|].
  destruct IH as [l' ->]; [intros ? ?; apply Hf; by right|]. simpl. eauto.
Qed.

Lemma mapM_id {A} (f : A -> res A) (l : list A) :
  (forall a, a ∈ l -> f a = Ok a) -> mapM f l = Ok l.
Proof.
  induction l as [|a l IH]; intros Hf; simpl; [done|].
  rewrite Hf by (by left). simpl.
  rewrite IH by (intros ? ?; apply Hf; by right). done.
Qed.

(** A successful dereference names the address it read. *)
Ltac inv_deref :=
  repeat match goal with
  | E : deref _ ?ptr = Ok _ |- _ =>
      let a := fresh "a" in
      let Hp := fresh "Hp" in
      let Ha := fresh "Ha" in
      apply deref_Ok in E as (a & Hp & Ha);
      first [subst ptr | rewrite Hp in * ]
  end.

Lemma size_sub_small (a b : Z) :
  (0 <= b <= a)%Z -> (a < 2 ^ 64)%Z -> size_sub a b = (a - b)%Z.
Proof. intros Hb Ha. unfold size_sub. apply Z.mod_small. lia. Qed.

Lemma size_sub_wrap (a b : Z) :
  (0 <= a < b)%Z -> (b <= 2 ^ 64)%Z -> size_sub a b = (2 ^ 64 + a - b)%Z.
Proof.
  intros Ha Hb. unfold size_sub.
  replace (a - b)%Z with ((2 ^ 64 + a - b) + (-1) * 2 ^ 64)%Z by ring.
  rewrite Z.mod_add by lia. apply Z.mod_small. lia.
Qed.

Section ArenaFacts.
Context {F : Type} `{GLfloatOps F}.
Implicit Types (g : grid F) (a b : nat * nat) (p q : Particle F).

Lemma look_store g a b p q :
  look g a = Some p ->
  look (store g (Some a) q) b = if decide (b = a) then Some q else look g b.
Proof.
  destruct a as [i j], b as [i' j']; unfold look, store; simpl.
  intros Ha. destruct (g !! i) as [row|] eqn:Hrow; [|done].
  destruct (decide (i' = i)) as [->|Hi].
  - rewrite list_lookup_alter_eq, Hrow; simpl.
    destruct (decide (j' = j)) as [->|Hj].
    + rewrite decide_True by done.
      apply list_lookup_insert_eq. by eapply lookup_lt_Some.
    + rewrite decide_False by congruence.
      by apply list_lookup_insert_ne.
  - rewrite decide_False by congruence.
    by rewrite list_lookup_alter_ne.
Qed.

Lemma look_store_eq g a p q :
  look g a = Some p -> look (store g (Some a) q) a = Some q.
Proof. intros Ha. rewrite (look_store _ _ _ _ _ Ha). by rewrite decide_True. Qed.

Lemma look_store_ne g a b p q :
  look g a = Some p -> b <> a -> look (store g (Some a) q) b = look g b.
Proof. intros Ha Hb. rewrite (look_store _ _ _ _ _ Ha). by rewrite decide_False. Qed.

Lemma addr_Ok g i j ptr :
  addr g i j = Ok ptr -> ptr = Some (i, j) /\ is_Some (look g (i, j)).
Proof.
  unfold addr, at_, look; simpl. intros Hrun; inv_res.
  split; [done|]. rewrite E. eauto.
Qed.

Lemma look_map (f : Particle F -> Particle F) g a :
  look (map (map f) g) a = f <$> look g a.
Proof.
  unfold look. rewrite list_lookup_fmap.
  destruct (g !! a.1) as [row|]; simpl; [|done].
  by rewrite list_lookup_fmap.
Qed.

Lemma look_mapM (f : Particle F -> res (Particle F)) g g' a :
  mapM (mapM f) g = Ok g' ->
  match look g a with
  | Some p => exists p', f p = Ok p' /\ look g' a = Some p'
  | None => look g' a = None
  end.
Proof.
  intros Hrun. apply mapM_lookup in Hrun as [Hlen Hrows]. unfold look.
  destruct (g !! a.1) as [row|] eqn:Hrow.
  - destruct (Hrows _ _ Hrow) as (row' & Hrun' & ->).
    apply mapM_lookup in Hrun' as [Hlen' Hcols].
    destruct (row !! a.2) as [p|] eqn:Hp; [eauto|].
    apply lookup_ge_None. apply lookup_ge_None in Hp. lia.
  - destruct (g' !! a.1) eqn:Hrow'; [|done].
    apply lookup_lt_Some in Hrow'. apply lookup_ge_None in Hrow. lia.
Qed.
Lemma store_same g a p : look g a = Some p -> store g (Some a) p = g.
Proof.
  unfold look, store. intros Ha.
  destruct (g !! a.1) as [row|] eqn:Hrow; [|done].
  apply list_eq. intros i. destruct (decide (i = a.1)) as [->|Hi].
  - rewrite list_lookup_alter_eq, Hrow. simpl. f_equal.
    by apply list_insert_id.
  - by rewrite list_lookup_alter_ne.
Qed.

Lemma look_elem_of g row p :
  row ∈ g -> p ∈ row -> exists a, look g a = Some p.
Proof.
  intros [i Hi]%list_elem_of_lookup [j Hj]%list_elem_of_lookup.
  exists (i, j). unfold look. simpl. by rewrite Hi.
Qed.


Lemma grid_mapM_id (f : Particle F -> res (Particle F)) g :
  (forall a p, look g a = Some p -> f p = Ok p) -> mapM (mapM f) g = Ok g.
Proof.
  intros Hf. apply mapM_id. intros row Hrow.
  apply mapM_id. intros p Hp.
  destruct (look_elem_of _ _ _ Hrow Hp) as [a Ha]. eauto.
Qed.
End ArenaFacts.


(** * What a stage may change in a particle *)

Section Preservation.
Context {F : Type} `{GLfloatOps F}.
Implicit Types (g : grid F) (a b : nat * nat) (p q : Particle F).
Implicit Types (R : Particle F -> Particle F -> Prop).

Lemma grid_rel_refl R g : (forall p, R p p) -> grid_rel R g g.
Proof. intros HR a. destruct (look g a); constructor; auto. Qed.

Lemma grid_rel_trans R g1 g2 g3 :
  (forall p q r, R p q -> R q r -> R p r) ->
  grid_rel R g1 g2 -> grid_rel R g2 g3 -> grid_rel R g1 g3.
Proof.
  intros HR H12 H23 a. specialize (H12 a). specialize (H23 a).
  destruct H12; inversion H23; subst; constructor; eauto.
Qed.

Lemma grid_rel_impl R R' g g' :
  (forall p q, R p q -> R' p q) -> grid_rel R g g' -> grid_rel R' g g'.
Proof. intros HR Hg a. destruct (Hg a); constructor; auto. Qed.

Lemma grid_rel_look R g g' a p :
  grid_rel R g g' -> look g a = Some p ->
  exists p', look g' a = Some p' /\ R p p'.
Proof. intros Hg Ha. specialize (Hg a). rewrite Ha in Hg. inversion Hg; eauto. Qed.

Lemma grid_rel_look_r R g g' a p' :
  grid_rel R g g' -> look g' a = Some p' ->
  exists p, look g a = Some p /\ R p p'.
Proof. intros Hg Ha. specialize (Hg a). rewrite Ha in Hg. inversion Hg; eauto. Qed.

Lemma grid_rel_store R g a p q :
  (forall p, R p p) -> look g a = Some p -> R p q ->
  grid_rel R g (store g (Some a) q).
Proof.
  intros HR Ha Hpq b. rewrite (look_store _ _ _ _ _ Ha).
  destruct (decide (b = a)) as [->|].
  - rewrite Ha. by constructor.
  - destruct (look g b); constructor; auto.
Qed.

Lemma grid_rel_foldM {A} R (f : grid F -> A -> res (grid F)) (l : list A) g g' :
  (forall p, R p p) -> (forall p q r, R p q -> R q r -> R p r) ->
  (forall x s y, s ∈ l -> f x s = Ok y -> grid_rel R x y) ->
  foldM f l g = Ok g' -> grid_rel R g g'.
Proof.
  intros Hrefl Htrans Hf Hrun.
  eapply (foldM_invariant (fun x => grid_rel R g x)); [|by apply grid_rel_refl|exact Hrun].
  intros x s y Hs Hx Hstep. eapply grid_rel_trans; eauto.
Qed.

Lemma grid_rel_iterM R (f : grid F -> res (grid F)) (n : nat) g g' :
  (forall p, R p p) -> (forall p q r, R p q -> R q r -> R p r) ->
  (forall x y, f x = Ok y -> grid_rel R x y) ->
  iterM n f g = Ok g' -> grid_rel R g g'.
Proof.
  intros Hrefl Htrans Hf Hrun.
  eapply (iterM_invariant (fun x => grid_rel R g x)); [|by apply grid_rel_refl|exact Hrun].
  intros x y Hx Hstep. eapply grid_rel_trans; eauto.
Qed.

Lemma acc_only_refl p : acc_only p p.
Proof. by repeat split. Qed.

Lemma acc_only_trans p q r : acc_only p q -> acc_only q r -> acc_only p r.
Proof. unfold acc_only. intuition congruence. Qed.

Lemma pin_stable_refl p : pin_stable p p.
Proof. by split. Qed.

Lemma pin_stable_trans p q r : pin_stable p q -> pin_stable q r -> pin_stable p r.
Proof.
  unfold pin_stable. intros [H1 H2] [H3 H4]. split; [congruence|].
  intros Hp. rewrite H4, H2; congruence.
Qed.

Lemma acc_only_pin_stable p q : acc_only p q -> pin_stable p q.
Proof. unfold acc_only, pin_stable. intuition. Qed.

Lemma acc_only_set_acceleration p v : acc_only p (set_acceleration p v).
Proof. by repeat split. Qed.

#[local] Hint Resolve acc_only_refl acc_only_trans pin_stable_refl
  pin_stable_trans acc_only_set_acceleration : core.

(** *** accumulateForces only writes accelerations *)

Lemma add_acceleration_acc_only g v w g' :
  add_acceleration g v w = Ok g' -> grid_rel acc_only g g'.
Proof.
  unfold add_acceleration. intros Hrun; inv_res. inv_deref.
  eapply grid_rel_store; eauto.
Qed.

Lemma wind_triangle_acc_only wind g v0 v1 v2 g' :
  wind_triangle wind g v0 v1 v2 = Ok g' -> grid_rel acc_only g g'.
Proof.
  unfold wind_triangle. intros Hrun; inv_res.
  repeat match goal with
  | E : add_acceleration _ _ _ = Ok _ |- _ =>
      apply add_acceleration_acc_only in E
  end.
  repeat first [eassumption | eapply grid_rel_trans; [by eauto|eassumption|]].
Qed.

Lemma wind_quad_acc_only wind k g l g' :
  wind_quad wind k g l = Ok g' -> grid_rel acc_only g g'.
Proof.
  unfold wind_quad. intros Hrun; inv_res.
  repeat match goal with
  | E : wind_triangle _ _ _ _ _ = Ok _ |- _ => apply wind_triangle_acc_only in E
  end.
  eapply grid_rel_trans; eauto.
Qed.

Lemma wind_pass_acc_only wind g g' :
  wind_pass wind g = Ok g' -> grid_rel acc_only g g'.
Proof.
  unfold wind_pass. destruct (length g =? 0); [discriminate|].
  apply grid_rel_foldM; [exact acc_only_refl|exact acc_only_trans|].
  intros x k y _ Hrun; inv_res.
  case_match; [discriminate|].
  revert Hrun.
  apply grid_rel_foldM; [exact acc_only_refl|exact acc_only_trans|].
  intros ? ? ? _. apply wind_quad_acc_only.
Qed.

Lemma spring_force_acc_only g s g' :
  spring_force g s = Ok g' -> grid_rel acc_only g g'.
Proof.
  unfold spring_force. intros Hrun; inv_res. inv_deref. simplify_eq.
  eapply grid_rel_trans; [exact acc_only_trans| |];
    eapply grid_rel_store; eauto.
Qed.

Lemma spring_pass_acc_only sps g g' :
  spring_pass sps g = Ok g' -> grid_rel acc_only g g'.
Proof.
  apply grid_rel_foldM; [exact acc_only_refl|exact acc_only_trans|].
  intros x row y _.
  apply grid_rel_foldM; [exact acc_only_refl|exact acc_only_trans|].
  intros ? ? ? _. apply spring_force_acc_only.
Qed.

Lemma accumulateForces_acc_only (cs cs' : ClothSheet F) :
  accumulateForces cs = Ok cs' ->
  grid_rel acc_only (particles cs) (particles cs') /\
  springs cs' = springs cs /\
  potentialColliders cs' = potentialColliders cs /\
  pinnedParticles cs' = pinnedParticles cs /\
  vWindForce cs' = vWindForce cs.
Proof.
  unfold accumulateForces. intros Hrun; inv_res. simpl.
  split; [|done].
  eapply grid_rel_trans; [exact acc_only_trans| |];
    eauto using wind_pass_acc_only, spring_pass_acc_only.
Qed.

(** *** satisfyConstraints and the integrator skip pinned particles *)

Lemma relax_spring_pin_stable g s g' :
  relax_spring g s = Ok g' -> grid_rel pin_stable g g'.
Proof.
  unfold relax_spring. intros Hrun; inv_res. inv_deref. simplify_eq.
  assert (forall (x : Particle F) v,
            pinned x = false -> pin_stable x (set_position x v))
    as Hset by (intros x v Hx; split; [done|congruence]).
  destruct (pinned r) eqn:Hpin0; destruct (pinned r2) eqn:Hpin1.
  - by apply grid_rel_refl.
  - eapply grid_rel_store; eauto.
  - eapply grid_rel_store; eauto.
  - eapply grid_rel_trans; [exact pin_stable_trans| |];
      eapply grid_rel_store; eauto.
Qed.

Lemma relax_pass_pin_stable sps g g' :
  relax_pass sps g = Ok g' -> grid_rel pin_stable g g'.
Proof.
  apply grid_rel_foldM; [exact pin_stable_refl|exact pin_stable_trans|].
  intros x row y _.
  apply grid_rel_foldM; [exact pin_stable_refl|exact pin_stable_trans|].
  intros ? ? ? _. apply relax_spring_pin_stable.
Qed.

Lemma relax_pin_stable n (cs cs' : ClothSheet F) :
  relax n cs = Ok cs' ->
  grid_rel pin_stable (particles cs) (particles cs') /\
  springs cs' = springs cs /\
  potentialColliders cs' = potentialColliders cs /\
  pinnedParticles cs' = pinnedParticles cs /\
  vWindForce cs' = vWindForce cs.
Proof.
  unfold relax. intros Hrun; inv_res. simpl. split; [|done].
  revert E.
  apply grid_rel_iterM; [exact pin_stable_refl|exact pin_stable_trans|].
  intros ? ?. apply relax_pass_pin_stable.
Qed.

Lemma integrate_particle_pin_stable p : pin_stable p (integrate_particle p).
Proof.
  unfold integrate_particle. destruct (pinned p) eqn:Hpin; [done|].
  split; [done|]. congruence.
Qed.

Lemma integrate_pin_stable (cs : ClothSheet F) :
  grid_rel pin_stable (particles cs) (particles (integrate cs)).
Proof.
  intros a. simpl. rewrite look_map.
  destruct (look (particles cs) a); constructor.
  apply integrate_particle_pin_stable.
Qed.

(** *** handleCollision writes positions only, pinned or not *)

Lemma pos_only_refl p : pos_only p p.
Proof. by repeat split. Qed.

Lemma pos_only_trans p q r : pos_only p q -> pos_only q r -> pos_only p r.
Proof. unfold pos_only. intuition congruence. Qed.

Lemma collide_particle_pos_only gl c p p' :
  collide_particle gl c p = Ok p' -> pos_only p p'.
Proof.
  unfold collide_particle. intros Hrun; inv_res.
  case_match; inv_res; by repeat split.
Qed.


Lemma collide_with_pos_only gl g c g' :
  collide_with gl g c = Ok g' -> grid_rel pos_only g g'.
Proof.
  unfold collide_with. intros Hrun a.
  pose proof (look_mapM _ _ _ a Hrun) as Ha.
  destruct (look g a) as [p|].
  - destruct Ha as (p' & Hp & ->). constructor.
    by eapply collide_particle_pos_only.
  - rewrite Ha. constructor.
Qed.

Lemma handleCollision_pos_only gl (cs cs' : ClothSheet F) :
  handleCollision gl cs = Ok cs' ->
  grid_rel pos_only (particles cs) (particles cs') /\
  springs cs' = springs cs /\
  potentialColliders cs' = potentialColliders cs /\
  pinnedParticles cs' = pinnedParticles cs /\
  vWindForce cs' = vWindForce cs.
Proof.
  unfold handleCollision. intros Hrun; inv_res. simpl. split; [|done].
  revert E.
  apply grid_rel_foldM; [exact pos_only_refl|exact pos_only_trans|].
  intros ? ? ? _. apply collide_with_pos_only.
Qed.

(** A particle that no registered collider contains keeps its position
    through the whole pass. *)
Lemma handleCollision_outside gl (cs cs' : ClothSheet F) a p :
  handleCollision gl cs = Ok cs' ->
  look (particles cs) a = Some p ->
  (forall c s, c ∈ potentialColliders cs -> heap gl !! c = Some s ->
               contains s (position p) = false) ->
  look (particles cs') a = Some p.
Proof.
  unfold handleCollision. intros Hrun Ha Hout; inv_res. simpl.
  revert E Ha.
  generalize (particles cs) as g.
  induction (potentialColliders cs) as [|c cl IH]; intros g Hrun Ha;
    simpl in Hrun; inv_res; [done|].
  assert (look r0 a = Some p) as Ha'.
  { pose proof (look_mapM _ _ _ a E) as Hl. rewrite Ha in Hl.
    destruct Hl as (p' & Hp & ->). f_equal.
    unfold collide_particle in Hp.
    destruct (heap gl !! c) as [s|] eqn:Hc; simpl in Hp; [|discriminate].
    rewrite (Hout c s) in Hp; [by inv_res|by left|done]. }
  eapply IH; [|exact Hrun|exact Ha']. intros c' s' Hin. apply Hout. by right.
Qed.
End Preservation.

Section StepFacts.
Context {F : Type} `{GLfloatOps F}.
Implicit Types (cs : ClothSheet F) (a : nat * nat) (p : Particle F).

Lemma pos_only_keeps_pin p q : pos_only p q -> pinned q = pinned p.
Proof. unfold pos_only. intuition. Qed.

(** The three stages before collision resolution never move a pinned
    particle, and [move] changes nothing but the particles. *)
Lemma move_stages cs gl deltaT cs' :
  move gl cs deltaT = Ok cs' ->
  exists cs2,
    grid_rel pin_stable (particles cs) (particles (integrate cs2)) /\
    handleCollision gl (integrate cs2) = Ok cs' /\
    potentialColliders (integrate cs2) = potentialColliders cs /\
    pinnedParticles (integrate cs2) = pinnedParticles cs.
Proof.
  unfold move. intros Hrun; inv_res.
  apply accumulateForces_acc_only in E as (Hg1 & _ & Hc1 & Hq1 & _).
  apply relax_pin_stable in E0 as (Hg2 & _ & Hc2 & Hq2 & _).
  exists r0. split; [|split; [done|split; simpl; congruence]].
  eapply grid_rel_trans; [exact pin_stable_trans| |apply integrate_pin_stable].
  eapply grid_rel_trans; [exact pin_stable_trans| |exact Hg2].
  eapply grid_rel_impl; [exact acc_only_pin_stable|exact Hg1].
Qed.

Lemma move_keeps_pins cs gl deltaT cs' :
  move gl cs deltaT = Ok cs' ->
  grid_rel (fun p q => pinned q = pinned p) (particles cs) (particles cs') /\
  potentialColliders cs' = potentialColliders cs /\
  pinnedParticles cs' = pinnedParticles cs.
Proof.
  intros Hrun. apply move_stages in Hrun as (cs2 & Hg & Hcol & Hc & Hq).
  apply handleCollision_pos_only in Hcol as (Hg' & _ & Hc' & Hq' & _).
  split; [|split; congruence].
  eapply grid_rel_trans; [intros ? ? ?; congruence| |].
  - eapply grid_rel_impl; [|exact Hg]. by intros ? ? [? _].
  - eapply grid_rel_impl; [|exact Hg']. apply pos_only_keeps_pin.
Qed.

(** One frame leaves a pinned particle where it is, if no registered
    collider contains it. *)
Lemma tick_pinned cs frame cs' a p :
  tick cs frame = Ok cs' ->
  look (particles cs) a = Some p -> pinned p = true ->
  (forall c s, c ∈ potentialColliders cs -> heap frame.1.1 !! c = Some s ->
               contains s (position p) = false) ->
  exists p', look (particles cs') a = Some p' /\ pinned p' = true /\
             position p' = position p /\
             potentialColliders cs' = potentialColliders cs.
Proof.
  unfold tick. intros Hrun Ha Hpin Hout.
  pose proof (move_keeps_pins _ _ _ _ Hrun) as (_ & Hcs & _).
  apply move_stages in Hrun as (cs2 & Hg & Hcol & Hc & _).
  simpl in Ha, Hg, Hc, Hcs.
  destruct (grid_rel_look _ _ _ _ _ Hg Ha) as (p2 & Ha2 & Hpin2 & Hpos2).
  exists p2. repeat split; [|congruence|auto|done].
  eapply handleCollision_outside; [exact Hcol|exact Ha2|].
  intros c s Hin. simpl in Hin. rewrite Hc in Hin. rewrite Hpos2 by done.
  by apply Hout.
Qed.
End StepFacts.

(** * The constructor *)

Section ConstructorFacts.
Context {F : Type} `{GLfloatOps F}.
Implicit Types (cs : ClothSheet F) (a : nat * nat) (p : Particle F).
Implicit Types (g : grid F).

Lemma particle_row_length xS i j n v :
  length (particle_row xS i j n v) = n.
Proof. revert j v; induction n as [|n IH]; intros j v; simpl; auto. Qed.

Lemma particle_row_unpinned xS i j n v :
  Forall (fun p => pinned p = false) (particle_row xS i j n v).
Proof.
  revert j v; induction n as [|n IH]; intros j v; simpl; constructor; auto.
Qed.

Lemma particle_rows_length xS yS pos i n cols v :
  length (particle_rows xS yS pos i n cols v) = n.
Proof. revert i v; induction n as [|n IH]; intros i v; simpl; auto. Qed.

Lemma particle_rows_rows xS yS pos i n cols v :
  Forall (fun row => length row = cols /\
                     Forall (fun p => pinned p = false) row)
         (particle_rows xS yS pos i n cols v).
Proof.
  revert i v; induction n as [|n IH]; intros i v; simpl; constructor; auto.
  split; [apply particle_row_length|apply particle_row_unpinned].
Qed.

Lemma shaped_look g rows cols a :
  shaped g rows cols -> (is_Some (look g a) <-> a.1 < rows /\ a.2 < cols).
Proof.
  intros [Hrows Hcols]. unfold look.
  destruct (g !! a.1) as [row|] eqn:Hrow.
  - pose proof (lookup_lt_Some _ _ _ Hrow).
    rewrite Forall_lookup in Hcols. specialize (Hcols _ _ Hrow).
    rewrite lookup_lt_is_Some. lia.
  - apply lookup_ge_None in Hrow. split; [by intros [? ?]|lia].
Qed.

Lemma particle_rows_shaped xS yS pos n cols v :
  shaped (particle_rows xS yS pos 0 n cols v) n cols.
Proof.
  split; [apply particle_rows_length|].
  eapply Forall_impl; [apply particle_rows_rows|]. by intros ? [? _].
Qed.

Lemma particle_rows_unpinned xS yS pos n cols v a p :
  look (particle_rows xS yS pos 0 n cols v) a = Some p -> pinned p = false.
Proof.
  unfold look. intros Ha.
  destruct (particle_rows xS yS pos 0 n cols v !! a.1) as [row|] eqn:Hrow;
    [|done].
  pose proof (particle_rows_rows xS yS pos 0 n cols v) as Hall.
  rewrite Forall_lookup in Hall. destruct (Hall _ _ Hrow) as [_ Hrowall].
  rewrite Forall_lookup in Hrowall. eauto.
Qed.

Lemma particle_row_position xS i j n v t p :
  particle_row xS i j n v !! t = Some p ->
  position p = mkvec3 (Nat.iter t (fun u => fadd u xS) (x v)) (y v) (z v) /\
  prevPosition p = position p.
Proof.
  revert j v t; induction n as [|n IH]; intros j v t Ht; simpl in Ht;
    [by rewrite lookup_nil in Ht|].
  destruct t as [|t]; simpl in Ht.
  - injection Ht as <-. by destruct v.
  - apply IH in Ht as [-> ->]. split; [|done]. cbn [x y z].
    by rewrite Nat.iter_succ_r.
Qed.

Lemma particle_rows_position xS yS pos i n cols v a p :
  look (particle_rows xS yS pos i n cols v) a = Some p ->
  position p = mkvec3 (Nat.iter a.2 (fun u => fadd u xS) (x pos))
                      (Nat.iter a.1 (fun u => fsub u yS) (y v)) (z v) /\
  prevPosition p = position p.
Proof.
  destruct a as [r c]. unfold look. cbn [fst snd].
  revert i v r; induction n as [|n IH]; intros i v r Ha; simpl in Ha;
    [done|].
  destruct r as [|r]; simpl in Ha.
  - by apply particle_row_position in Ha.
  - specialize (IH _ _ r Ha). cbn [x y z] in IH.
    by rewrite Nat.iter_succ_r.
Qed.

(** The particles of a fresh grid stand on the lattice. *)
Lemma particle_rows_lattice xS yS pos n cols a p :
  look (particle_rows xS yS pos 0 n cols pos) a = Some p ->
  position p = lattice pos xS yS a.
Proof. intros Ha. by apply particle_rows_position in Ha as [-> _]. Qed.

(** What a successful [generateParticleSheet] returns. *)
Lemma generateParticleSheet_Ok pos height width g sps :
  generateParticleSheet pos height width = Ok (g, sps) ->
  (1 <= height)%Z /\ (0 <= width)%Z /\
  exists xS yS,
    fdivide ftwo (fsub (flit height 1) fone) = Ok xS /\
    fdivide ftwo (fsub (flit width 1) fone) = Ok yS /\
    g = particle_rows xS yS pos 0 (Z.to_nat height) (Z.to_nat width) pos /\
    mapM (spring_row g xS yS width (Z.to_nat (height - 1)))
         (seq 0 (Z.to_nat (height - 1))) = Ok sps.
Proof.
  unfold generateParticleSheet. intros Hrun; inv_res.
  destruct (height <? 0)%Z eqn:Hh; [discriminate|].
  destruct (width <? 0)%Z eqn:Hw; [discriminate|]. simpl in Hrun.
  destruct (height - 1 <? 0)%Z eqn:Hh1; [discriminate|]. inv_res.
  repeat split; [lia|lia|]. eauto 10.
Qed.

(** [store] keeps the shape. *)
Lemma store_shaped g rows cols ptr p :
  shaped g rows cols -> shaped (store g ptr p) rows cols.
Proof.
  intros [Hrows Hcols]. destruct ptr as [a|]; [|done]. unfold store. split.
  - by rewrite length_alter.
  - apply Forall_alter; [done|]. intros row _ Hrow.
    rewrite length_insert. rewrite Forall_lookup in Hcols. eauto.
Qed.

Lemma pin_Ok cs j cs' l rows cols :
  pin cs j = Ok cs' -> pins_are cs l -> shaped (particles cs) rows cols ->
  (0 <= j < Z.of_nat cols)%Z /\
  pins_are cs' (l ++ [(0, Z.to_nat j)]) /\
  shaped (particles cs') rows cols /\
  springs cs' = springs cs /\ potentialColliders cs' = potentialColliders cs /\
  vWindForce cs' = vWindForce cs.
Proof.
  unfold pin, at_. intros Hrun (Hq & Hvalid & Hpins) Hshape.
  destruct (j <? 0)%Z eqn:Hj; [discriminate|]. inv_res. simpl.
  assert (look (particles cs) (0, Z.to_nat j) = Some r0) as Hlook
    by (unfold look; simpl; by rewrite E).
  assert (Z.to_nat j < cols) as Hlt.
  { apply (shaped_look _ _ _ (0, Z.to_nat j)) in Hshape.
    apply Hshape. eauto. }
  split; [lia|].
  split; [|split; [by apply store_shaped|done]].
  split; [done|]. split; simpl.
  - intros a Ha. rewrite (look_store _ _ _ _ _ Hlook).
    destruct (decide (a = (0, Z.to_nat j))); [eauto|].
    apply Hvalid. apply elem_of_app in Ha as [Ha|Ha]; [done|].
    by apply list_elem_of_singleton in Ha.
  - intros a p. rewrite (look_store _ _ _ _ _ Hlook).
    destruct (decide (a = (0, Z.to_nat j))) as [->|Hne]; intros Ha.
    + inversion Ha; subst. simpl. split; [|done].
      intros _. apply elem_of_app. right. by apply list_elem_of_singleton.
    + rewrite (Hpins _ _ Ha). rewrite elem_of_app, list_elem_of_singleton.
      intuition.
Qed.

(** The constructor pins the particles of row 0 at columns 0, 1, 2 and
    [rows - 1], [rows - 2], [rows - 3], where [rows] is the number of rows of
    the grid: the [width] it was given. *)
Lemma ClothSheet_new_Ok pos col width height cs :
  ClothSheet_new pos col width height = Ok cs ->
  is_int width -> is_int height ->
  let rows := Z.to_nat width in
  (3 <= width <= height)%Z /\
  shaped (particles cs) rows (Z.to_nat height) /\
  pins_are cs [(0, 0); (0, 1); (0, 2);
               (0, rows - 1); (0, rows - 2); (0, rows - 3)] /\
  potentialColliders cs = [] /\
  exists g, generateParticleSheet pos width height = Ok (g, springs cs).
Proof.
  intros Hrun Hw Hh rows. unfold ClothSheet_new in Hrun. inv_res.
  destruct r as [g sps].
  pose proof E as Hgen.
  apply generateParticleSheet_Ok in E
    as (Hw1 & Hh0 & xS & yS & _ & _ & Hg & _).
  simpl in *.
  set (cs0 := mkClothSheet pos col g sps [] [] vzero) in *.
  assert (shaped (particles cs0) rows (Z.to_nat height)) as Hs0
    by (simpl; rewrite Hg; apply particle_rows_shaped).
  assert (pins_are cs0 []) as Hp0.
  { split; [done|]. split; [by intros a Ha%elem_of_nil|].
    intros a p Ha. simpl in Ha. rewrite Hg in Ha.
    apply particle_rows_unpinned in Ha. rewrite Ha, elem_of_nil.
    split; [discriminate|done]. }
  assert (length g = rows) as Hlen by (rewrite Hg; apply particle_rows_length).
  rewrite Hlen in *.
  destruct (pin_Ok _ _ _ _ _ _ E0 Hp0 Hs0) as (_ & Hp1 & Hs1 & Hsp1 & Hc1 & _).
  destruct (pin_Ok _ _ _ _ _ _ E1 Hp1 Hs1) as (_ & Hp2 & Hs2 & Hsp2 & Hc2 & _).
  destruct (pin_Ok _ _ _ _ _ _ E2 Hp2 Hs2) as (_ & Hp3 & Hs3 & Hsp3 & Hc3 & _).
  destruct (pin_Ok _ _ _ _ _ _ E3 Hp3 Hs3) as (Hj4 & Hp4 & Hs4 & Hsp4 & Hc4 & _).
  destruct (pin_Ok _ _ _ _ _ _ E4 Hp4 Hs4) as (Hj5 & Hp5 & Hs5 & Hsp5 & Hc5 & _).
  destruct (pin_Ok _ _ _ _ _ _ Hrun Hp5 Hs5) as (Hj6 & Hp6 & Hs6 & Hsp6 & Hc6 & _).
  assert (2 ^ 31 < 2 ^ 64)%Z as Hpow by done.
  unfold is_int in Hw, Hh.
  assert (3 <= width <= height)%Z as Hdims.
  { subst rows. destruct (decide (3 <= width)%Z) as [Hge|Hlt].
    - rewrite size_sub_small in Hj4 by lia. lia.
    - exfalso. rewrite size_sub_wrap in Hj6 by lia. lia. }
  split; [done|]. split; [done|]. split.
  - rewrite !size_sub_small in Hp6 by lia.
    replace (Z.to_nat (Z.of_nat rows - 1)) with (rows - 1) in Hp6 by lia.
    replace (Z.to_nat (Z.of_nat rows - 2)) with (rows - 2) in Hp6 by lia.
    replace (Z.to_nat (Z.of_nat rows - 3)) with (rows - 3) in Hp6 by lia.
    exact Hp6.
  - assert (potentialColliders cs0 = [] /\ springs cs0 = sps) as [Hc0 Hsp0]
      by done.
    split; [congruence|]. exists g.
    assert (springs cs = sps) as -> by congruence. done.
Qed.

Lemma pin_only_refl p : pin_only p p.
Proof. by repeat split. Qed.

Lemma pin_only_trans p q r : pin_only p q -> pin_only q r -> pin_only p r.
Proof. unfold pin_only. intuition congruence. Qed.

Lemma pin_pin_only cs j cs' :
  pin cs j = Ok cs' -> grid_rel pin_only (particles cs) (particles cs').
Proof.
  unfold pin, at_. intros Hrun.
  destruct (j <? 0)%Z; [discriminate|].
  inv_bind Hrun as row Hrow. inv_bind Hrun as p Hp. inv_res.
  cbn [particles]. eapply grid_rel_store; [exact pin_only_refl| |].
  - unfold look. cbn [fst snd]. rewrite Hrow. exact Hp.
  - by repeat split.
Qed.

(** The grid of a new cloth is the generated grid, pins apart. *)
Lemma ClothSheet_new_grid pos col width height cs :
  ClothSheet_new pos col width height = Ok cs ->
  exists g, generateParticleSheet pos width height = Ok (g, springs cs) /\
            grid_rel pin_only g (particles cs) /\
            potentialColliders cs = [] /\ vWindForce cs = vzero.
Proof.
  unfold ClothSheet_new. intros Hrun.
  inv_bind Hrun as gs Hgen. destruct gs as [g sps]. cbn [fst snd] in Hrun.
  inv_bind Hrun as cs1 H1. inv_bind Hrun as cs2 H2.
  inv_bind Hrun as cs3 H3. inv_bind Hrun as cs4 H4.
  inv_bind Hrun as cs5 H5.
  assert (forall (c : ClothSheet F) j (c' : ClothSheet F), pin c j = Ok c' ->
            springs c' = springs c /\
            potentialColliders c' = potentialColliders c /\
            vWindForce c' = vWindForce c) as Hkeep.
  { intros c j c'. unfold pin. destruct (j <? 0)%Z; [discriminate|].
    intros Hpin. inv_bind Hpin as row Hrow. inv_bind Hpin as p Hp.
    by inv_res. }
  destruct (Hkeep _ _ _ H1) as (Hs1 & Hc1 & Hw1).
  destruct (Hkeep _ _ _ H2) as (Hs2 & Hc2 & Hw2).
  destruct (Hkeep _ _ _ H3) as (Hs3 & Hc3 & Hw3).
  destruct (Hkeep _ _ _ H4) as (Hs4 & Hc4 & Hw4).
  destruct (Hkeep _ _ _ H5) as (Hs5 & Hc5 & Hw5).
  destruct (Hkeep _ _ _ Hrun) as (Hs6 & Hc6 & Hw6).
  cbn [springs potentialColliders vWindForce] in Hs1, Hc1, Hw1.
  exists g. split; [|split; [|split; congruence]].
  - assert (springs cs = sps) as -> by congruence. done.
  - apply pin_pin_only in H1, H2, H3, H4, H5, Hrun. cbn [particles] in H1.
    repeat (eapply grid_rel_trans; [exact pin_only_trans|eassumption|]).
    by apply grid_rel_refl.
Qed.
End ConstructorFacts.

(** * The spring matrix *)

Section SpringFacts.
Context {F : Type} `{GLfloatOps F}.
Implicit Types (g : grid F) (sp : list (Spring F)) (s : Spring F).

Lemma set_at_slot_ok (P : Spring F -> Prop) sp i s sp' :
  set_at sp i s = Ok sp' -> P s ->
  length sp' = length sp /\ slot_ok P sp' i /\
  forall j, slot_ok P sp j -> slot_ok P sp' j.
Proof.
  unfold set_at. intros Hrun Hs.
  destruct (decide (i < length sp)) as [Hi|]; [|discriminate]. inv_res.
  split; [apply length_insert|]. split.
  - intros x. rewrite list_lookup_insert_eq by done. congruence.
  - intros j Hj x. rewrite list_lookup_insert_Some.
    intros [(_ & <- & _)|[_ Hx]]; auto.
Qed.

(** One turn of the inner loop writes generated springs into the slots
    [l .. l + 5], into [l + 6] and [l + 7] under their guards, and keeps
    what the other slots hold. *)
Lemma spring_group_slots g xS yS nsprings k row sp col l sp' :
  let P := generated_spring g xS yS in
  spring_group g xS yS nsprings k row sp col l = Ok sp' ->
  length sp' = length sp /\
  (forall j, slot_ok P sp j -> slot_ok P sp' j) /\
  (forall j, l <= j < l + 6 -> slot_ok P sp' j) /\
  ((Z.of_nat k <? size_sub (Z.of_nat nsprings) 3)%Z = true ->
     slot_ok P sp' (l + 6)) /\
  ((Z.of_nat (l + 7) <? size_sub (Z.of_nat (length sp)) 3)%Z = true ->
     slot_ok P sp' (l + 7)).
Proof.
  intros P. unfold spring_group. intros Hrun.
  inv_bind Hrun as a00 Ha00. inv_bind Hrun as a10 Ha10.
  inv_bind Hrun as sp0 Hsp0. inv_bind Hrun as a01 Ha01.
  inv_bind Hrun as sp1 Hsp1. inv_bind Hrun as a11 Ha11.
  inv_bind Hrun as sp2 Hsp2. inv_bind Hrun as sp3 Hsp3.
  inv_bind Hrun as sp4 Hsp4. inv_bind Hrun as sp5 Hsp5.
  inv_bind Hrun as sp6 Hsp6.
  apply addr_Ok in Ha00 as [-> ?]. apply addr_Ok in Ha10 as [-> ?].
  apply addr_Ok in Ha01 as [-> ?]. apply addr_Ok in Ha11 as [-> ?].
  apply (set_at_slot_ok P) in Hsp0 as (Hl0 & Hs0 & Hk0); [|by constructor].
  apply (set_at_slot_ok P) in Hsp1 as (Hl1 & Hs1 & Hk1); [|by constructor].
  apply (set_at_slot_ok P) in Hsp2 as (Hl2 & Hs2 & Hk2); [|by constructor].
  apply (set_at_slot_ok P) in Hsp3 as (Hl3 & Hs3 & Hk3); [|by constructor].
  apply (set_at_slot_ok P) in Hsp4 as (Hl4 & Hs4 & Hk4); [|by constructor].
  apply (set_at_slot_ok P) in Hsp5 as (Hl5 & Hs5 & Hk5); [|by constructor].
  assert (length sp6 = length sp5 /\
          (forall j, slot_ok P sp5 j -> slot_ok P sp6 j) /\
          ((Z.of_nat k <? size_sub (Z.of_nat nsprings) 3)%Z = true ->
             slot_ok P sp6 (l + 6))) as (Hl6 & Hk6 & Hs6).
  { destruct (Z.of_nat k <? size_sub (Z.of_nat nsprings) 3)%Z.
    - inv_bind Hsp6 as a20 Ha20. apply addr_Ok in Ha20 as [-> ?].
      apply (set_at_slot_ok P) in Hsp6 as (? & ? & ?); [auto|by constructor].
    - inv_res. split; [done|]. split; [auto|discriminate]. }
  assert (length sp' = length sp6 /\
          (forall j, slot_ok P sp6 j -> slot_ok P sp' j) /\
          ((Z.of_nat (l + 7) <? size_sub (Z.of_nat (length sp6)) 3)%Z = true ->
             slot_ok P sp' (l + 7))) as (Hl7 & Hk7 & Hs7).
  { destruct (Z.of_nat (l + 7) <? size_sub (Z.of_nat (length sp6)) 3)%Z.
    - inv_bind Hrun as a02 Ha02. apply addr_Ok in Ha02 as [-> ?].
      apply (set_at_slot_ok P) in Hrun as (? & ? & ?); [auto|by constructor].
    - inv_res. split; [done|]. split; [auto|discriminate]. }
  assert (length sp6 = length sp) as Hlen by congruence.
  rewrite Hlen in Hs7.
  split; [congruence|]. split; [auto 10|]. split; [|auto].
  intros j Hj.
  assert (j = l \/ j = l + 1 \/ j = l + 2 \/ j = l + 3 \/ j = l + 4
          \/ j = l + 5) as Hcases by lia.
  decompose [or] Hcases; subst j; auto 10.
Qed.

(** Every slot of a row of the spring matrix is written, and with a
    generated spring. *)
Lemma spring_row_generated g xS yS (width : Z) nsprings k sp :
  (width <= 2 ^ 31 - 1)%Z ->
  spring_row g xS yS width nsprings k = Ok sp ->
  Forall (generated_spring g xS yS) sp.
Proof.
  intros Hw. unfold spring_row.
  set (P := generated_spring g xS yS).
  assert (2 ^ 31 < 2 ^ 64)%Z as Hpow by done.
  destruct (Z.of_nat k <? size_sub (Z.of_nat nsprings) 3)%Z eqn:Hbend.
  - (* rows with bend springs: groups of eight *)
    destruct ((width - 1) * 8 - 1 <? 0)%Z eqn:Hsize; [discriminate|].
    apply Z.ltb_ge in Hsize.
    set (size := Z.to_nat ((width - 1) * 8 - 1)).
    intros Hrun.
    apply (foldM_seq_invariant
             (fun c sp => length sp = size /\
                          forall j, j < c * 8 -> slot_ok P sp j)) in Hrun.
    + destruct Hrun as [Hlen Hslots]. apply Forall_lookup. intros j s Hj.
      apply (Hslots j); [|done]. apply lookup_lt_Some in Hj.
      pose proof (div_up_cover size 8). simpl in *. lia.
    + intros c sp0 sp1 _ [Hlen Hslots] Hstep.
      apply spring_group_slots in Hstep as (Hlen' & Hkeep & Hsix & Hsev & Height).
      fold P in Hkeep, Hsix, Hsev, Height.
      split; [congruence|]. intros j Hj.
      destruct (decide (j < c * 8)); [by auto|].
      destruct (decide (j < c * 8 + 6)); [apply Hsix; lia|].
      destruct (decide (j = c * 8 + 6)) as [->|]; [by auto|].
      assert (j = c * 8 + 7) as -> by lia.
      destruct (Z.of_nat (c * 8 + 7) <? size_sub (Z.of_nat (length sp0)) 3)%Z
        eqn:Hcond; [by auto|].
      intros s Hs. apply lookup_lt_Some in Hs. exfalso.
      apply Z.ltb_ge in Hcond. rewrite size_sub_small in Hcond by lia. lia.
    + split; [apply length_replicate|]. intros j Hj. lia.
  - (* the last rows: groups of six *)
    destruct ((width - 1) * 6 <? 0)%Z eqn:Hsize; [discriminate|].
    set (size := Z.to_nat ((width - 1) * 6)).
    intros Hrun.
    apply (foldM_seq_invariant
             (fun c sp => length sp = size /\
                          forall j, j < c * 6 -> slot_ok P sp j)) in Hrun.
    + destruct Hrun as [Hlen Hslots]. apply Forall_lookup. intros j s Hj.
      apply (Hslots j); [|done]. apply lookup_lt_Some in Hj.
      pose proof (div_up_cover size 6). simpl in *. lia.
    + intros c sp0 sp1 _ [Hlen Hslots] Hstep.
      apply spring_group_slots in Hstep as (Hlen' & Hkeep & Hsix & _).
      fold P in Hkeep, Hsix.
      split; [congruence|]. intros j Hj.
      destruct (decide (j < c * 6)); [by auto|]. apply Hsix. lia.
    + split; [apply length_replicate|]. intros j Hj. lia.
Qed.

(** So is every spring of the matrix that [generateParticleSheet] returns. *)
Lemma generateParticleSheet_springs pos height width g sps :
  (width <= 2 ^ 31 - 1)%Z ->
  generateParticleSheet pos height width = Ok (g, sps) ->
  exists xS yS,
    fdivide ftwo (fsub (flit height 1) fone) = Ok xS /\
    fdivide ftwo (fsub (flit width 1) fone) = Ok yS /\
    Forall (Forall (generated_spring g xS yS)) sps.
Proof.
  intros Hw Hgen.
  apply generateParticleSheet_Ok in Hgen
    as (_ & _ & xS & yS & HxS & HyS & _ & Hsps).
  exists xS, yS. split; [done|]. split; [done|].
  apply mapM_lookup in Hsps as [Hlen Hrows].
  apply Forall_lookup. intros i row Hrow.
  assert (i < length sps) as Hi by by eapply lookup_lt_Some.
  destruct (lookup_lt_is_Some_2 (seq 0 (Z.to_nat (height - 1))) i) as [k Hk];
    [lia|].
  destruct (Hrows _ _ Hk) as (row' & Hrun & Hrow').
  assert (row' = row) as -> by congruence.
  by eapply spring_row_generated.
Qed.

Lemma generated_valid g xS yS s :
  generated_spring g xS yS s ->
  exists a b, p0 s = Some a /\ p1 s = Some b /\
              is_Some (look g a) /\ is_Some (look g b).
Proof. intros []; eauto 10. Qed.

(** The mesh of a new cloth: a grid on the lattice, of as many rows as the
    [width] and as many columns as the [height] it was given, the cloth's
    particles being those of the grid with pins, and its springs generated
    springs of the grid. *)
Lemma ClothSheet_new_mesh pos col width height cs :
  ClothSheet_new pos col width height = Ok cs ->
  is_int width -> is_int height ->
  (3 <= width <= height)%Z /\
  exists g xS yS,
    fdivide ftwo (fsub (flit width 1) fone) = Ok xS /\
    fdivide ftwo (fsub (flit height 1) fone) = Ok yS /\
    shaped g (Z.to_nat width) (Z.to_nat height) /\
    (forall a p, look g a = Some p -> position p = lattice pos xS yS a) /\
    grid_rel pin_only g (particles cs) /\
    Forall (Forall (generated_spring g xS yS)) (springs cs).
Proof.
  intros Hnew Hw Hh.
  destruct (ClothSheet_new_Ok _ _ _ _ _ Hnew Hw Hh) as (Hdims & _).
  split; [done|].
  destruct (ClothSheet_new_grid _ _ _ _ _ Hnew) as (g & Hgen & Hrel & _).
  destruct (generateParticleSheet_springs _ _ _ _ _ (proj2 Hh) Hgen)
    as (xS & yS & HxS & HyS & Hsprings).
  apply generateParticleSheet_Ok in Hgen
    as (_ & _ & xS' & yS' & HxS' & HyS' & Hg & _).
  assert (xS' = xS) as -> by congruence.
  assert (yS' = yS) as -> by congruence.
  exists g, xS, yS. split; [done|]. split; [done|].
  split; [rewrite Hg; apply particle_rows_shaped|].
  split; [|done]. intros a p Ha. rewrite Hg in Ha.
  by eapply particle_rows_lattice.
Qed.
End SpringFacts.

(** * detach and the queue of pinned particles *)

Section DetachFacts.
Context {F : Type} `{GLfloatOps F}.
Implicit Types (cs : ClothSheet F) (a : nat * nat) (p : Particle F).

(** The loop of [detach] runs to its end on a queue that points into the
    grid; a particle still pinned after it was pinned before and is not in
    the queue. *)
Lemma unpin_all (l : list (nat * nat)) (g : grid F) :
  (forall a, a ∈ l -> is_Some (look g a)) ->
  exists g', foldM unpin l g = Ok g' /\
    forall a p', look g' a = Some p' ->
      exists p, look g a = Some p /\
                (pinned p' = true -> pinned p = true /\ a ∉ l).
Proof.
  revert g; induction l as [|a0 l IH]; intros g Hvalid; simpl.
  - exists g. split; [done|]. intros a p' Ha. exists p'. split; [done|].
    intros Hp. split; [done|]. by intros ?%elem_of_nil.
  - destruct (Hvalid a0) as [q Hq]; [by left|].
    unfold unpin at 1. simpl. rewrite Hq. simpl.
    destruct (IH (store g (Some a0) (set_pinned q false))) as (g' & Hrun & Hg').
    { intros a Ha. rewrite (look_store _ _ _ _ _ Hq).
      destruct (decide (a = a0)); [eauto|]. apply Hvalid. by right. }
    exists g'. split; [done|]. intros a p' Ha.
    destruct (Hg' _ _ Ha) as (p1 & Hp1 & Hpin).
    rewrite (look_store _ _ _ _ _ Hq) in Hp1.
    destruct (decide (a = a0)) as [->|Hne].
    + inversion Hp1; subst. exists q. split; [done|].
      intros Hp. destruct (Hpin Hp) as [Hfalse _]. discriminate Hfalse.
    + exists p1. split; [done|]. intros Hp. destruct (Hpin Hp) as [? ?].
      split; [done|]. rewrite elem_of_cons. intuition.
Qed.

Lemma detach_queue_ok cs :
  queue_ok cs ->
  exists cs', detach cs = Ok cs' /\ no_pin cs' /\ pinnedParticles cs' = [] /\
              detach cs' = Ok cs'.
Proof.
  intros [Hin Hvalid].
  destruct (unpin_all _ _ Hvalid) as (g' & Hrun & Hg').
  unfold detach. rewrite Hrun. simpl. eexists. split; [done|].
  split; [|done]. intros a p' Ha. simpl in Ha.
  destruct (Hg' _ _ Ha) as (p & Hp & Hpin).
  destruct (pinned p') eqn:Hp'; [|done].
  destruct Hpin as [Hpinned Hnotin]; [done|]. exfalso. eauto.
Qed.

Lemma no_pin_queue_ok cs :
  no_pin cs -> pinnedParticles cs = [] -> queue_ok cs.
Proof.
  intros Hno Hq. split.
  - intros a p Ha Hp. rewrite (Hno _ _ Ha) in Hp. discriminate.
  - rewrite Hq. by intros a ?%elem_of_nil.
Qed.

(** Stages that keep pins and queue keep [queue_ok]. *)
Lemma queue_ok_keeps cs cs' :
  queue_ok cs ->
  grid_rel (fun p q => pinned q = pinned p) (particles cs) (particles cs') ->
  pinnedParticles cs' = pinnedParticles cs -> queue_ok cs'.
Proof.
  intros [Hin Hvalid] Hg Hq. split; rewrite Hq.
  - intros a p' Ha Hp'.
    destruct (grid_rel_look_r _ _ _ _ _ Hg Ha) as (p & Hp & Heq).
    eapply Hin; [exact Hp|congruence].
  - intros a Ha. destruct (Hvalid a Ha) as [p Hp].
    destruct (grid_rel_look _ _ _ _ _ Hg Hp) as (p' & Hp' & _). eauto.
Qed.

Lemma reachable_queue_ok cs : reachable cs -> queue_ok cs.
Proof.
  induction 1 as [pos col w h cs Hw Hh Hnew|cs c _ IH|cs w _ IH
                 |cs gl dT cs' _ IH Hrun|cs gl cs' _ IH Hrun
                 |cs cs' _ IH Hrun].
  - destruct (ClothSheet_new_Ok _ _ _ _ _ Hnew Hw Hh)
      as (_ & _ & (Hq & Hvalid & Hpins) & _).
    split; rewrite Hq.
    + intros a p Ha Hp. by apply (Hpins _ _ Ha).
    + exact Hvalid.
  - exact IH.
  - exact IH.
  - apply move_keeps_pins in Hrun as (Hg & _ & Hq).
    by eapply queue_ok_keeps.
  - apply handleCollision_pos_only in Hrun as (Hg & _ & _ & Hq & _).
    eapply queue_ok_keeps; [exact IH| |exact Hq].
    eapply grid_rel_impl; [|exact Hg]. apply pos_only_keeps_pin.
  - destruct (detach_queue_ok _ IH) as (cs2 & Hrun2 & Hno & Hq & _).
    assert (cs2 = cs') as <- by congruence. by apply no_pin_queue_ok.
Qed.
End DetachFacts.

(** * Exact arithmetic *)

Section ExactFacts.
Implicit Types (u v : vec3 R).
Open Scope R_scope.

Lemma flit_R (n : Z) (d : positive) : flit n d = IZR n / IZR (Zpos d).
Proof. reflexivity. Qed.


Lemma fdivide_zero (a : R) : fdivide a 0 = Err DivByZero.
Proof.
  unfold fdivide. simpl. unfold Exact.div. by destruct (Req_dec_T 0 0).
Qed.

Lemma vec3_eq u v : x u = x v -> y u = y v -> z u = z v -> u = v.
Proof. destruct u, v; simpl; congruence. Qed.


Lemma vdiv_zero v : vdiv v 0 = Err DivByZero.
Proof. unfold vdiv. by rewrite fdivide_zero. Qed.

Lemma magnitude_R v : magnitude v = sqrt (x v * x v + y v * y v + z v * z v).
Proof. reflexivity. Qed.

Lemma sum_squares_nonneg (a b c : R) : 0 <= a * a + b * b + c * c.
Proof. nra. Qed.


Lemma fzero_R : (fzero : R) = 0.
Proof. unfold fzero. rewrite flit_R. field. Qed.

Lemma magnitude_zero_iff v : magnitude v = 0 <-> v = vzero.
Proof.
  rewrite magnitude_R. split.
  - intros Hm. apply sqrt_eq_0 in Hm; [|apply sum_squares_nonneg].
    apply vec3_eq; cbn [x y z vzero]; rewrite fzero_R; nra.
  - intros ->. cbn [x y z vzero]. rewrite fzero_R.
    replace (0 * 0 + 0 * 0 + 0 * 0) with 0 by ring.
    apply sqrt_0.
Qed.

(** Scaling a vector scales its length. *)
Lemma magnitude_vmul v (k : R) : magnitude (vmul v k) = Rabs k * magnitude v.
Proof.
  rewrite !magnitude_R. simpl.
  replace (x v * k * (x v * k) + y v * k * (y v * k) + z v * k * (z v * k))
    with (k * k * (x v * x v + y v * y v + z v * z v)) by ring.
  rewrite sqrt_mult; [|nra|apply sum_squares_nonneg].
  f_equal. apply (sqrt_Rsqr_abs k).
Qed.
End ExactFacts.

(** * Degenerate divisions in exact arithmetic *)

Section DegenerateFacts.
Implicit Types (g : grid R) (s : Spring R) (cs : ClothSheet R).
Open Scope R_scope.

Lemma vsub_self (v : vec3 R) : vsub v v = vzero.
Proof. apply vec3_eq; cbn [x y z vzero]; rewrite fzero_R; simpl; ring. Qed.

Lemma magnitude_vsub_self (v : vec3 R) : magnitude (vsub v v) = 0.
Proof. rewrite vsub_self. by apply magnitude_zero_iff. Qed.

Lemma relax_spring_degenerate g s q0 q1 :
  deref g (p0 s) = Ok q0 -> deref g (p1 s) = Ok q1 ->
  position q0 = position q1 -> relax_spring g s = Err DivByZero.
Proof.
  intros H0 H1 Hpos. unfold relax_spring. rewrite H0, H1. cbn [rbind].
  rewrite Hpos, magnitude_vsub_self. by rewrite fdivide_zero.
Qed.

Lemma spring_force_degenerate g s q0 q1 :
  deref g (p0 s) = Ok q0 -> deref g (p1 s) = Ok q1 ->
  position q0 = position q1 -> spring_force g s = Err DivByZero.
Proof.
  intros H0 H1 Hpos. unfold spring_force. rewrite H0, H1. cbn [rbind].
  rewrite Hpos, magnitude_vsub_self. by rewrite vdiv_zero.
Qed.

Lemma accumulateForces_zero_wind cs :
  vWindForce cs = vzero -> accumulateForces cs = Err DivByZero.
Proof.
  intros Hw. unfold accumulateForces, normalize. rewrite Hw.
  assert (magnitude (vzero : vec3 R) = 0) as -> by by apply magnitude_zero_iff.
  by rewrite vdiv_zero.
Qed.

(** A successful spring pass met no spring of length zero. *)
Lemma spring_pass_lengths (sps : list (list (Spring R))) g g' row s q0 q1 :
  spring_pass sps g = Ok g' -> row ∈ sps -> s ∈ row ->
  deref g (p0 s) = Ok q0 -> deref g (p1 s) = Ok q1 ->
  position q0 <> position q1.
Proof.
  unfold spring_pass. intros Hrun Hrow Hs H0 H1 Hpos.
  apply list_elem_of_split in Hrow as (rows1 & rows2 & ->).
  rewrite foldM_app in Hrun. inv_res. simpl in Hrun. inv_res.
  apply list_elem_of_split in Hs as (l1 & l2 & ->).
  rewrite foldM_app in E0. inv_res. simpl in E0. inv_res.
  assert (grid_rel acc_only g r1) as Hrel.
  { eapply grid_rel_trans;
      [exact acc_only_trans|exact (spring_pass_acc_only rows1 _ _ E)|].
    revert E1.
    apply grid_rel_foldM; [exact acc_only_refl|exact acc_only_trans|].
    intros ? ? ? _. apply spring_force_acc_only. }
  apply deref_Ok in H0 as (a0 & Hptr0 & Ha0).
  apply deref_Ok in H1 as (a1 & Hptr1 & Ha1).
  destruct (grid_rel_look _ _ _ _ _ Hrel Ha0) as (q0' & Hq0' & Hp0 & _).
  destruct (grid_rel_look _ _ _ _ _ Hrel Ha1) as (q1' & Hq1' & Hp1 & _).
  rewrite (spring_force_degenerate r1 s q0' q1') in E2; [discriminate| | |].
  - rewrite Hptr0. simpl. by rewrite Hq0'.
  - rewrite Hptr1. simpl. by rewrite Hq1'.
  - congruence.
Qed.
End DegenerateFacts.

(** * Collisions in exact arithmetic *)

Section CollisionFacts.
Implicit Types (s : Sphere R) (p : Particle R) (v : vec3 R) (cs : ClothSheet R).
Open Scope R_scope.


Lemma contains_false s v :
  contains s v = false <->
  sph_radius s <= magnitude (vsub v (sph_position s)).
Proof.
  unfold contains. simpl. unfold Exact.ltb.
  destruct (Rlt_dec _ _); split; try done; try lra.
Qed.













End CollisionFacts.


(** * Collisions in any arithmetic *)

Section CollisionSteps.
Context {F : Type} `{GLfloatOps F}.
Implicit Types (cs : ClothSheet F) (a : nat * nat) (p : Particle F).


End CollisionSteps.


(** C10.  No division is guarded.  A spring whose ends coincide makes the
    relaxation of that spring and its force computation divide by a zero
    length; [satisfyConstraints] fails so on a cloth whose first spring is
    such a spring, [accumulateForces] on a cloth that has one anywhere; and
    [accumulateForces] normalizes the wind first, dividing by zero on a zero
    wind. *)
Theorem undefined_divisions_reachable :
  (forall (g : grid R) (s : Spring R) q0 q1,
     deref g (p0 s) = Ok q0 -> deref g (p1 s) = Ok q1 ->
     position q0 = position q1 ->
     relax_spring g s = Err DivByZero /\ spring_force g s = Err DivByZero) /\
  (forall (cs : ClothSheet R) s row rows q0 q1,
     springs cs = (s :: row) :: rows ->
     deref (particles cs) (p0 s) = Ok q0 ->
     deref (particles cs) (p1 s) = Ok q1 ->
     position q0 = position q1 ->
     satisfyConstraints cs = Err DivByZero) /\
  (forall (cs : ClothSheet R) row s q0 q1,
     row ∈ springs cs -> s ∈ row ->
     deref (particles cs) (p0 s) = Ok q0 ->
     deref (particles cs) (p1 s) = Ok q1 ->
     position q0 = position q1 ->
     forall cs', accumulateForces cs <> Ok cs') /\
  (forall cs : ClothSheet R,
     vWindForce cs = vzero -> accumulateForces cs = Err DivByZero).
Proof.
  split; [|split; [|split]].
  - intros g s q0 q1 H0 H1 Hpos.
    split; [by eapply relax_spring_degenerate|by eapply spring_force_degenerate].
  - intros cs s row rows q0 q1 Hsp H0 H1 Hpos.
    unfold satisfyConstraints, relax, CONSTRAINT_ITERATIONS. rewrite Hsp.
    cbn [iterM relax_pass foldM].
    by rewrite (relax_spring_degenerate _ _ _ _ H0 H1 Hpos).
  - intros cs row s q0 q1 Hrow Hs H0 H1 Hpos cs' Hrun.
    unfold accumulateForces in Hrun. inv_res.
    pose proof (wind_pass_acc_only _ _ _ E0) as Hrel.
    apply deref_Ok in H0 as (a0 & Hptr0 & Ha0).
    apply deref_Ok in H1 as (a1 & Hptr1 & Ha1).
    destruct (grid_rel_look _ _ _ _ _ Hrel Ha0) as (q0' & Hq0' & Hp0 & _).
    destruct (grid_rel_look _ _ _ _ _ Hrel Ha1) as (q1' & Hq1' & Hp1 & _).
    eapply (spring_pass_lengths _ _ _ row s q0' q1' E1 Hrow Hs).
    + rewrite Hptr0. simpl. by rewrite Hq0'.
    + rewrite Hptr1. simpl. by rewrite Hq1'.
    + congruence.
  - apply accumulateForces_zero_wind.
Qed.

(** * The wind generator *)

Section WindFacts.
Context {F : Type} `{GLfloatOps F}.
Implicit Types (w : Wind F).

Lemma wrap_long_small (n : Z) : is_long n -> wrap_long n = n.
Proof.
  unfold is_long, wrap_long. intros Hn. rewrite Z.mod_small by lia. lia.
Qed.

Lemma generateWindForce_spec w (deltaT : Z) :
  let r := generateWindForce w deltaT in
  enabled r.1 = enabled w /\
  (enabled w = false -> r.2 = vzero) /\
  (enabled w = true -> r.2 = windForce r.1) /\
  (is_long (timeBlowing w + deltaT) ->
   (timeBlowing w + deltaT <= 1200)%Z ->
     timeBlowing r.1 = (timeBlowing w + deltaT)%Z /\
     windForce r.1 = windForce w) /\
  (is_long (timeBlowing w + deltaT) ->
   (1200 < timeBlowing w + deltaT)%Z ->
     timeBlowing r.1 = 0%Z /\
     windForce r.1 = vmul (windForce w) (flit (-1) 1)).
Proof.
  unfold generateWindForce.
  destruct (Z.ltb_spec 1200 (wrap_long (timeBlowing w + deltaT)))
    as [Hlt|Hle]; cbn [fst snd enabled timeBlowing windForce].
  - split; [done|]. split; [by intros ->|]. split; [by intros ->|].
    split; [|done]. intros Hl. rewrite (wrap_long_small _ Hl) in Hlt. lia.
  - split; [done|]. split; [by intros ->|]. split; [by intros ->|].
    split; intros Hl; rewrite (wrap_long_small _ Hl) in *; [done|lia].
Qed.

(** The phase after a call depends on the phase before it, not on the
    flag. *)
Lemma wind_step_phase w1 w2 (c : wind_call) :
  phase w1 = phase w2 ->
  phase (wind_step w1 c) =
    if is_generate c then phase (wind_step w2 c) else phase w2.
Proof.
  unfold phase. intros Heq. injection Heq as Ht Hf.
  destruct c as [deltaT|]; simpl; [|congruence].
  rewrite Ht, Hf. by destruct (1200 <? wrap_long (timeBlowing w2 + deltaT))%Z.
Qed.

Lemma wind_run_phase (calls : list wind_call) w1 w2 :
  phase w1 = phase w2 ->
  phase (wind_run calls w1) =
    phase (wind_run (List.filter is_generate calls) w2).
Proof.
  unfold wind_run. revert w1 w2.
  induction calls as [|c calls IH]; intros w1 w2 Heq; simpl; [done|].
  pose proof (wind_step_phase _ _ c Heq) as Hstep.
  destruct (is_generate c); simpl; by apply IH.
Qed.

(** While the accumulated time stays within 1200 the vector is kept. *)
Lemma wind_run_within (deltas : list Z) w :
  (- 2 ^ 63 <= timeBlowing w)%Z ->
  Forall (fun d => 0 <= d)%Z deltas ->
  (timeBlowing w + sumZ deltas <= 1200)%Z ->
  timeBlowing (wind_run (map Generate deltas) w)
    = (timeBlowing w + sumZ deltas)%Z /\
  windForce (wind_run (map Generate deltas) w) = windForce w.
Proof.
  unfold wind_run. revert w.
  induction deltas as [|d deltas IH]; intros w Hlow Hpos Hsum;
    cbn [map fold_left wind_step].
  - change (sumZ []) with 0%Z. split; [lia|done].
  - inversion Hpos as [|? ? Hd Hrest]; subst.
    change (sumZ (d :: deltas)) with (d + sumZ deltas)%Z in *.
    assert (0 <= sumZ deltas)%Z as Hnn.
    { clear -Hrest. induction Hrest as [|e l He _ IHl]; [done|].
      change (sumZ (e :: l)) with (e + sumZ l)%Z. lia. }
    destruct (generateWindForce_spec w d) as (_ & _ & _ & Hkeep & _).
    destruct Hkeep as [Ht Hf]; [unfold is_long; lia|lia|].
    destruct (IH (generateWindForce w d).1) as [Ht' Hf']; [lia|done|lia|].
    rewrite Ht', Hf', Ht, Hf. split; [lia|done].
Qed.

Lemma sumZ_nonneg (l : list Z) : Forall (fun d => 0 <= d)%Z l -> (0 <= sumZ l)%Z.
Proof.
  induction 1 as [|e l He _ IHl]; [done|].
  change (sumZ (e :: l)) with (e + sumZ l)%Z. lia.
Qed.

Lemma sumZ_take (n : nat) (l : list Z) :
  Forall (fun d => 0 <= d)%Z l -> (sumZ (take n l) <= sumZ l)%Z.
Proof.
  intros Hl. revert n. induction Hl as [|e l He Hl IHl]; intros [|n]; simpl;
    try done.
  - change (0 <= sumZ (e :: l))%Z. apply sumZ_nonneg. by constructor.
  - change (e + sumZ (take n l) <= e + sumZ l)%Z. specialize (IHl n). lia.
Qed.

(** One window of the accumulator: from a call that leaves it within 1200
    to the call that takes it beyond, the vector is flipped once, by that
    last call, and the accumulator restarts at zero. *)
Lemma wind_window w (deltas : list Z) (last : Z) :
  (- 2 ^ 63 <= timeBlowing w)%Z ->
  Forall (fun d => 0 <= d)%Z deltas ->
  (timeBlowing w + sumZ deltas <= 1200 < timeBlowing w + sumZ deltas + last)%Z ->
  (timeBlowing w + sumZ deltas + last < 2 ^ 63)%Z ->
  (forall n, windForce (wind_run (map Generate (take n deltas)) w)
             = windForce w) /\
  phase (wind_run (map Generate (deltas ++ [last])) w)
    = (0%Z, vmul (windForce w) (flit (-1) 1)).
Proof.
  intros Hlow Hpos [Hle Hlt] Hhigh. split.
  - intros n. apply wind_run_within; [done|by apply Forall_take|].
    pose proof (sumZ_take n _ Hpos). lia.
  - destruct (wind_run_within _ w Hlow Hpos Hle) as [Ht Hf].
    rewrite map_app. unfold wind_run in *. rewrite fold_left_app.
    cbn [map fold_left wind_step].
    destruct (generateWindForce_spec
                (fold_left wind_step (map Generate deltas) w) last)
      as (_ & _ & _ & _ & Hflip).
    pose proof (sumZ_nonneg _ Hpos) as Hnn.
    destruct Hflip as [Ht' Hf']; [unfold is_long; lia|lia|].
    unfold phase. by rewrite Ht', Hf', Hf.
Qed.
End WindFacts.

(** ** The flip in binary32 *)

Section Flip32.
Import Binary32.

(** Times -1.0f: the mantissa is shifted back without loss. *)
Lemma SFmul_minus_one (a : float32) :
  is_binary32 a -> fmul a (flit (-1) 1) = SFopp a.
Proof.
  change (flit (-1) 1) with (S754_finite true 8388608 (-23)).
  unfold is_binary32.
  destruct a as [sa|sa| |sa m e]; cbn [fmul ops SFmul SFopp valid_binary];
    [intros _; by destruct sa|intros _; by destruct sa|done|].
  intros [Hcan Hmax%Z.leb_le]%andb_true_iff.
  unfold canonical_mantissa in Hcan. apply Z.eqb_eq in Hcan.
  unfold binary_round_aux, shr_fexp.
  rewrite Pos.mul_comm.
  change (8388608 * m)%positive
    with (m~0~0~0~0~0~0~0~0~0~0~0~0~0~0~0~0~0~0~0~0~0~0~0)%positive.
  cbn [Zdigits2 digits2_pos].
  rewrite !Pos2Z.inj_succ.
  set (d := Z.pos (digits2_pos m)) in *.
  assert (forall t, t = (d + e)%Z -> fexp prec emax t = e) as Hf
    by (intros t ->; exact Hcan).
  rewrite (Hf (Z.succ (Z.succ (Z.succ (Z.succ (Z.succ (Z.succ (Z.succ
               (Z.succ (Z.succ (Z.succ (Z.succ (Z.succ (Z.succ (Z.succ
               (Z.succ (Z.succ (Z.succ (Z.succ (Z.succ (Z.succ (Z.succ
               (Z.succ (Z.succ d))))))))))))))))))))))
               + (e + -23))%Z) by lia.
  replace (e - (e + -23))%Z with 23%Z by lia.
  cbn [shr shr_record_of_loc].
  assert (SpecFloat.iter_pos shr_1 23
            (Build_shr_record
               (Z.pos (m~0~0~0~0~0~0~0~0~0~0~0~0~0~0~0~0~0~0~0~0~0~0~0))
               false false)
          = Build_shr_record (Z.pos m) false false) as -> by reflexivity.
  cbn [shr_m loc_of_shr_record round_nearest_even].
  replace (e + -23 + 23)%Z with e by lia.
  cbn [Zdigits2]. fold d. rewrite (Hf _ eq_refl), Z.sub_diag. cbn [shr shr_m].
  apply Z.leb_le in Hmax. rewrite Hmax. by destruct sa.
Qed.

Lemma SFmul_opp_square (a : float32) :
  SFmul prec emax (SFopp a) (SFopp a) = SFmul prec emax a a.
Proof. by destruct a as [[]|[]| |[] m e]. Qed.

(** The flip of the wind: exact negation, and the same magnitude. *)
Lemma flip_32 (v : vec3 float32) :
  is_binary32 (x v) -> is_binary32 (y v) -> is_binary32 (z v) ->
  vmul v (flit (-1) 1) = mkvec3 (SFopp (x v)) (SFopp (y v)) (SFopp (z v)) /\
  magnitude (vmul v (flit (-1) 1)) = magnitude v.
Proof.
  intros Hx Hy Hz.
  assert (vmul v (flit (-1) 1)
          = mkvec3 (SFopp (x v)) (SFopp (y v)) (SFopp (z v))) as ->.
  { unfold vmul. by rewrite !SFmul_minus_one by done. }
  split; [done|]. unfold magnitude. cbn [x y z fmul fadd fsqrt ops].
  by rewrite !SFmul_opp_square.
Qed.
End Flip32.

(** * The claims *)

(** C5, amended.  The wind vector is flipped each time the time
    accumulated since the last flip exceeds 1200: no call that leaves the
    accumulator within 1200 changes the vector, and the call that takes it
    beyond flips the vector and restarts the accumulator at zero, dropping
    the excess (the sums are those of [long]s that do not overflow); the
    flip inverts the sign of each component and keeps the magnitude, in
    exact arithmetic and, on numbers of the format, in binary32.  A
    disabled wind yields the zero vector whatever the accumulated time, an
    enabled one the live vector; and the phase (accumulator and vector)
    after any run of calls is the one reached without the toggles, so that
    re-enabling resumes it. *)
Theorem wind_oscillation :
  (forall (F : Type) (ops : GLfloatOps F) (w : Wind F)
          (deltas : list Z) (last : Z),
     (- 2 ^ 63 <= timeBlowing w)%Z ->
     Forall (fun d => 0 <= d)%Z deltas ->
     (timeBlowing w + sumZ deltas <= 1200
      < timeBlowing w + sumZ deltas + last)%Z ->
     (timeBlowing w + sumZ deltas + last < 2 ^ 63)%Z ->
     (forall n, windForce (wind_run (map Generate (take n deltas)) w)
                = windForce w) /\
     phase (wind_run (map Generate (deltas ++ [last])) w)
       = (0%Z, vmul (windForce w) (flit (-1) 1))) /\
  (forall (F : Type) (ops : GLfloatOps F) (w : Wind F) (deltaT : Z),
     (enabled w = false -> (generateWindForce w deltaT).2 = vzero) /\
     (enabled w = true ->
        (generateWindForce w deltaT).2
        = windForce (generateWindForce w deltaT).1) /\
     phase (generateWindForce (toggleWind w) deltaT).1
       = phase (generateWindForce w deltaT).1) /\
  (forall (F : Type) (ops : GLfloatOps F) (w : Wind F)
          (calls : list wind_call),
     phase (wind_run calls w)
     = phase (wind_run (List.filter is_generate calls) w)) /\
  (forall v : vec3 R,
     vmul v (flit (-1) 1) = mkvec3 (- x v)%R (- y v)%R (- z v)%R /\
     magnitude (vmul v (flit (-1) 1)) = magnitude v) /\
  (forall v : vec3 Binary32.float32,
     is_binary32 (x v) -> is_binary32 (y v) -> is_binary32 (z v) ->
     vmul v (flit (-1) 1)
     = mkvec3 (SFopp (x v)) (SFopp (y v)) (SFopp (z v)) /\
     magnitude (vmul v (flit (-1) 1)) = magnitude v).
Proof.
  split; [|split; [|split; [|split; [|exact flip_32]]]].
  - intros F ops w deltas last. apply wind_window.
  - intros F ops w deltaT.
    destruct (generateWindForce_spec w deltaT) as (_ & Hoff & Hon & _).
    split; [exact Hoff|]. split; [exact Hon|].
    apply (wind_step_phase (toggleWind w) w (Generate deltaT)). done.
  - intros F ops w calls. by apply wind_run_phase.
  - intros v. split.
    + apply vec3_eq; simpl; field.
    + rewrite magnitude_vmul, flit_R.
      replace (IZR (-1) / IZR 1)%R with (Ropp 1) by field.
      rewrite Rabs_Ropp, Rabs_R1. ring.
Qed.

Section Claims.
Context {F : Type} `{GLfloatOps F}.
Implicit Types (cs : ClothSheet F) (a : nat * nat) (p : Particle F).

(** C1, amended.  Through any number of frames, a pinned particle stays
    pinned and keeps its position, provided that in no frame a registered
    collider contains that position: force accumulation, constraint
    relaxation and integration skip pinned particles, collision resolution
    does not. *)
Theorem pinned_position_invariant
    (frames : list (Globals F * vec3 F * Z)) cs cs' a p :
  ticks frames cs = Ok cs' ->
  look (particles cs) a = Some p -> pinned p = true ->
  (forall frame c s, frame ∈ frames -> c ∈ potentialColliders cs ->
     heap frame.1.1 !! c = Some s -> contains s (position p) = false) ->
  exists p', look (particles cs') a = Some p' /\ pinned p' = true /\
             position p' = position p.
Proof.
  unfold ticks. revert cs p.
  induction frames as [|frame frames IH]; intros cs p Hrun Ha Hpin Hout;
    simpl in Hrun; inv_res; [eauto|].
  destruct (tick_pinned _ _ _ _ _ E Ha Hpin) as (p1 & Ha1 & Hpin1 & Hpos1 & Hc1).
  { intros c s. apply Hout. by left. }
  destruct (IH r p1 Hrun Ha1 Hpin1) as (p' & Hp' & Hpin' & Hpos').
  { intros fr c s Hfr Hc. rewrite Hpos1. apply Hout; [by right|congruence]. }
  exists p'. repeat split; congruence.
Qed.

(** C2.  What one call of [move] does to an unpinned particle: with q the
    particle as force accumulation and constraint relaxation leave it, the
    integration step makes its previous position the position of q, and
    its position
    2 * position - prevPosition * damperConstD + acceleration * timeTSquared
    of q; this is the position that [move] returns, unless collision
    resolution finds it inside a registered collider.  The result is the
    same for every [deltaT]. *)
Theorem integrate_verlet gl cs deltaT cs' :
  move gl cs deltaT = Ok cs' ->
  (forall deltaT', move gl cs deltaT' = Ok cs') /\
  exists cs1 cs2,
    accumulateForces cs = Ok cs1 /\ satisfyConstraints cs1 = Ok cs2 /\
    forall a q, look (particles cs2) a = Some q -> pinned q = false ->
      let verlet :=
        vadd (vsub (vmul (position q) ftwo)
                   (vmul (prevPosition q) damperConstD))
             (vmul (acceleration q) timeTSquared) in
      exists p', look (particles cs') a = Some p' /\
        prevPosition p' = position q /\
        ((forall c s, c ∈ potentialColliders cs -> heap gl !! c = Some s ->
                      contains s verlet = false) ->
         position p' = verlet).
Proof.
  intros Hrun. split; [done|].
  unfold move in Hrun. inv_bind Hrun as cs1 H1. inv_bind Hrun as cs2 H2.
  exists cs1, cs2. split; [done|]. split; [done|].
  intros a q Hq Hpin verlet.
  assert (look (particles (integrate cs2)) a = Some (integrate_particle q))
    as Hint.
  { cbn [integrate particles with_particles]. by rewrite look_map, Hq. }
  assert (position (integrate_particle q) = verlet /\
          prevPosition (integrate_particle q) = position q) as [Hpos Hprev].
  { unfold integrate_particle. by rewrite Hpin. }
  pose proof (handleCollision_pos_only _ _ _ Hrun) as (Hrel & _).
  destruct (grid_rel_look _ _ _ _ _ Hrel Hint) as (p' & Hp' & Hprev' & _).
  exists p'. split; [done|]. split; [congruence|].
  intros Hout.
  assert (look (particles cs') a = Some (integrate_particle q)) as Hsame.
  { eapply handleCollision_outside; [exact Hrun|exact Hint|].
    intros c s Hc Hs. rewrite Hpos. apply (Hout c s); [|done].
    apply accumulateForces_acc_only in H1 as (_ & _ & Hc1 & _).
    apply relax_pin_stable in H2 as (_ & _ & Hc2 & _).
    cbn [integrate with_particles potentialColliders] in Hc. congruence. }
  congruence.
Qed.


(** C8, amended.  On a square mesh of at least six by six particles the
    constructor pins exactly six particles, the first three and the last
    three of row 0, and no other. *)
Theorem six_pinned_square pos col (n : Z) cs :
  ClothSheet_new pos col n n = Ok cs -> (6 <= n <= 2 ^ 31 - 1)%Z ->
  let last := Z.to_nat n - 1 in
  let six := [(0, 0); (0, 1); (0, 2); (0, last); (0, last - 1); (0, last - 2)] in
  shaped (particles cs) (Z.to_nat n) (Z.to_nat n) /\
  NoDup six /\
  (forall a, a ∈ six ->
     exists p, look (particles cs) a = Some p /\ pinned p = true) /\
  (forall a p, look (particles cs) a = Some p -> pinned p = true -> a ∈ six).
Proof.
  intros Hnew Hn last six.
  destruct (ClothSheet_new_Ok _ _ _ _ _ Hnew)
    as (_ & Hshape & (_ & Hvalid & Hpins) & _); [unfold is_int; lia..|].
  replace (Z.to_nat n - 2) with (last - 1) in * by lia.
  replace (Z.to_nat n - 3) with (last - 2) in * by lia.
  fold last in Hvalid, Hpins. fold six in Hvalid, Hpins.
  split; [done|]. split; [|split].
  - subst six. repeat (apply NoDup_cons; split;
      [rewrite ?elem_of_cons, elem_of_nil;
       intros Hin; decompose [or] Hin; simplify_eq; lia|]).
    apply NoDup_nil_2.
  - intros a Ha. destruct (Hvalid a Ha) as [p Hp]. exists p.
    split; [done|]. by apply (Hpins _ _ Hp).
  - intros a p Ha Hp. by apply (Hpins _ _ Ha).
Qed.

End Claims.


(** * The claims on the scenes *)

Lemma cloth44_constructed : Scene.cloth 4 4 = Ok Scene.cloth44.
Proof. vm_compute. reflexivity. Qed.

Lemma cloth44_new_constructed :
  ClothSheet_new Scene.clothPos Scene.clothColor 4 4 = Ok Scene.cloth44_new.
Proof. vm_compute. reflexivity. Qed.

Lemma cloth66_new_constructed :
  ClothSheet_new Scene.clothPos Scene.clothColor 6 6 = Ok Scene.cloth66_new.
Proof. vm_compute. reflexivity. Qed.

Lemma cloth44_reachable : reachable Scene.cloth44.
Proof.
  change Scene.cloth44 with (pushCollidable Scene.cloth44_new 0).
  apply reach_pushCollidable.
  eapply (reach_new _ _ 4 4); [unfold is_int; lia..|].
  exact cloth44_new_constructed.
Qed.

Lemma cloth44_frames2_run :
  ticks Scene.frames2 Scene.cloth44 = Ok Scene.cloth44_frames2.
Proof. vm_compute. reflexivity. Qed.

Lemma cloth44_corner_run :
  tick Scene.cloth44 (Scene.globals_corner, Scene.windForce0, 17%Z)
  = Ok Scene.cloth44_corner.
Proof. vm_compute. reflexivity. Qed.

(** Two frames of the program's scene leave the pinned corner in place. *)
Lemma pinned_position_invariant_witness :
  exists p',
    ticks Scene.frames2 Scene.cloth44 = Ok Scene.cloth44_frames2 /\
    look (particles Scene.cloth44_frames2) (0, 0) = Some p' /\
    pinned p' = true /\ position p' = Scene.clothPos.
Proof.
  destruct (pinned_position_invariant Scene.frames2 Scene.cloth44
              Scene.cloth44_frames2 (0, 0)
              (mkParticle Scene.clothPos Scene.clothPos vzero
                 (particle_color 0 0) PARTICLE_MASS_KG true))
    as (p' & Hp' & Hpin & Hpos).
  - exact cloth44_frames2_run.
  - vm_compute. reflexivity.
  - reflexivity.
  - intros frame c s Hfr Hc Hs.
    apply list_elem_of_singleton in Hc as ->.
    assert (s = Scene.sphere0) as ->.
    { unfold Scene.frames2 in Hfr.
      repeat (apply elem_of_cons in Hfr as [->|Hfr]);
        [by inversion Hs..|by apply elem_of_nil in Hfr]. }
    vm_compute. reflexivity.
  - exists p'. split; [exact cloth44_frames2_run|auto].
Defined.

(** C1 as stated fails: a registered sphere that overlaps the pinned top
    left corner moves it in a single frame. *)
Lemma pinned_moved_by_collider :
  exists p p',
    tick Scene.cloth44 (Scene.globals_corner, Scene.windForce0, 17%Z)
    = Ok Scene.cloth44_corner /\
    look (particles Scene.cloth44) (0, 0) = Some p /\ pinned p = true /\
    look (particles Scene.cloth44_corner) (0, 0) = Some p' /\
    pinned p' = true /\ position p' <> position p.
Proof.
  eexists _, _. split; [exact cloth44_corner_run|].
  split; [vm_compute; reflexivity|]. split; [reflexivity|].
  split; [vm_compute; reflexivity|]. split; [reflexivity|].
  vm_compute. discriminate.
Qed.

Lemma cloth44_corner_move :
  move Scene.globals_corner (applyWindForce Scene.cloth44 Scene.windForce0) 17
  = Ok Scene.cloth44_corner.
Proof. vm_compute. reflexivity. Qed.

(** One frame of the 4 by 4 cloth in binary32, with a sphere on its pinned
    corner. *)
Lemma integrate_verlet_witness :
  move Scene.globals_corner (applyWindForce Scene.cloth44 Scene.windForce0) 17
  = Ok Scene.cloth44_corner /\
  ((forall deltaT',
      move Scene.globals_corner
           (applyWindForce Scene.cloth44 Scene.windForce0) deltaT'
      = Ok Scene.cloth44_corner) /\
   exists cs1 cs2,
     accumulateForces (applyWindForce Scene.cloth44 Scene.windForce0)
     = Ok cs1 /\
     satisfyConstraints cs1 = Ok cs2 /\
     forall a q, look (particles cs2) a = Some q -> pinned q = false ->
       let verlet :=
         vadd (vsub (vmul (position q) ftwo)
                    (vmul (prevPosition q) damperConstD))
              (vmul (acceleration q) timeTSquared) in
       exists p', look (particles Scene.cloth44_corner) a = Some p' /\
         prevPosition p' = position q /\
         ((forall c s,
             c ∈ potentialColliders
                   (applyWindForce Scene.cloth44 Scene.windForce0) ->
             heap Scene.globals_corner !! c = Some s ->
             contains s verlet = false) ->
          position p' = verlet)).
Proof.
  split; [exact cloth44_corner_move|].
  exact (integrate_verlet Scene.globals_corner
           (applyWindForce Scene.cloth44 Scene.windForce0) 17
           Scene.cloth44_corner cloth44_corner_move).
Defined.


(** C8 as stated fails: a row of four particles has no six to pin; the
    first three and the last three are four particles. *)
Lemma four_pinned_on_4x4 :
  ClothSheet_new Scene.clothPos Scene.clothColor 4 4 = Ok Scene.cloth44_new /\
  pinned_count Scene.cloth44_new = 4.
Proof. split; [exact cloth44_new_constructed|]. vm_compute. reflexivity. Qed.

(** The six pins of the 6 by 6 cloth. *)
Lemma six_pinned_square_witness :
  ClothSheet_new Scene.clothPos Scene.clothColor 6 6 = Ok Scene.cloth66_new /\
  (forall a p, look (particles Scene.cloth66_new) a = Some p ->
     pinned p = true ->
     a ∈ [(0, 0); (0, 1); (0, 2); (0, 5); (0, 4); (0, 3)]) /\
  pinned_count Scene.cloth66_new = 6.
Proof.
  split; [exact cloth66_new_constructed|].
  split; [|vm_compute; reflexivity].
  destruct (six_pinned_square _ _ 6 _ cloth66_new_constructed)
    as (_ & _ & _ & Honly); [lia|]. exact Honly.
Defined.


(** The wind of [main] over frames of 17 ms: seventy frames keep the
    vector, the seventy-first flips it, to its exact negation; switched
    off it yields zero. *)
Lemma wind_oscillation_witness :
  let w := Wind_new Scene.windForce0 in
  windForce (wind_run (map Generate (replicate 70 17%Z)) w)
    = Scene.windForce0 /\
  phase (wind_run (map Generate (replicate 70 17%Z ++ [17%Z])) w)
    = (0%Z, vmul Scene.windForce0 (flit (-1) 1)) /\
  (generateWindForce (toggleWind w) 17).2 = vzero /\
  vmul Scene.windForce0 (flit (-1) 1)
  = mkvec3 (SFopp (x Scene.windForce0)) (SFopp (y Scene.windForce0))
           (SFopp (z Scene.windForce0)) /\
  magnitude (vmul Scene.windForce0 (flit (-1) 1))
  = magnitude Scene.windForce0.
Proof.
  intros w.
  destruct wind_oscillation as (Hwindow & Hcall & _ & _ & Hflip32).
  destruct (Hwindow _ _ w (replicate 70 17%Z) 17%Z) as [Hkeep Hflip].
  - vm_compute. discriminate.
  - apply Forall_replicate. lia.
  - vm_compute. split; [discriminate|reflexivity].
  - vm_compute. reflexivity.
  - split; [exact (Hkeep 70)|]. split; [exact Hflip|]. split.
    + destruct (Hcall _ _ (toggleWind w) 17%Z) as (Hoff & _). by apply Hoff.
    + apply (Hflip32 Scene.windForce0); vm_compute; reflexivity.
Defined.

(** C5 as stated fails: the flips do not come once per window of 1200
    units.  A call that brings a whole window flips nothing, the test
    being [timeBlowing > 1200]; a call that brings two windows flips once;
    and at frames of 17 ms the vector flips at the 71st and at the 142nd
    frame, 1207 units apart, the accumulator restarting from 0 each
    time. *)
Lemma wind_flips_drift :
  let w := Wind_new Scene.windForce0 in
  let back := vmul Scene.windForce0 (flit (-1) 1) in
  phase (generateWindForce w 1200).1 = (1200%Z, Scene.windForce0) /\
  phase (generateWindForce w 2400).1 = (0%Z, back) /\
  phase (wind_run (map Generate (replicate 70 17%Z)) w)
    = (1190%Z, Scene.windForce0) /\
  phase (wind_run (map Generate (replicate 71 17%Z)) w) = (0%Z, back) /\
  phase (wind_run (map Generate (replicate 141 17%Z)) w) = (1190%Z, back) /\
  phase (wind_run (map Generate (replicate 142 17%Z)) w)
    = (0%Z, Scene.windForce0).
Proof. vm_compute. repeat split; reflexivity. Qed.

(** The collapsed spring: relaxation and force accumulation stop at the
    division, and so does force accumulation under a zero wind. *)
Lemma undefined_divisions_reachable_witness :
  satisfyConstraints (ExactScene.collapsed (mkvec3 0 0 1)%R) = Err DivByZero /\
  (forall cs', accumulateForces (ExactScene.collapsed (mkvec3 0 0 1)%R)
               <> Ok cs') /\
  accumulateForces (ExactScene.collapsed vzero) = Err DivByZero.
Proof.
  destruct undefined_divisions_reachable as (_ & Hrelax & Hforce & Hwind).
  split; [|split].
  - eapply (Hrelax _ _ [] []); [reflexivity..].
  - eapply (Hforce _ _ _ (ExactScene.resting ExactScene.origin)
                   (ExactScene.resting ExactScene.origin));
      [by left|by left|reflexivity..].
  - by apply Hwind.
Defined.







(** C7 at a mesh that is not square. [new ClothSheet(position, color, 4, 5)]
    makes 4 rows of 5 particles. Along a row, where the particles are 5,
    the step in x and the rest length of the structural spring are
    2 / (4 - 1), the spacing of the other axis; down a column, where they
    are 4, the step in y and the rest length are 2 / (5 - 1). *)
Theorem rectangular_mesh_spacing :
  ClothSheet_new Scene.clothPos Scene.clothColor 4 5 = Ok Scene.cloth45_new /\
  map length (particles Scene.cloth45_new) = [5; 5; 5; 5] /\
  fdivide ftwo (fsub (flit 4 1) fone) = Ok Scene.two_thirds /\
  fdivide ftwo (fsub (flit 5 1) fone) = Ok Scene.one_half /\
  Scene.two_thirds <> Scene.one_half /\
  (fun p => x (position p)) <$> look (particles Scene.cloth45_new) (0, 1)
    = (fun p => fadd (x (position p)) Scene.two_thirds)
        <$> look (particles Scene.cloth45_new) (0, 0) /\
  (fun p => y (position p)) <$> look (particles Scene.cloth45_new) (1, 0)
    = (fun p => fsub (y (position p)) Scene.one_half)
        <$> look (particles Scene.cloth45_new) (0, 0) /\
  springs Scene.cloth45_new !! 0 ≫= (.!! 1)
    = Some (mkSpring (Some (0, 0)) (Some (0, 1)) Scene.two_thirds) /\
  springs Scene.cloth45_new !! 0 ≫= (.!! 0)
    = Some (mkSpring (Some (0, 0)) (Some (1, 0)) Scene.one_half).
Proof.
  repeat match goal with |- _ /\ _ => split end;
    try (vm_compute; reflexivity).
  vm_compute. discriminate.
Qed.

(** * Further properties of the program *)

(** ** Sphere::move and Sphere::toggleMovement *)

Section SphereFacts.
Open Scope R_scope.

Lemma Sphere_move_on_track (s : Sphere R) deltaT :
  on_track s ->
  on_track (Sphere_move s deltaT) /\
  y (sph_position (Sphere_move s deltaT)) = y (sph_position s) /\
  z (sph_position (Sphere_move s deltaT)) = z (sph_position s) /\
  sph_radius (Sphere_move s deltaT) = sph_radius s /\
  sph_isMoving (Sphere_move s deltaT) = sph_isMoving s.
Proof.
  intros (Hvx & Hvy & Hvz & Hx). unfold Sphere_move.
  destruct (sph_isMoving s) eqn:Hmov; [|by rewrite Hmov].
  cbn [fltb Exact.ops]. unfold Exact.ltb. rewrite !flit_R.
  destruct (Rlt_dec _ _) as [Hlo|Hlo];
    [|destruct (Rlt_dec _ _) as [Hhi|Hhi]];
    unfold on_track;
    cbn [sph_position sph_velocity sph_radius sph_isMoving x y z vadd fadd
         Exact.ops]; rewrite ?flit_R;
    repeat split; try lra; try (left; lra); try (right; lra); try done;
    try (destruct Hvx as [-> | ->]; lra).
  all: destruct Hvx as [Hv | Hv]; [left|right]; lra.
Qed.

(** X4. The sphere stays on its track: in exact arithmetic, a sphere that
    moves along x at 0.05 a frame and lies between -1.55 and 1.55 does so
    after any number of calls of [Sphere::move]; its y, z, radius and
    moving flag never change. *)
Theorem sphere_stays_on_track (s : Sphere R) (deltaTs : list Z) :
  on_track s ->
  let s' := fold_left Sphere_move deltaTs s in
  on_track s' /\
  y (sph_position s') = y (sph_position s) /\
  z (sph_position s') = z (sph_position s) /\
  sph_radius s' = sph_radius s /\ sph_isMoving s' = sph_isMoving s.
Proof.
  revert s. induction deltaTs as [|dt l IH]; intros s Hs; cbn [fold_left].
  - done.
  - destruct (Sphere_move_on_track s dt Hs) as (Hs1 & Hy & Hz & Hr & Hm).
    destruct (IH _ Hs1) as (Hs' & Hy' & Hz' & Hr' & Hm').
    cbn zeta. repeat split; try congruence; apply Hs'.
Qed.

(** The sphere of [main], three frames on. *)
Lemma sphere_stays_on_track_witness :
  let s := Sphere_new (mkvec3 (- (1 / 2)) (- (1 / 2)) (- (5 / 2))) 1 (1 / 2) in
  on_track s /\ on_track (fold_left Sphere_move [17; 20; 33]%Z s).
Proof.
  cbn zeta.
  assert (on_track (Sphere_new (mkvec3 (- (1 / 2)) (- (1 / 2)) (- (5 / 2))) 1 (1 / 2))) as Hs.
  { unfold on_track, Sphere_new. cbn [sph_velocity sph_position x y z]. rewrite fzero_R, flit_R.
    repeat split; lra. }
  split; [exact Hs|].
  exact (proj1 (sphere_stays_on_track _ [17; 20; 33]%Z Hs)).
Defined.
End SphereFacts.

Section SphereToggle.
Context {F : Type} `{GLfloatOps F}.

(** X5. A stopped sphere does not move: after [toggleMovement] any number
    of calls of [move] leave the sphere as it is, and a second
    [toggleMovement] gives back the sphere that was stopped. *)
Theorem sphere_stop_and_go (s : Sphere F) (deltaTs : list Z) :
  sph_isMoving s = true ->
  fold_left Sphere_move deltaTs (toggleMovement s) = toggleMovement s /\
  toggleMovement (fold_left Sphere_move deltaTs (toggleMovement s)) = s.
Proof.
  intros Hm.
  assert (fold_left Sphere_move deltaTs (toggleMovement s) = toggleMovement s) as Hfix.
  { induction deltaTs as [|dt l IH]; [done|]. cbn [fold_left].
    unfold Sphere_move at 2. cbn [toggleMovement sph_isMoving]. rewrite Hm. cbn [negb]. exact IH. }
  split; [done|]. rewrite Hfix. destruct s. cbn in *. subst. done.
Qed.
End SphereToggle.

(** The sphere of the scene, stopped for two frames. *)
Lemma sphere_stop_and_go_witness :
  sph_isMoving Scene.sphere0 = true /\
  toggleMovement
    (fold_left Sphere_move [17; 18]%Z (toggleMovement Scene.sphere0))
  = Scene.sphere0.
Proof.
  split; [reflexivity|].
  exact (proj2 (sphere_stop_and_go Scene.sphere0 [17; 18]%Z eq_refl)).
Defined.

(** ** Memory safety of the simulation step *)

Section Safety.
Context {F : Type} `{GLfloatOps F}.
Implicit Types (g : grid F) (cs : ClothSheet F) (ptr : pptr).

Lemma yields_bind {A B} (P : A -> Prop) (Q : B -> Prop) (c : res A)
    (k : A -> res B) :
  yields P c -> (forall a, P a -> yields Q (k a)) -> yields Q (rbind c k).
Proof. destruct c as [a|e]; cbn [yields rbind]; auto. Qed.

Lemma yields_impl {A} (P Q : A -> Prop) (c : res A) :
  yields P c -> (forall a, P a -> Q a) -> yields Q c.
Proof. destruct c as [a|e]; cbn [yields]; auto. Qed.

Lemma fdivide_yields (a b : F) : yields (fun _ => True) (fdivide a b).
Proof.
  unfold fdivide. destruct (fdiv a b) eqn:Hq; cbn [of_option yields]; [done|].
  split; [done|]. by exists a, b.
Qed.

Lemma vdiv_yields (v : vec3 F) (s : F) : yields (fun _ => True) (vdiv v s).
Proof.
  unfold vdiv.
  repeat (eapply yields_bind; [apply fdivide_yields|]; intros ? _). done.
Qed.

Lemma normalize_yields (v : vec3 F) : yields (fun _ => True) (normalize v).
Proof. apply vdiv_yields. Qed.

Lemma foldM_yields {A B} (I : B -> Prop) (f : B -> A -> res B)
    (l : list A) (b : B) :
  (forall x a, a ∈ l -> I x -> yields I (f x a)) ->
  I b -> yields I (foldM f l b).
Proof.
  revert b. induction l as [|a l IH]; intros b Hstep Hb; cbn [foldM]; [done|].
  eapply yields_bind; [apply Hstep; [left|done]|].
  intros b' Hb'. apply IH; [|done]. intros x c Hc. apply Hstep. by right.
Qed.

Lemma iterM_yields {A} (I : A -> Prop) (f : A -> res A) (n : nat) (a : A) :
  (forall x, I x -> yields I (f x)) -> I a -> yields I (iterM n f a).
Proof.
  intros Hstep. revert a. induction n as [|n IH]; intros a Ha; cbn [iterM];
    [done|].
  eapply yields_bind; [by apply Hstep|]. exact IH.
Qed.

Lemma mapM_yields {A B} (f : A -> res B) (l : list A) :
  (forall a, a ∈ l -> yields (fun _ => True) (f a)) ->
  yields (fun l' => length l' = length l) (mapM f l).
Proof.
  induction l as [|a l IH]; intros Hf; cbn [mapM]; [done|].
  eapply yields_bind; [apply Hf; left|]. intros b _.
  eapply yields_bind; [apply IH; intros c Hc; apply Hf; by right|].
  intros l' Hl'. cbn [yields length]. by rewrite Hl'.
Qed.

Lemma mapM_length {A B} (f : A -> res B) (l : list A) l' :
  mapM f l = Ok l' -> length l' = length l.
Proof. intros Hrun. by apply mapM_lookup in Hrun as [? _]. Qed.

Section Grid.
Variables rows cols : nat.

Lemma deref_in_range g ptr :
  shaped g rows cols -> in_range rows cols ptr -> exists q, deref g ptr = Ok q.
Proof.
  intros Hs (a & -> & Ha). cbn [deref].
  destruct (proj2 (shaped_look g rows cols a Hs) Ha) as [q ->]. by exists q.
Qed.

Lemma addr_in_range g i j :
  shaped g rows cols -> i < rows -> j < cols -> addr g i j = Ok (Some (i, j)).
Proof.
  intros Hs Hi Hj.
  destruct (proj2 (shaped_look g rows cols (i, j) Hs)) as [q Hq]; [done|].
  unfold look in Hq. cbn [fst snd] in Hq. unfold addr, at_.
  destruct (g !! i) as [row|]; [|done]. cbn [of_option rbind].
  by rewrite Hq.
Qed.

Lemma add_acceleration_yields g ptr w :
  shaped g rows cols -> in_range rows cols ptr ->
  yields (fun g' => shaped g' rows cols) (add_acceleration g ptr w).
Proof.
  intros Hs Hp. unfold add_acceleration.
  destruct (deref_in_range g ptr Hs Hp) as [q ->]. cbn [rbind yields].
  by apply store_shaped.
Qed.

Lemma wind_triangle_yields wind g v0 v1 v2 :
  shaped g rows cols -> in_range rows cols v0 -> in_range rows cols v1 -> in_range rows cols v2 ->
  yields (fun g' => shaped g' rows cols) (wind_triangle wind g v0 v1 v2).
Proof.
  intros Hs H0 H1 H2. unfold wind_triangle.
  destruct (deref_in_range g v0 Hs H0) as [q0 ->].
  destruct (deref_in_range g v1 Hs H1) as [q1 ->].
  destruct (deref_in_range g v2 Hs H2) as [q2 ->]. cbn [rbind].
  eapply yields_bind; [apply normalize_yields|]. intros n _.
  eapply yields_bind; [apply vdiv_yields|]. intros w _.
  eapply yields_bind; [by apply add_acceleration_yields|]. intros g1 Hg1.
  eapply yields_bind; [by apply add_acceleration_yields|]. intros g2 Hg2.
  by apply add_acceleration_yields.
Qed.

Lemma wind_quad_yields wind k g l :
  shaped g rows cols -> k + 1 < rows -> l + 1 < cols ->
  yields (fun g' => shaped g' rows cols) (wind_quad wind k g l).
Proof.
  intros Hs Hk Hl. unfold wind_quad.
  rewrite !(addr_in_range g) by (done || lia). cbn [rbind].
  eapply yields_bind.
  - apply wind_triangle_yields; [done|..]; eexists; (split; [done|]);
      cbn [fst snd]; lia.
  - intros g1 Hg1. rewrite (addr_in_range g1) by (done || lia). cbn [rbind].
    apply wind_triangle_yields; [done|..]; eexists; (split; [done|]);
      cbn [fst snd]; lia.
Qed.

Lemma wind_pass_yields wind g :
  shaped g rows cols -> 0 < rows -> 0 < cols ->
  yields (fun g' => shaped g' rows cols) (wind_pass wind g).
Proof.
  intros Hs Hr Hc. unfold wind_pass.
  pose proof Hs as [Hlen _]. rewrite Hlen.
  destruct (Nat.eqb_spec rows 0) as [?|_]; [lia|].
  apply foldM_yields; [|done].
  intros x k [_ Hk]%elem_of_seq Hx. cbn [Nat.add] in Hk.
  pose proof Hx as [Hxlen Hxrows].
  destruct (x !! k) as [row|] eqn:Hrow;
    [|apply lookup_ge_None in Hrow; lia].
  unfold at_. rewrite Hrow. cbn [of_option rbind].
  rewrite Forall_lookup in Hxrows. rewrite (Hxrows _ _ Hrow).
  destruct (Nat.eqb_spec cols 0) as [?|_]; [lia|].
  apply foldM_yields; [|done].
  intros y l [_ Hl]%elem_of_seq Hy. cbn [Nat.add] in Hl.
  apply wind_quad_yields; [done|lia|lia].
Qed.

Lemma spring_force_yields g s :
  shaped g rows cols -> in_range rows cols (p0 s) -> in_range rows cols (p1 s) ->
  yields (fun g' => shaped g' rows cols) (spring_force g s).
Proof.
  intros Hs H0 H1. unfold spring_force.
  destruct (deref_in_range g _ Hs H0) as [q0 ->].
  destruct (deref_in_range g _ Hs H1) as [q1 ->]. cbn [rbind].
  eapply yields_bind; [apply vdiv_yields|]. intros u _.
  eapply yields_bind; [apply vdiv_yields|]. intros a _.
  eapply yields_bind; [apply vdiv_yields|]. intros g0 _.
  set (g1 := store g _ _).
  assert (shaped g1 rows cols) as Hs1 by by apply store_shaped.
  destruct (deref_in_range g1 _ Hs1 H1) as [q1' ->]. cbn [rbind].
  eapply yields_bind; [apply vdiv_yields|]. intros g1' _.
  cbn [yields]. by apply store_shaped.
Qed.

Lemma relax_spring_yields g s :
  shaped g rows cols -> in_range rows cols (p0 s) -> in_range rows cols (p1 s) ->
  yields (fun g' => shaped g' rows cols) (relax_spring g s).
Proof.
  intros Hs H0 H1. unfold relax_spring.
  destruct (deref_in_range g _ Hs H0) as [q0 ->].
  destruct (deref_in_range g _ Hs H1) as [q1 ->]. cbn [rbind].
  eapply yields_bind; [apply fdivide_yields|]. intros ratio _.
  set (g1 := if pinned q0 then g else _).
  assert (shaped g1 rows cols) as Hs1
    by (unfold g1; destruct (pinned q0); [done|by apply store_shaped]).
  destruct (deref_in_range g1 _ Hs1 H1) as [q1' ->]. cbn [rbind yields].
  destruct (pinned q1'); [done|by apply store_shaped].
Qed.

Lemma spring_loop_yields (f : grid F -> Spring F -> res (grid F))
    (sps : list (list (Spring F))) g :
  (forall g s, shaped g rows cols -> in_range rows cols (p0 s) -> in_range rows cols (p1 s) ->
     yields (fun g' => shaped g' rows cols) (f g s)) ->
  Forall (Forall (fun s => in_range rows cols (p0 s) /\ in_range rows cols (p1 s))) sps ->
  shaped g rows cols ->
  yields (fun g' => shaped g' rows cols) (foldM (fun g row => foldM f row g) sps g).
Proof.
  intros Hf Hsps Hs. apply foldM_yields; [|done].
  intros x row Hrow Hx. apply foldM_yields; [|done].
  intros y s Hsrow Hy.
  rewrite Forall_forall in Hsps. specialize (Hsps _ Hrow).
  rewrite Forall_forall in Hsps. destruct (Hsps _ Hsrow). by apply Hf.
Qed.

Lemma sound_with_particles cs g :
  sound rows cols cs -> shaped g rows cols -> sound rows cols (with_particles cs g).
Proof.
  intros (_ & ? & ? & ? & ?) Hg. unfold sound, with_particles.
  cbn [particles springs pinnedParticles]. auto.
Qed.

Lemma accumulateForces_yields cs :
  sound rows cols cs ->
  yields (fun cs' => sound rows cols cs' /\
                     potentialColliders cs' = potentialColliders cs)
         (accumulateForces cs).
Proof.
  intros Hcs. pose proof Hcs as (Hs & Hr & Hc & Hsp & _).
  unfold accumulateForces.
  eapply yields_bind; [apply normalize_yields|]. intros n _.
  eapply yields_bind; [by apply wind_pass_yields|]. intros g1 Hg1.
  eapply yields_bind.
  - unfold spring_pass.
    apply (spring_loop_yields spring_force); [|done..].
    intros. by apply spring_force_yields.
  - intros g2 Hg2. cbn [yields]. split; [by apply sound_with_particles|done].
Qed.

Lemma relax_yields n cs :
  sound rows cols cs ->
  yields (fun cs' => sound rows cols cs' /\
                     potentialColliders cs' = potentialColliders cs)
         (relax n cs).
Proof.
  intros Hcs. pose proof Hcs as (Hs & Hr & Hc & Hsp & _). unfold relax.
  eapply yields_bind.
  - apply (iterM_yields (fun g => shaped g rows cols)); [|done].
    intros g Hg. unfold relax_pass.
    apply (spring_loop_yields relax_spring); [|done..].
    intros. by apply relax_spring_yields.
  - intros g Hg. cbn [yields]. split; [by apply sound_with_particles|done].
Qed.

Lemma map_map_shaped (f : Particle F -> Particle F) g :
  shaped g rows cols -> shaped (map (map f) g) rows cols.
Proof.
  intros [Hlen Hrows]. split; [by rewrite length_map|].
  apply Forall_fmap. eapply Forall_impl; [exact Hrows|].
  intros row Hrow. cbn. by rewrite length_map.
Qed.

Lemma integrate_sound cs : sound rows cols cs -> sound rows cols (integrate cs).
Proof.
  intros Hcs. apply sound_with_particles; [done|].
  apply map_map_shaped. apply Hcs.
Qed.

Lemma mapM_mapM_shaped (f : Particle F -> res (Particle F)) g g' :
  mapM (mapM f) g = Ok g' -> shaped g rows cols -> shaped g' rows cols.
Proof.
  intros Hrun [Hlen Hrows]. apply mapM_lookup in Hrun as [Hlen' Hrun].
  split; [congruence|]. apply Forall_lookup. intros i row' Hrow'.
  destruct (g !! i) as [row|] eqn:Hrow.
  - destruct (Hrun _ _ Hrow) as (b & Hb & Hb'). simplify_eq.
    apply mapM_length in Hb. rewrite Forall_lookup in Hrows.
    rewrite Hb. eauto.
  - apply lookup_ge_None in Hrow. apply lookup_lt_Some in Hrow'. lia.
Qed.

Lemma collide_particle_yields gl c p :
  (exists a, sphere gl = Some a /\ is_Some (heap gl !! a)) ->
  is_Some (heap gl !! c) ->
  yields (fun _ => True) (collide_particle gl c p).
Proof.
  intros (a & Ha & [sa Hsa]) [sc Hsc]. unfold collide_particle.
  rewrite Hsc. cbn [of_option rbind].
  destruct (contains sc (position p)); [|done].
  eapply yields_bind; [apply normalize_yields|]. intros n _.
  rewrite Ha, Hsa. done.
Qed.

Lemma collide_with_yields gl g c :
  (exists a, sphere gl = Some a /\ is_Some (heap gl !! a)) ->
  is_Some (heap gl !! c) -> shaped g rows cols ->
  yields (fun g' => shaped g' rows cols) (collide_with gl g c).
Proof.
  intros Hgl Hc Hs. unfold collide_with.
  destruct (mapM (mapM (collide_particle gl c)) g) as [g'|e] eqn:Hrun.
  - cbn [yields]. by eapply mapM_mapM_shaped.
  - assert (yields (fun _ => True) (mapM (mapM (collide_particle gl c)) g))
      as Hy.
    { eapply yields_impl; [apply mapM_yields|done].
      intros row _. eapply yields_impl; [apply mapM_yields|done].
      intros p _. by apply collide_particle_yields. }
    by rewrite Hrun in Hy.
Qed.

Lemma handleCollision_yields gl cs :
  colliders_live gl cs -> sound rows cols cs ->
  yields (sound rows cols) (handleCollision gl cs).
Proof.
  intros [Hgl Hcol] Hcs. unfold handleCollision.
  eapply yields_bind.
  - apply (foldM_yields (fun g => shaped g rows cols)); [|apply Hcs].
    intros g c Hc Hg. rewrite Forall_forall in Hcol.
    apply collide_with_yields; auto.
  - intros g Hg. cbn [yields]. by apply sound_with_particles.
Qed.

Lemma move_yields gl cs deltaT :
  colliders_live gl cs -> sound rows cols cs ->
  yields (sound rows cols) (move gl cs deltaT).
Proof.
  intros Hgl Hcs. unfold move.
  eapply yields_bind; [by apply accumulateForces_yields|].
  intros cs1 [H1 Hc1].
  eapply yields_bind; [by apply relax_yields|]. intros cs2 [H2 Hc2].
  apply handleCollision_yields; [|by apply integrate_sound].
  destruct Hgl as [Hsph Hcol]. split; [done|].
  change (potentialColliders (integrate cs2)) with (potentialColliders cs2).
  by rewrite Hc2, Hc1.
Qed.

Lemma handleCollision_sound gl cs cs' :
  handleCollision gl cs = Ok cs' -> sound rows cols cs -> sound rows cols cs'.
Proof.
  unfold handleCollision. intros Hrun Hcs. inv_bind Hrun as g Hg. inv_res.
  apply sound_with_particles; [done|].
  revert Hg. apply (foldM_invariant (fun g => shaped g rows cols)); [|apply Hcs].
  intros x c y _ Hx Hy. by eapply mapM_mapM_shaped.
Qed.

Lemma move_sound gl cs deltaT cs' :
  move gl cs deltaT = Ok cs' -> sound rows cols cs -> sound rows cols cs'.
Proof.
  unfold move. intros Hrun Hcs.
  inv_bind Hrun as cs1 H1. inv_bind Hrun as cs2 H2.
  pose proof (accumulateForces_yields cs Hcs) as Hy1. rewrite H1 in Hy1.
  destruct Hy1 as [Hs1 _].
  pose proof (relax_yields CONSTRAINT_ITERATIONS cs1 Hs1) as Hy2.
  change (relax CONSTRAINT_ITERATIONS cs1) with (satisfyConstraints cs1) in Hy2.
  rewrite H2 in Hy2. destruct Hy2 as [Hs2 _].
  eapply handleCollision_sound; [exact Hrun|]. by apply integrate_sound.
Qed.

Lemma detach_sound cs cs' :
  detach cs = Ok cs' -> sound rows cols cs -> sound rows cols cs'.
Proof.
  unfold detach. intros Hrun (Hs & Hr & Hc & Hsp & _).
  inv_bind Hrun as g Hg. inv_res. unfold sound.
  cbn [particles springs pinnedParticles]. repeat split; try done.
  - revert Hg. apply (foldM_invariant (fun g => length g = rows));
      [|apply Hs].
    intros x a y _ Hx Hy. unfold unpin in Hy. inv_bind Hy as q Hq. inv_res.
    unfold store. by rewrite length_alter.
  - revert Hg. apply (foldM_invariant (fun g => shaped g rows cols)); [|done].
    intros x a y _ Hx Hy. unfold unpin in Hy. inv_bind Hy as q Hq. inv_res.
    by apply store_shaped.
Qed.
End Grid.

Lemma ClothSheet_new_sound pos col width height cs :
  ClothSheet_new pos col width height = Ok cs ->
  is_int width -> is_int height ->
  sound (Z.to_nat width) (Z.to_nat height) cs.
Proof.
  intros Hnew Hw Hh.
  destruct (ClothSheet_new_Ok _ _ _ _ _ Hnew Hw Hh)
    as (Hdims & Hs & (Hq & Hqin & _) & _).
  destruct (ClothSheet_new_mesh _ _ _ _ _ Hnew Hw Hh)
    as (_ & g & xS & yS & _ & _ & Hg & _ & _ & Hsp).
  split; [done|]. split; [lia|]. split; [lia|]. split.
  - eapply Forall_impl; [exact Hsp|]. intros row Hrow.
    eapply Forall_impl; [exact Hrow|]. intros s Hs'.
    destruct (generated_valid _ _ _ _ Hs') as (a & b & Ha & Hb & Hla & Hlb).
    apply (shaped_look _ _ _ _ Hg) in Hla, Hlb.
    split; eexists; eauto.
  - apply Forall_forall. intros a Ha. exists a. split; [done|].
    apply (shaped_look _ _ _ _ Hs). apply Hqin. by rewrite <- Hq.
Qed.

Lemma reachable_sound cs : reachable cs -> exists rows cols, sound rows cols cs.
Proof.
  induction 1 as [pos col w h cs Hw Hh Hnew|cs c _ IH|cs w _ IH
                 |cs gl dt cs' _ IH Hrun|cs gl cs' _ IH Hrun
                 |cs cs' _ IH Hrun].
  - eauto using ClothSheet_new_sound.
  - destruct IH as (rows & cols & IH). by exists rows, cols.
  - destruct IH as (rows & cols & IH). by exists rows, cols.
  - destruct IH as (rows & cols & IH). eauto using move_sound.
  - destruct IH as (rows & cols & IH). eauto using handleCollision_sound.
  - destruct IH as (rows & cols & IH). eauto using detach_sound.
Qed.

(** X7. [ClothSheet::move] is memory safe: on every cloth reachable from
    the constructor, with its colliders and the global [sphere] pointer
    pointing to spheres, the step either returns a reachable cloth or
    fails by a division that the arithmetic leaves undefined; no [at]
    throws and no pointer dangles.  In binary32, where every quotient is
    defined, it returns. *)
Theorem move_memory_safe gl cs deltaT :
  reachable cs -> colliders_live gl cs ->
  match move gl cs deltaT with
  | Ok cs' => reachable cs'
  | Err e => e = DivByZero /\ exists a b : F, fdiv a b = None
  end.
Proof.
  intros Hcs Hgl. destruct (reachable_sound cs Hcs) as (rows & cols & Hs).
  pose proof (move_yields rows cols gl cs deltaT Hgl Hs) as Hy.
  destruct (move gl cs deltaT) as [cs'|e] eqn:Hrun; [|exact Hy].
  by eapply reach_move.
Qed.
End Safety.

Lemma move_memory_safe_witness :
  reachable Scene.cloth44 /\ colliders_live Scene.globals0 Scene.cloth44 /\
  exists cs', move Scene.globals0 Scene.cloth44 17 = Ok cs' /\ reachable cs'.
Proof.
  assert (colliders_live Scene.globals0 Scene.cloth44) as Hlive.
  { split; [exists 0; split; [reflexivity|by eexists]|].
    repeat constructor. by eexists. }
  split; [exact cloth44_reachable|]. split; [exact Hlive|].
  pose proof (move_memory_safe Scene.globals0 Scene.cloth44 17
                cloth44_reachable Hlive) as Hsafe.
  destruct (move Scene.globals0 Scene.cloth44 17) as [cs'|e].
  - by exists cs'.
  - destruct Hsafe as (_ & a & b & Hab). discriminate Hab.
Defined.

(** ** The constructor *)


Section NewClothFacts.
Context {F : Type} `{GLfloatOps F}.
Implicit Types (g : grid F) (cs : ClothSheet F) (sp : list (Spring F)).
Implicit Types (p : Particle F).

Lemma set_at_lt {A} (v : list A) i (a : A) :
  i < length v -> set_at v i a = Ok (<[i := a]> v).
Proof. intros Hi. unfold set_at. by rewrite decide_True. Qed.

Lemma div_up_lt (size step c : nat) :
  0 < step -> c < (size + step - 1) / step -> c * step < size.
Proof.
  intros Hstep Hc. pose proof (Nat.div_mod_eq (size + step - 1) step).
  pose proof (Nat.mod_upper_bound (size + step - 1) step). nia.
Qed.

Lemma foldM_total {A B} (I : B -> Prop) (f : B -> A -> res B)
    (l : list A) (b : B) :
  (forall x a, a ∈ l -> I x -> exists y, f x a = Ok y /\ I y) ->
  I b -> exists b', foldM f l b = Ok b' /\ I b'.
Proof.
  revert b. induction l as [|a l IH]; intros b Hstep Hb; cbn [foldM].
  - by exists b.
  - destruct (Hstep b a) as (y & -> & Hy); [left|done|]. cbn [rbind].
    apply IH; [|done]. intros x c Hc. apply Hstep. by right.
Qed.

Lemma spring_group_total g xS yS nsprings k row sp col l rows cols :
  shaped g rows cols -> row + 1 < rows -> col + 1 < cols ->
  l + 5 < length sp ->
  ((Z.of_nat k <? size_sub (Z.of_nat nsprings) 3)%Z = true ->
     row + 2 < rows /\ l + 6 < length sp) ->
  ((Z.of_nat (l + 7) <? size_sub (Z.of_nat (length sp)) 3)%Z = true ->
     col + 2 < cols /\ l + 7 < length sp) ->
  exists sp', spring_group g xS yS nsprings k row sp col l = Ok sp' /\
              length sp' = length sp.
Proof.
  intros Hs Hrow Hcol Hl Hvert Hhor. unfold spring_group.
  rewrite (addr_in_range rows cols g row col) by (done || lia).
  rewrite (addr_in_range rows cols g (row + 1) col) by (done || lia).
  rewrite (addr_in_range rows cols g row (col + 1)) by (done || lia).
  rewrite (addr_in_range rows cols g (row + 1) (col + 1)) by (done || lia).
  cbn [rbind].
  do 6 (rewrite set_at_lt by (rewrite ?length_insert; lia); cbn [rbind]).
  set (sp5 := <[l + 5 := _]> _).
  assert (length sp5 = length sp) as Hlen5
    by (unfold sp5; by rewrite !length_insert).
  assert (exists sp6,
            (if (Z.of_nat k <? size_sub (Z.of_nat nsprings) 3)%Z
             then do a20 <- addr g (row + 2) col;
                  set_at sp5 (l + 6)
                    (mkSpring (Some (row, col)) a20 (fadd yS yS))
             else Ok sp5) = Ok sp6 /\ length sp6 = length sp)
    as (sp6 & -> & Hlen6).
  { destruct (Z.of_nat k <? size_sub (Z.of_nat nsprings) 3)%Z.
    - destruct Hvert as [? ?]; [done|].
      rewrite (addr_in_range rows cols g) by (done || lia). cbn [rbind].
      rewrite set_at_lt by lia. eexists. split; [done|].
      by rewrite length_insert.
    - by exists sp5. }
  cbn [rbind]. rewrite Hlen6.
  destruct (Z.of_nat (l + 7) <? size_sub (Z.of_nat (length sp)) 3)%Z.
  - destruct Hhor as [? ?]; [done|].
    rewrite (addr_in_range rows cols g) by (done || lia). cbn [rbind].
    rewrite set_at_lt by lia. eexists. split; [done|].
    by rewrite length_insert.
  - by exists sp6.
Qed.

Lemma spring_row_total g xS yS rows cols k :
  shaped g rows cols -> 4 <= rows -> 4 <= cols ->
  (Z.of_nat rows <= 2 ^ 31 - 1)%Z -> (Z.of_nat cols <= 2 ^ 31 - 1)%Z ->
  k < rows - 1 ->
  exists sp, spring_row g xS yS (Z.of_nat cols) (rows - 1) k = Ok sp.
Proof.
  intros Hs Hrows Hcols Hrmax Hmax Hk. unfold spring_row.
  assert (2 ^ 31 < 2 ^ 64)%Z as Hpow by done.
  rewrite size_sub_small by lia.
  destruct (Z.of_nat k <? Z.of_nat (rows - 1) - 3)%Z eqn:Hbend.
  - apply Z.ltb_lt in Hbend.
    destruct ((Z.of_nat cols - 1) * 8 - 1 <? 0)%Z eqn:Hsize;
      [apply Z.ltb_lt in Hsize; lia|].
    set (size := Z.to_nat ((Z.of_nat cols - 1) * 8 - 1)).
    assert (size = 8 * (cols - 1) - 1) as Hsz by (unfold size; lia).
    destruct (foldM_total (fun sp => length sp = size)
                (fun sp col => spring_group g xS yS (rows - 1) k k sp col
                                 (col * 8))
                (seq 0 ((size + 8 - 1) / 8)) (replicate size Spring_default))
      as (sp & Hrun & _); [|apply length_replicate|by exists sp].
    intros sp c [_ Hc]%elem_of_seq Hlen. cbn [Nat.add] in Hc.
    apply div_up_lt in Hc; [|lia].
    destruct (spring_group_total g xS yS (rows - 1) k k sp c (c * 8)
                rows cols) as (sp' & Hsp' & Hlen'); try done; try lia.
    + rewrite Hlen, size_sub_small by lia. intros Hg%Z.ltb_lt. lia.
    + exists sp'. split; [done|congruence].
  - apply Z.ltb_ge in Hbend.
    destruct ((Z.of_nat cols - 1) * 6 <? 0)%Z eqn:Hsize;
      [apply Z.ltb_lt in Hsize; lia|].
    set (size := Z.to_nat ((Z.of_nat cols - 1) * 6)).
    assert (size = 6 * (cols - 1)) as Hsz by (unfold size; lia).
    destruct (foldM_total (fun sp => length sp = size)
                (fun sp col => spring_group g xS yS (rows - 1) k k sp col
                                 (col * 6))
                (seq 0 ((size + 6 - 1) / 6)) (replicate size Spring_default))
      as (sp & Hrun & _); [|apply length_replicate|by exists sp].
    intros sp c [_ Hc]%elem_of_seq Hlen. cbn [Nat.add] in Hc.
    apply div_up_lt in Hc; [|lia].
    destruct (spring_group_total g xS yS (rows - 1) k k sp c (c * 6)
                rows cols) as (sp' & Hsp' & Hlen'); try done; try lia.
    + rewrite size_sub_small by lia. intros Hg%Z.ltb_lt. lia.
    + rewrite Hlen, size_sub_small by lia. intros Hg%Z.ltb_lt. lia.
    + exists sp'. split; [done|congruence].
Qed.

Lemma generateParticleSheet_total pos (height width : Z) xS yS :
  (4 <= height <= 2 ^ 31 - 1)%Z -> (4 <= width <= 2 ^ 31 - 1)%Z ->
  fdivide ftwo (fsub (flit height 1) fone) = Ok xS ->
  fdivide ftwo (fsub (flit width 1) fone) = Ok yS ->
  exists sps,
    generateParticleSheet pos height width
    = Ok (particle_rows xS yS pos 0 (Z.to_nat height) (Z.to_nat width) pos,
          sps).
Proof.
  intros Hh Hw HxS HyS. unfold generateParticleSheet.
  rewrite HxS, HyS. cbn [rbind].
  destruct (Z.ltb_spec height 0); [lia|].
  destruct (Z.ltb_spec width 0); [lia|]. cbn [orb].
  destruct (Z.ltb_spec (height - 1) 0); [lia|].
  set (g := particle_rows _ _ _ _ _ _ _).
  assert (shaped g (Z.to_nat height) (Z.to_nat width)) as Hs
    by apply particle_rows_shaped.
  destruct (mapM_total
              (spring_row g xS yS width (Z.to_nat (height - 1)))
              (seq 0 (Z.to_nat (height - 1)))) as [sps ->]; [|by exists sps].
  intros k [_ Hk]%elem_of_seq. cbn [Nat.add] in Hk.
  replace (Z.to_nat (height - 1)) with (Z.to_nat height - 1) in * by lia.
  destruct (spring_row_total g xS yS (Z.to_nat height) (Z.to_nat width) k Hs)
    as [sp Hsp]; [lia..|].
  rewrite Z2Nat.id in Hsp by lia. by exists sp.
Qed.

Lemma pin_total cs (j : Z) rows cols :
  shaped (particles cs) rows cols -> 0 < rows -> (0 <= j < Z.of_nat cols)%Z ->
  exists cs', pin cs j = Ok cs' /\ shaped (particles cs') rows cols.
Proof.
  intros Hs Hrows Hj. unfold pin.
  destruct (Z.ltb_spec j 0); [lia|].
  destruct (proj2 (shaped_look _ _ _ (0, Z.to_nat j) Hs)) as [p Hp];
    [cbn [fst snd]; lia|].
  unfold look in Hp. cbn [fst snd] in Hp. unfold at_.
  destruct (particles cs !! 0) as [row|]; [|done]. cbn [of_option rbind].
  rewrite Hp. cbn [of_option rbind]. eexists. split; [done|].
  cbn [particles]. by apply store_shaped.
Qed.

Lemma ClothSheet_new_total pos col (width height : Z) :
  (4 <= width <= height)%Z -> (height <= 2 ^ 31 - 1)%Z ->
  is_Some (fdiv ftwo (fsub (flit width 1) fone)) ->
  is_Some (fdiv ftwo (fsub (flit height 1) fone)) ->
  exists cs, ClothSheet_new pos col width height = Ok cs.
Proof.
  intros Hw Hh [xS HxS] [yS HyS]. unfold ClothSheet_new.
  destruct (generateParticleSheet_total pos width height xS yS)
    as [sps ->]; [lia|lia|unfold fdivide; by rewrite HxS
                 |unfold fdivide; by rewrite HyS|].
  cbn [rbind fst snd particles].
  set (g := particle_rows _ _ _ _ _ _ _).
  assert (length g = Z.to_nat width) as -> by apply particle_rows_length.
  assert (2 ^ 31 < 2 ^ 64)%Z as Hpow by done.
  rewrite !size_sub_small by lia.
  set (cs0 := mkClothSheet pos col g sps [] [] vzero).
  assert (shaped (particles cs0) (Z.to_nat width) (Z.to_nat height)) as Hs0
    by apply particle_rows_shaped.
  destruct (pin_total cs0 0 _ _ Hs0) as (cs1 & -> & Hs1); [lia..|].
  cbn [rbind].
  destruct (pin_total cs1 1 _ _ Hs1) as (cs2 & -> & Hs2); [lia..|].
  cbn [rbind].
  destruct (pin_total cs2 2 _ _ Hs2) as (cs3 & -> & Hs3); [lia..|].
  cbn [rbind].
  destruct (pin_total cs3 (Z.of_nat (Z.to_nat width) - 1) _ _ Hs3)
    as (cs4 & -> & Hs4); [lia..|].
  cbn [rbind].
  destruct (pin_total cs4 (Z.of_nat (Z.to_nat width) - 2) _ _ Hs4)
    as (cs5 & -> & Hs5); [lia..|].
  cbn [rbind].
  destruct (pin_total cs5 (Z.of_nat (Z.to_nat width) - 3) _ _ Hs5)
    as (cs6 & -> & Hs6); [lia..|].
  by exists cs6.
Qed.

(** With three rows the second row of the spring matrix reaches for a
    fourth: [springs.size() - 3] wraps and the bend spring is on. *)
Lemma spring_row_three g xS yS (width : Z) cols sp :
  shaped g 3 cols -> (2 <= width)%Z ->
  spring_row g xS yS width 2 1 <> Ok sp.
Proof.
  intros Hs Hw Hrun. unfold spring_row in Hrun.
  change (Z.of_nat 1 <? size_sub (Z.of_nat 2) 3)%Z with true in Hrun.
  cbn match in Hrun.
  destruct (Z.ltb_spec ((width - 1) * 8 - 1) 0); [lia|].
  set (size := Z.to_nat ((width - 1) * 8 - 1)) in *.
  assert (1 <= (size + 8 - 1) / 8) as Hgroups
    by (apply Nat.div_le_lower_bound; lia).
  destruct ((size + 8 - 1) / 8) as [|n]; [lia|].
  cbn [seq foldM] in Hrun. inv_bind Hrun as sp1 Hsp1.
  unfold spring_group in Hsp1.
  inv_bind Hsp1 as a00 Ha00. inv_bind Hsp1 as a10 Ha10.
  inv_bind Hsp1 as sp0 Hsp0. inv_bind Hsp1 as a01 Ha01.
  inv_bind Hsp1 as sp1' Hsp1'. inv_bind Hsp1 as a11 Ha11.
  inv_bind Hsp1 as sp2 Hsp2. inv_bind Hsp1 as sp3 Hsp3.
  inv_bind Hsp1 as sp4 Hsp4. inv_bind Hsp1 as sp5 Hsp5.
  inv_bind Hsp1 as sp6 Hsp6.
  change (Z.of_nat 1 <? size_sub (Z.of_nat 2) 3)%Z with true in Hsp6.
  cbn match in Hsp6. inv_bind Hsp6 as a20 Ha20.
  apply addr_Ok in Ha20 as [_ Hlook].
  apply (shaped_look _ _ _ _ Hs) in Hlook. cbn [fst] in Hlook. lia.
Qed.

Lemma ClothSheet_new_four pos col width height cs :
  ClothSheet_new pos col width height = Ok cs ->
  is_int width -> is_int height -> (4 <= width <= height)%Z.
Proof.
  intros Hnew Hw Hh.
  destruct (ClothSheet_new_Ok _ _ _ _ _ Hnew Hw Hh)
    as (Hdims & _ & _ & _ & g & Hgen).
  destruct (decide (width = 3%Z)) as [->|]; [exfalso|lia].
  apply generateParticleSheet_Ok in Hgen
    as (_ & _ & xS & yS & _ & _ & Hg & Hsps).
  change (Z.to_nat (3 - 1)) with 2 in Hsps.
  apply mapM_lookup in Hsps as [_ Hrows].
  destruct (Hrows 1 1 eq_refl) as (sp & Hsp & _).
  eapply (spring_row_three g xS yS height); [|lia|exact Hsp].
  rewrite Hg. apply particle_rows_shaped.
Qed.

(** X8. The constructor returns exactly for the dimensions 4 <= width <=
    height whose two spacings are defined: with fewer than four rows the
    spring generator reaches for a row that is not there, and the pins of
    the top row are indexed with the number of rows, which has to fit the
    row's length. *)
Theorem constructor_succeeds_iff pos col (width height : Z) :
  is_int width -> is_int height ->
  ((exists cs, ClothSheet_new pos col width height = Ok cs) <->
   (4 <= width <= height)%Z /\
   is_Some (fdiv ftwo (fsub (flit width 1) fone)) /\
   is_Some (fdiv ftwo (fsub (flit height 1) fone))).
Proof.
  intros Hw Hh. split.
  - intros [cs Hnew]. split; [by eapply ClothSheet_new_four|].
    destruct (ClothSheet_new_mesh _ _ _ _ _ Hnew Hw Hh)
      as (_ & g & xS & yS & HxS & HyS & _).
    unfold fdivide in HxS, HyS.
    destruct (fdiv ftwo (fsub (flit width 1) fone)); [|done].
    destruct (fdiv ftwo (fsub (flit height 1) fone)); [|done].
    split; by eexists.
  - intros (Hdims & HxS & HyS).
    apply ClothSheet_new_total; [done|apply Hh|done..].
Qed.









End NewClothFacts.

(** The 4 by 5 cloth in binary32. *)
Lemma constructor_succeeds_iff_witness :
  is_int 4 /\ is_int 5 /\
  exists cs, ClothSheet_new Scene.clothPos Scene.clothColor 4 5 = Ok cs.
Proof.
  assert (is_int 4 /\ is_int 5) as [H4 H5] by (unfold is_int; lia).
  split; [done|]. split; [done|].
  apply (constructor_succeeds_iff Scene.clothPos Scene.clothColor 4 5 H4 H5).
  split; [lia|]. split; by eexists.
Defined.



(** ** The steps of the simulation *)

Section StructureKept.
Context {F : Type} `{GLfloatOps F}.
Implicit Types (g : grid F) (cs : ClothSheet F) (p q : Particle F).

Lemma unpin_look (l : list (nat * nat)) g g' a :
  foldM unpin l g = Ok g' ->
  look g' a
  = (fun p => if decide (a ∈ l) then set_pinned p false else p) <$> look g a.
Proof.
  revert g. induction l as [|a0 l IH]; intros g Hrun; cbn [foldM] in Hrun.
  - inv_res. destruct (look g' a); cbn; [|done].
    by rewrite decide_False by apply not_elem_of_nil.
  - inv_bind Hrun as g1 Hg1. unfold unpin in Hg1. inv_bind Hg1 as q Hq.
    inv_res. cbn [deref] in Hq. apply of_option_Ok in Hq.
    rewrite (IH _ Hrun), (look_store _ _ _ _ _ Hq).
    destruct (decide (a = a0)) as [->|Hne].
    + rewrite Hq. cbn. rewrite (decide_True (P := a0 ∈ a0 :: l)) by left.
      by destruct (decide (a0 ∈ l)).
    + destruct (look g a) as [p|]; cbn; [|done]. f_equal.
      destruct (decide (a ∈ l)) as [Hin|Hout].
      * by rewrite decide_True by by right.
      * rewrite decide_False; [done|]. rewrite elem_of_cons. tauto.
Qed.

(** X13. [detach] only unpins: a particle whose address is in the queue
    gets its pin cleared, every other particle and every other field is
    as before, the queue is empty afterwards, and springs, colliders and
    wind are untouched. *)
Theorem detach_only_unpins cs cs' :
  detach cs = Ok cs' ->
  (forall a,
     look (particles cs') a
     = (fun p => if decide (a ∈ pinnedParticles cs)
                 then set_pinned p false else p) <$> look (particles cs) a) /\
  pinnedParticles cs' = [] /\ springs cs' = springs cs /\
  potentialColliders cs' = potentialColliders cs /\
  vWindForce cs' = vWindForce cs.
Proof.
  unfold detach. intros Hrun. inv_bind Hrun as g Hg. inv_res.
  cbn [particles pinnedParticles springs potentialColliders vWindForce].
  split; [|done]. intros a. by apply unpin_look.
Qed.

(** X14. [handleCollision] on a cloth that touches nothing: when every
    registered collider is a sphere that contains no particle of the
    cloth, the pass returns the cloth unchanged. *)
Theorem handleCollision_misses gl cs :
  Forall (fun c => exists s, heap gl !! c = Some s /\
            forall a p, look (particles cs) a = Some p ->
                        contains s (position p) = false)
         (potentialColliders cs) ->
  handleCollision gl cs = Ok cs.
Proof.
  intros Hout. unfold handleCollision.
  assert (foldM (collide_with gl) (potentialColliders cs) (particles cs)
          = Ok (particles cs)) as ->.
  { induction Hout as [|c l (s & Hc & Hs) _ IH]; [done|].
    cbn [foldM]. unfold collide_with at 1.
    rewrite grid_mapM_id; [exact IH|].
    intros a p Ha. unfold collide_particle. rewrite Hc.
    cbn [of_option rbind]. by rewrite (Hs a p Ha). }
  cbn [rbind]. by destruct cs.
Qed.
Lemma same_body_refl p : same_body p p.
Proof. by repeat split. Qed.

Lemma same_body_trans p q r : same_body p q -> same_body q r -> same_body p r.
Proof. unfold same_body. intuition congruence. Qed.

Lemma relax_spring_same_body g s g' :
  relax_spring g s = Ok g' -> grid_rel same_body g g'.
Proof.
  unfold relax_spring. intros Hrun; inv_res. inv_deref. simplify_eq.
  assert (forall (x : Particle F) v, same_body x (set_position x v))
    as Hset by (intros x v; by repeat split).
  destruct (pinned r); destruct (pinned r2).
  - by apply grid_rel_refl.
  - eapply grid_rel_store; eauto using same_body_refl.
  - eapply grid_rel_store; eauto using same_body_refl.
  - eapply grid_rel_trans; [exact same_body_trans| |];
      eapply grid_rel_store; eauto using same_body_refl.
Qed.

Lemma relax_same_body n cs cs' :
  relax n cs = Ok cs' -> grid_rel same_body (particles cs) (particles cs').
Proof.
  unfold relax. intros Hrun. inv_bind Hrun as g Hg. inv_res.
  cbn [particles with_particles]. revert Hg.
  apply grid_rel_iterM; [exact same_body_refl|exact same_body_trans|].
  intros x y.
  apply grid_rel_foldM; [exact same_body_refl|exact same_body_trans|].
  intros x' row y' _.
  apply grid_rel_foldM; [exact same_body_refl|exact same_body_trans|].
  intros ? ? ? _. apply relax_spring_same_body.
Qed.

Lemma integrate_same_body cs :
  grid_rel same_body (particles cs) (particles (integrate cs)).
Proof.
  intros a. cbn [integrate particles with_particles]. rewrite look_map.
  destruct (look (particles cs) a) as [p|]; constructor.
  unfold integrate_particle. destruct (pinned p) eqn:Hp; by repeat split.
Qed.

(** X15. [move] keeps the structure of the cloth: on a reachable cloth a
    step that returns leaves the shape of the grid, the colour, mass and
    pin of every particle, the springs, the queue of pins, the colliders,
    the wind, and the position and colour of the cloth as they were. *)
Theorem move_keeps_structure gl cs deltaT cs' :
  reachable cs -> move gl cs deltaT = Ok cs' ->
  (exists rows cols, shaped (particles cs) rows cols /\
                     shaped (particles cs') rows cols) /\
  grid_rel same_body (particles cs) (particles cs') /\
  springs cs' = springs cs /\ pinnedParticles cs' = pinnedParticles cs /\
  potentialColliders cs' = potentialColliders cs /\
  vWindForce cs' = vWindForce cs /\
  cs_position cs' = cs_position cs /\ cs_color cs' = cs_color cs.
Proof.
  intros Hreach Hrun. split.
  { destruct (reachable_sound cs Hreach) as (rows & cols & Hs).
    exists rows, cols. split; [apply Hs|].
    by apply (move_sound rows cols gl cs deltaT cs' Hrun Hs). }
  unfold move in Hrun. inv_bind Hrun as cs1 H1. inv_bind Hrun as cs2 H2.
  assert (cs_position cs1 = cs_position cs /\ cs_color cs1 = cs_color cs)
    as [Hp1 Hc1].
  { unfold accumulateForces in H1. inv_bind H1 as n Hn. inv_bind H1 as g1 Hg1.
    inv_bind H1 as g2 Hg2. by inv_res. }
  assert (cs_position cs2 = cs_position cs1 /\ cs_color cs2 = cs_color cs1)
    as [Hp2 Hc2].
  { unfold satisfyConstraints, relax in H2. inv_bind H2 as g Hg. by inv_res. }
  assert (cs_position cs' = cs_position cs2 /\ cs_color cs' = cs_color cs2)
    as [Hp3 Hc3].
  { unfold handleCollision in Hrun. inv_bind Hrun as g Hg. by inv_res. }
  pose proof (relax_same_body _ _ _ H2) as Hb2.
  apply accumulateForces_acc_only in H1 as (Hg1 & Hs1 & Hcol1 & Hq1 & Hw1).
  apply relax_pin_stable in H2 as (_ & Hs2 & Hcol2 & Hq2 & Hw2).
  apply handleCollision_pos_only in Hrun as (Hg3 & Hs3 & Hcol3 & Hq3 & Hw3).
  cbn [integrate with_particles springs potentialColliders pinnedParticles
       vWindForce] in *.
  split; [|repeat split; congruence].
  eapply grid_rel_trans; [exact same_body_trans| |].
  - eapply grid_rel_impl; [|exact Hg1]. intros p q (_ & _ & ? & ? & ?).
    by repeat split.
  - eapply grid_rel_trans; [exact same_body_trans|exact Hb2|].
    eapply grid_rel_trans; [exact same_body_trans|apply integrate_same_body|].
    eapply grid_rel_impl; [|exact Hg3]. intros p q (_ & _ & ? & ? & ?).
    by repeat split.
Qed.
End StructureKept.

(** The 4 by 4 cloth of the scene, detached. *)
Lemma detach_only_unpins_witness :
  exists cs', detach Scene.cloth44 = Ok cs' /\
              springs cs' = springs Scene.cloth44 /\
              pinnedParticles cs' = [].
Proof.
  destruct (detach_queue_ok Scene.cloth44
              (reachable_queue_ok _ cloth44_reachable))
    as (cs' & Hrun & _).
  exists cs'. split; [exact Hrun|].
  destruct (detach_only_unpins _ _ Hrun) as (_ & Hq & Hsp & _). done.
Defined.

(** A particle half a unit from the origin and a unit sphere five units
    away. *)
Lemma handleCollision_misses_witness :
  let gl := mkGlobals [mkSphere (mkvec3 5 0 0)%R 1%R ExactScene.origin false]
              None in
  handleCollision gl (ExactScene.speck [0]) = Ok (ExactScene.speck [0]).
Proof.
  intros gl. apply handleCollision_misses.
  repeat constructor. eexists. split; [reflexivity|].
  intros [i j] p Hp. apply contains_false. cbn [sph_radius sph_position].
  destruct i as [|i]; [|destruct i; discriminate Hp].
  destruct j as [|j]; [|destruct j; discriminate Hp].
  injection Hp as <-.
  cbn [position ExactScene.resting]. unfold ExactScene.half_way.
  rewrite magnitude_R. cbn [x y z vsub fsub Exact.ops].
  apply Rsqr_incr_0_var; [|apply sqrt_pos].
  rewrite Rsqr_sqrt by nra. unfold Rsqr. lra.
Defined.

(** One frame of the 4 by 4 cloth of the scene. *)
Lemma move_keeps_structure_witness :
  reachable (applyWindForce Scene.cloth44 Scene.windForce0) /\
  move Scene.globals_corner (applyWindForce Scene.cloth44 Scene.windForce0) 17
  = Ok Scene.cloth44_corner /\
  springs Scene.cloth44_corner = springs Scene.cloth44 /\
  pinnedParticles Scene.cloth44_corner = pinnedParticles Scene.cloth44.
Proof.
  assert (reachable (applyWindForce Scene.cloth44 Scene.windForce0)) as Hr
    by (apply reach_applyWindForce; exact cloth44_reachable).
  split; [exact Hr|]. split; [exact cloth44_corner_move|].
  destruct (move_keeps_structure _ _ _ _ Hr cloth44_corner_move)
    as (_ & _ & Hsp & Hq & _).
  split; [exact Hsp|exact Hq].
Defined.

(** ** The sphere's mesh *)

Section CubeLoops.
Context {F : Type} `{GLfloatOps F} `{GLfloatCmp F}.
Implicit Types (f : F -> list F) (vs : list F).

Lemma count_up_append fuel delta f body m : forall v vs,
  (forall u vs, body u vs = Some (vs ++ f u)) ->
  (forall k, k < m -> fleb (up_at delta v k) fone = true) ->
  fleb (up_at delta v m) fone = false -> m < fuel ->
  count_up fuel delta v body vs
  = Some (vs ++ concat (map (fun k => f (up_at delta v k)) (seq 0 m))).
Proof.
  revert fuel. induction m as [|m IH]; intros fuel v vs Hbody Hin Hout Hfuel.
  - destruct fuel as [|fuel]; [lia|]. cbn [count_up].
    change (up_at delta v 0) with v in Hout. rewrite Hout.
    cbn. by rewrite app_nil_r.
  - destruct fuel as [|fuel]; [lia|]. cbn [count_up].
    pose proof (Hin 0 ltac:(lia)) as Hv. change (up_at delta v 0) with v in Hv.
    rewrite Hv, Hbody.
    rewrite (IH fuel (fadd v delta)); [|done| | |lia].
    + f_equal. rewrite <- app_assoc. f_equal. cbn [seq map concat]. f_equal.
      rewrite <- seq_shift, map_map. f_equal. apply map_ext. intros k.
      unfold up_at. by rewrite Nat.iter_succ_r.
    + intros k Hk. specialize (Hin (S k) ltac:(lia)).
      unfold up_at in *. by rewrite Nat.iter_succ_r in Hin.
    + unfold up_at in *. by rewrite Nat.iter_succ_r in Hout.
Qed.

Lemma count_down_append fuel delta f body m : forall v vs,
  (forall u vs, body u vs = Some (vs ++ f u)) ->
  (forall k, k < m -> fleb (flit (-1) 1) (down_at delta v k) = true) ->
  fleb (flit (-1) 1) (down_at delta v m) = false -> m < fuel ->
  count_down fuel delta v body vs
  = Some (vs ++ concat (map (fun k => f (down_at delta v k)) (seq 0 m))).
Proof.
  revert fuel. induction m as [|m IH]; intros fuel v vs Hbody Hin Hout Hfuel.
  - destruct fuel as [|fuel]; [lia|]. cbn [count_down].
    change (down_at delta v 0) with v in Hout. rewrite Hout.
    cbn. by rewrite app_nil_r.
  - destruct fuel as [|fuel]; [lia|]. cbn [count_down].
    pose proof (Hin 0 ltac:(lia)) as Hv.
    change (down_at delta v 0) with v in Hv.
    rewrite Hv, Hbody.
    rewrite (IH fuel (fsub v delta)); [|done| | |lia].
    + f_equal. rewrite <- app_assoc. f_equal. cbn [seq map concat]. f_equal.
      rewrite <- seq_shift, map_map. f_equal. apply map_ext. intros k.
      unfold down_at. by rewrite Nat.iter_succ_r.
    + intros k Hk. specialize (Hin (S k) ltac:(lia)).
      unfold down_at in *. by rewrite Nat.iter_succ_r in Hin.
    + unfold down_at in *. by rewrite Nat.iter_succ_r in Hout.
Qed.

Lemma cube_faces_mesh fuel delta m n vs :
  (forall k, k < m -> fleb (up_at delta (flit (-1) 1) k) fone = true) ->
  fleb (up_at delta (flit (-1) 1) m) fone = false ->
  (forall k, k < n -> fleb (flit (-1) 1) (down_at delta fone k) = true) ->
  fleb (flit (-1) 1) (down_at delta fone n) = false ->
  m < fuel -> n < fuel ->
  cube_faces fuel delta vs = Some (vs ++ cube_mesh delta m n).
Proof.
  intros Hup Hup' Hdown Hdown' Hm Hn. unfold cube_faces.
  rewrite (count_up_append fuel delta
             (fun x => concat (map (fun k => face_z x (down_at delta fone k)
                                               fone delta
                                   ++ face_z x (down_at delta fone k)
                                        (fneg1 fone) delta) (seq 0 n)))
             _ m); [|intros u vs'|done..].
  2:{ rewrite (count_down_append fuel delta
                 (fun y => face_z u y fone delta
                           ++ face_z u y (fneg1 fone) delta) _ n);
        [done|intros; by rewrite app_assoc|done..]. }
  rewrite (count_down_append fuel delta
             (fun z => concat (map (fun k => face_x fone (down_at delta fone k)
                                               z delta
                                   ++ face_x (fneg1 fone)
                                        (down_at delta fone k) z delta)
                                   (seq 0 n)))
             _ n); [|intros u vs'|done..].
  2:{ rewrite (count_down_append fuel delta
                 (fun y => face_x fone y u delta
                           ++ face_x (fneg1 fone) y u delta) _ n);
        [done|intros; by rewrite app_assoc|done..]. }
  rewrite (count_up_append fuel delta
             (fun x => concat (map (fun k => face_y x fone
                                               (down_at delta fone k) delta
                                   ++ face_y x (fneg1 fone)
                                        (down_at delta fone k) delta)
                                   (seq 0 n)))
             _ m); [|intros u vs'|done..].
  2:{ rewrite (count_down_append fuel delta
                 (fun z => face_y u fone z delta
                           ++ face_y u (fneg1 fone) z delta) _ n);
        [done|intros; by rewrite app_assoc|done..]. }
  f_equal. by rewrite <- !app_assoc.
Qed.

Lemma concat_map_length {A} (g : A -> list F) (l : list A) (n : nat) :
  (forall a, length (g a) = n) -> length (concat (map g l)) = length l * n.
Proof.
  intros Hg. induction l as [|a l IH]; [done|].
  cbn [map concat length]. rewrite length_app, IH, Hg. lia.
Qed.

Lemma cube_mesh_length delta m n :
  length (cube_mesh delta m n) = 36 * (m * n + n * n + m * n).
Proof.
  unfold cube_mesh. rewrite !length_app.
  rewrite (concat_map_length _ _ (n * 36)), (concat_map_length _ _ (n * 36)),
    (concat_map_length _ _ (n * 36)).
  - rewrite !length_seq. lia.
  - intros x. rewrite (concat_map_length _ _ 36); [|done].
    by rewrite length_seq.
  - intros x. rewrite (concat_map_length _ _ 36); [|done].
    by rewrite length_seq.
  - intros x. rewrite (concat_map_length _ _ 36); [|done].
    by rewrite length_seq.
Qed.

(** X16. [generateCube] pushes the closed form, in any arithmetic: if
    1 / smoothness is defined, the counter of a loop that counts upwards
    from -1 first exceeds 1 after [m] turns and the counter of a loop that
    counts downwards from 1 first falls below -1 after [n] turns, then,
    given more turns of fuel than that, the function returns the vertices
    it was given followed by those of [cube_mesh]: 36 coordinates, twelve
    vertices, for each of the m n + n n + m n cells of the three pairs of
    faces. *)
Theorem generateCube_size fuel (s : Z) (delta : F) (m n : nat) vs :
  fdivide fone (flit s 1) = Ok delta ->
  (forall k, k < m -> fleb (up_at delta (flit (-1) 1) k) fone = true) ->
  fleb (up_at delta (flit (-1) 1) m) fone = false ->
  (forall k, k < n -> fleb (flit (-1) 1) (down_at delta fone k) = true) ->
  fleb (flit (-1) 1) (down_at delta fone n) = false ->
  m < fuel -> n < fuel ->
  generateCube fuel s vs = Ok (Some (vs ++ cube_mesh delta m n)) /\
  length (cube_mesh delta m n) = 36 * (m * n + n * n + m * n).
Proof.
  intros Hdelta Hup Hup' Hdown Hdown' Hm Hn. unfold generateCube.
  rewrite Hdelta. cbn [rbind].
  rewrite (cube_faces_mesh fuel delta m n) by done.
  split; [done|apply cube_mesh_length].
Qed.
End CubeLoops.

Section Spherify.
Context {F : Type} `{GLfloatOps F} `{GLfloatCmp F}.
Implicit Types (vs : list F) (v u : vec3 F).

Lemma vertex_at_Ok vs i v :
  vertex_at vs i = Ok v <->
  vs !! i = Some (x v) /\ vs !! (i + 1) = Some (y v) /\
  vs !! (i + 2) = Some (z v).
Proof.
  unfold vertex_at, at_. split.
  - intros Hrun. inv_bind Hrun as a Ha. inv_bind Hrun as b Hb.
    inv_bind Hrun as c Hc. inv_res. done.
  - intros (-> & -> & ->). by destruct v.
Qed.

Lemma vertex_at_lt vs i :
  i + 2 < length vs -> exists v, vertex_at vs i = Ok v.
Proof.
  intros Hi.
  destruct (lookup_lt_is_Some_2 vs i) as [a Ha]; [lia|].
  destruct (lookup_lt_is_Some_2 vs (i + 1)) as [b Hb]; [lia|].
  destruct (lookup_lt_is_Some_2 vs (i + 2)) as [c Hc]; [lia|].
  exists (mkvec3 a b c). by apply vertex_at_Ok.
Qed.

Lemma vertex_at_ext vs ws i :
  (forall j, i <= j < i + 3 -> ws !! j = vs !! j) ->
  vertex_at ws i = vertex_at vs i.
Proof.
  intros Hj. unfold vertex_at, at_. by rewrite !Hj by lia.
Qed.

Lemma foldM_seq_total {B} (I : nat -> B -> Prop) (f : B -> nat -> res B)
    (start count : nat) (b : B) :
  (forall c x, start <= c < start + count -> I c x ->
     exists y, f x c = Ok y /\ I (S c) y) ->
  I start b ->
  exists b', foldM f (seq start count) b = Ok b' /\ I (start + count) b'.
Proof.
  revert start b. induction count as [|count IH]; intros start b Hstep Hb.
  - exists b. by rewrite Nat.add_0_r.
  - cbn [seq foldM]. destruct (Hstep start b) as (y & -> & Hy); [lia|done|].
    cbn [rbind]. destruct (IH (S start) y) as (b' & Hrun & Hb'); [|done|].
    + intros c x' Hc. apply Hstep. lia.
    + exists b'. split; [done|]. by rewrite Nat.add_succ_r.
Qed.

Lemma spherify_vertex_step vs ws n c :
  length ws = 3 * n -> c < n ->
  (forall j, 3 * c <= j -> ws !! j = vs !! j) ->
  forall v u, vertex_at vs (3 * c) = Ok v -> normalize v = Ok u ->
  exists ws', spherify_vertex ws c = Ok ws' /\
    length ws' = 3 * n /\
    (forall j, 3 * S c <= j -> ws' !! j = vs !! j) /\
    (forall j, j < 3 * c -> ws' !! j = ws !! j) /\
    vertex_at ws' (3 * c) = Ok u.
Proof.
  intros Hlen Hc Hkeep v u Hv Hu. unfold spherify_vertex.
  rewrite (vertex_at_ext vs ws) by (intros; apply Hkeep; lia).
  rewrite Hv. cbn [rbind]. rewrite Hu. cbn [rbind].
  unfold set_at. rewrite decide_True by lia. cbn [rbind].
  rewrite decide_True by (rewrite length_insert; lia). cbn [rbind].
  rewrite decide_True by (rewrite !length_insert; lia).
  eexists. split; [done|]. split; [by rewrite !length_insert|].
  split; [|split].
  - intros j Hj. rewrite !list_lookup_insert_ne by lia. apply Hkeep. lia.
  - intros j Hj. by rewrite !list_lookup_insert_ne by lia.
  - apply vertex_at_Ok. split; [|split].
    + rewrite !list_lookup_insert_ne by lia.
      by rewrite list_lookup_insert_eq by lia.
    + rewrite list_lookup_insert_ne by lia.
      by rewrite list_lookup_insert_eq by (rewrite length_insert; lia).
    + by rewrite list_lookup_insert_eq by (rewrite !length_insert; lia).
Qed.

Lemma spherify_total vs n :
  length vs = 3 * n ->
  (forall k v, vertex_at vs (3 * k) = Ok v -> exists u, normalize v = Ok u) ->
  exists vs', spherify vs = Ok vs' /\ length vs' = length vs /\
    forall k v, vertex_at vs (3 * k) = Ok v ->
      exists u, normalize v = Ok u /\ vertex_at vs' (3 * k) = Ok u.
Proof.
  intros Hlen Hnorm. unfold spherify.
  assert ((length vs + 3 - 1) / 3 = n) as ->.
  { rewrite Hlen. symmetry. apply (Nat.div_unique _ _ _ 2); lia. }
  destruct (foldM_seq_total
              (fun c ws => length ws = 3 * n /\
                 (forall j, 3 * c <= j -> ws !! j = vs !! j) /\
                 (forall k v, k < c -> vertex_at vs (3 * k) = Ok v ->
                    exists u, normalize v = Ok u /\
                              vertex_at ws (3 * k) = Ok u))
              spherify_vertex 0 n vs) as (vs' & Hrun & Hlen' & _ & Hdone).
  - intros c ws [_ Hc] (Hl & Hkeep & Hprev). cbn [Nat.add] in Hc.
    destruct (vertex_at_lt vs (3 * c)) as [v Hv]; [lia|].
    destruct (Hnorm c v Hv) as [u Hu].
    destruct (spherify_vertex_step vs ws n c Hl Hc Hkeep v u Hv Hu)
      as (ws' & Hws' & Hl' & Hkeep' & Hold & Hnew).
    exists ws'. split; [done|]. split; [done|]. split; [done|].
    intros k v' Hk Hv'. destruct (decide (k = c)) as [->|Hne].
    + exists u. split; [congruence|done].
    + destruct (Hprev k v') as (u' & Hu' & Hat); [lia|done|].
      exists u'. split; [done|]. rewrite <- Hat.
      apply vertex_at_ext. intros j Hj. apply Hold. lia.
  - split; [done|]. split; [done|]. intros k v Hk. lia.
  - exists vs'. split; [done|]. split; [congruence|].
    intros k v Hv. apply (Hdone k v); [|done]. cbn [Nat.add].
    apply vertex_at_Ok in Hv as (_ & _ & Hz%lookup_lt_Some). lia.
Qed.

Lemma triples_vertex_at vs k v :
  vertex_at vs (3 * k) = Ok v -> triples vs !! k = Some v.
Proof.
  revert vs. induction k as [|k IH]; intros vs Hv.
  - apply vertex_at_Ok in Hv as (Ha & Hb & Hc).
    destruct vs as [|a [|b [|c vs]]]; try done.
    cbn in Ha, Hb, Hc. destruct v. cbn in *. congruence.
  - destruct vs as [|a [|b [|c vs]]];
      try (apply vertex_at_Ok in Hv as (Ha & Hb & Hc);
           replace (3 * S k + 2) with (S (S (S (3 * k + 2)))) in Hc by lia;
           by cbn in Hc).
    cbn [triples lookup]. apply IH.
    apply vertex_at_Ok in Hv as (Ha & Hb & Hc). apply vertex_at_Ok.
    replace (3 * S k) with (S (S (S (3 * k)))) in * by lia.
    by cbn in Ha, Hb, Hc.
Qed.

End Spherify.

(** ** Drawing *)

Section DrawFacts.
Context {F : Type} `{GLfloatOps F}.
Implicit Types (vs : list F) (calls : list (gl_call F)).

Lemma foldM_seq_yields {B} (I : nat -> B -> Prop) (f : B -> nat -> res B)
    (start count : nat) (b : B) :
  (forall c x, start <= c < start + count -> I c x -> yields (I (S c)) (f x c)) ->
  I start b -> yields (I (start + count)) (foldM f (seq start count) b).
Proof.
  revert start b. induction count as [|count IH]; intros start b Hstep Hb.
  - cbn. by rewrite Nat.add_0_r.
  - cbn [seq foldM]. eapply yields_bind; [apply Hstep; [lia|done]|].
    intros y Hy. rewrite <- Nat.add_succ_comm. apply IH; [|done].
    intros c x' Hc. apply Hstep. lia.
Qed.

Lemma drawn_vertices_app calls calls' :
  drawn_vertices (calls ++ calls')
  = drawn_vertices calls ++ drawn_vertices calls'.
Proof. apply omap_app. Qed.

Lemma drawn_normals_app calls calls' :
  drawn_normals (calls ++ calls')
  = drawn_normals calls ++ drawn_normals calls'.
Proof. apply omap_app. Qed.

Lemma triples_length vs n : length vs = 3 * n -> length (triples vs) = n.
Proof.
  revert vs. induction n as [|n IH]; intros vs Hlen.
  - by destruct vs.
  - destruct vs as [|a [|b [|c vs]]]; try (cbn in Hlen; lia).
    cbn [triples length]. cbn [length] in Hlen. rewrite IH; lia.
Qed.

Lemma face_normal_yields (p1 p2 p3 : vec3 F) :
  yields (fun _ => True) (face_normal p1 p2 p3).
Proof. apply normalize_yields. Qed.

Lemma Sphere_draw_vertex_yields (m : SphereMesh F) calls0 calls c n :
  18 * n <= length (sm_vertices m) -> c < 6 * n ->
  drawn_vertices calls
  = drawn_vertices calls0 ++ take c (triples (sm_vertices m)) ->
  length (drawn_normals calls)
  = length (drawn_normals calls0) + (c + 5) / 6 ->
  yields (fun calls' =>
            drawn_vertices calls'
            = drawn_vertices calls0 ++ take (S c) (triples (sm_vertices m)) /\
            length (drawn_normals calls')
            = length (drawn_normals calls0) + (S c + 5) / 6)
         (Sphere_draw_vertex m calls c).
Proof.
  intros Hlen Hc Hdrawn Hnormals. unfold Sphere_draw_vertex.
  destruct (vertex_at_lt (sm_vertices m) (3 * c)) as [v Hv]; [lia|].
  pose proof (triples_vertex_at _ _ _ Hv) as Hvc.
  assert (c = 6 * (c / 6) + c mod 6) as Hdiv by apply Nat.div_mod_eq.
  pose proof (Nat.mod_upper_bound c 6 ltac:(lia)) as Hmod.
  destruct (Nat.eqb_spec (c mod 6) 0) as [Hz|Hnz].
  - assert (c / 6 < n) as Hq by lia.
    rewrite Hv.
    destruct (vertex_at_lt (sm_vertices m) (3 * c + 3)) as [q2 ->]; [lia|].
    destruct (vertex_at_lt (sm_vertices m) (3 * c + 6)) as [q3 ->]; [lia|].
    cbn [rbind]. pose proof (face_normal_yields v q2 q3) as Hface.
    destruct (face_normal v q2 q3) as [normal|e]; [|exact Hface].
    cbn [rbind yields].
    rewrite !drawn_vertices_app, !drawn_normals_app, Hdrawn.
    simpl (drawn_vertices [_]). simpl (drawn_normals [_]).
    rewrite !app_nil_r. split.
    + by rewrite (take_S_r _ _ _ Hvc), app_assoc.
    + rewrite length_app, Hnormals. cbn [length].
      replace (c + 5) with (5 + (c / 6) * 6) by lia.
      replace (S c + 5) with (0 + (S (c / 6)) * 6) by lia.
      rewrite !Nat.div_add by lia.
      change (5 / 6) with 0. change (0 / 6) with 0. lia.
  - cbn [rbind]. rewrite Hv. cbn [rbind yields].
    rewrite !drawn_vertices_app, !drawn_normals_app, Hdrawn.
    simpl (drawn_vertices [_]). simpl (drawn_normals [_]).
    rewrite !app_nil_r. split.
    + by rewrite (take_S_r _ _ _ Hvc), app_assoc.
    + rewrite Hnormals. f_equal.
      replace (c + 5) with ((c mod 6 + 5) + (c / 6) * 6) by lia.
      replace (S c + 5) with ((c mod 6 + 6) + (c / 6) * 6) by lia.
      rewrite !Nat.div_add by lia. f_equal.
      assert (c mod 6 = 1 \/ c mod 6 = 2 \/ c mod 6 = 3 \/ c mod 6 = 4
              \/ c mod 6 = 5) as Hcases by lia.
      destruct Hcases as [-> | [-> | [-> | [-> | ->]]]]; reflexivity.
Qed.

(** The turns of the loop of [Sphere::draw] over [n] whole pairs of
    triangles. *)
Lemma Sphere_draw_loop_yields (m : SphereMesh F) calls0 n :
  18 * n <= length (sm_vertices m) ->
  yields (fun calls =>
            drawn_vertices calls
            = drawn_vertices calls0
              ++ take (6 * n) (triples (sm_vertices m)) /\
            length (drawn_normals calls)
            = length (drawn_normals calls0) + n)
         (foldM (Sphere_draw_vertex m) (seq 0 (6 * n)) calls0).
Proof.
  intros Hlen.
  eapply yields_impl.
  - apply (foldM_seq_yields
      (fun c calls =>
         drawn_vertices calls
         = drawn_vertices calls0 ++ take c (triples (sm_vertices m)) /\
         length (drawn_normals calls)
         = length (drawn_normals calls0) + (c + 5) / 6)).
    + intros c x [_ Hc] [Hx Hxn]. by eapply Sphere_draw_vertex_yields.
    + change (take 0 (triples (sm_vertices m))) with (@nil (vec3 F)).
      rewrite app_nil_r. split; [done|]. change ((0 + 5) / 6) with 0. lia.
  - cbn [Nat.add]. intros calls [Hv Hn]. split; [done|]. rewrite Hn. f_equal.
    replace (6 * n + 5) with (5 + n * 6) by lia.
    rewrite Nat.div_add by lia. by change (5 / 6) with 0.
Qed.

Lemma whole_turns n : (18 * n + 3 - 1) / 3 = 6 * n.
Proof. symmetry. apply (Nat.div_unique _ _ _ 2); lia. Qed.

(** X19. [Sphere::draw] on a mesh of whole pairs of triangles, 18 n
    coordinates: no [at] throws; the vertices handed to [glVertex3f] are
    the vertices of the mesh, each once and in order, and [glNormal3f] is
    called once for each pair of triangles.  The one way to fail is a
    normalization that the arithmetic leaves undefined; binary32 has
    none. *)
Theorem Sphere_draw_whole_mesh (s : Sphere F) (m : SphereMesh F) (n : nat) :
  length (sm_vertices m) = 18 * n ->
  match Sphere_draw s m with
  | Ok calls =>
      drawn_vertices calls = triples (sm_vertices m) /\
      length (drawn_normals calls) = n
  | Err e => e = DivByZero /\ exists a b : F, fdiv a b = None
  end.
Proof.
  intros Hlen. unfold Sphere_draw. rewrite Hlen, whole_turns.
  pose proof (Sphere_draw_loop_yields m
    [glPushMatrix; glTranslatef (sph_position s); glScalef (sm_scale m);
     glBegin] n ltac:(lia)) as Hy.
  destruct (foldM _ _ _) as [calls|e]; cbn [rbind]; [|exact Hy].
  destruct Hy as [Hv Hn].
  rewrite drawn_vertices_app, drawn_normals_app, length_app, Hv, Hn.
  simpl (drawn_vertices [_; _]). simpl (drawn_normals [_; _]).
  simpl (drawn_vertices [_; _; _; _]). simpl (drawn_normals [_; _; _; _]).
  rewrite app_nil_r. split; [|cbn [length]; lia].
  apply take_ge. rewrite (triples_length _ (6 * n)); lia.
Qed.

Lemma vertex_at_cases vs i :
  vertex_at vs i = Err OutOfRange \/ exists v, vertex_at vs i = Ok v.
Proof.
  unfold vertex_at, at_.
  destruct (vs !! i); cbn [of_option rbind]; [|by left].
  destruct (vs !! (i + 1)); cbn [of_option rbind]; [|by left].
  destruct (vs !! (i + 2)); cbn [of_option rbind]; [|by left].
  right. by eexists.
Qed.

Lemma vertex_at_ge vs i : length vs <= i + 2 -> vertex_at vs i = Err OutOfRange.
Proof.
  intros Hi. destruct (vertex_at_cases vs i) as [|[v Hv]]; [done|].
  apply vertex_at_Ok in Hv as (_ & _ & Hz%lookup_lt_Some). lia.
Qed.

(** X20. [Sphere::draw] on a mesh whose last pair of triangles is cut
    short: with 18 q + r coordinates, 0 < r < 9, the turn that starts the
    last pair reads up to [vertices.at(j + 8)], beyond the end.  The call
    never returns normally: [at] throws [out_of_range], unless an earlier
    normalization was already undefined. *)
Theorem Sphere_draw_cut_short (s : Sphere F) (m : SphereMesh F) (q r : nat) :
  length (sm_vertices m) = 18 * q + r -> 0 < r < 9 ->
  match Sphere_draw s m with
  | Ok _ => False
  | Err e =>
      e = OutOfRange \/ (e = DivByZero /\ exists a b : F, fdiv a b = None)
  end.
Proof.
  intros Hlen [Hpos Hshort]. unfold Sphere_draw.
  assert (exists k, (length (sm_vertices m) + 3 - 1) / 3 = 6 * q + S k)
    as [k ->].
  { exists ((r + 2) / 3 - 1).
    assert (0 < (r + 2) / 3) by (apply Nat.div_str_pos; lia).
    replace (length (sm_vertices m) + 3 - 1) with (r + 2 + (6 * q) * 3) by lia.
    rewrite Nat.div_add by lia. lia. }
  rewrite seq_app, foldM_app.
  pose proof (Sphere_draw_loop_yields m
    [glPushMatrix; glTranslatef (sph_position s); glScalef (sm_scale m);
     glBegin] q ltac:(lia)) as Hy.
  destruct (foldM _ (seq 0 (6 * q)) _) as [calls|e]; cbn [rbind];
    [|by right].
  cbn [Nat.add seq foldM]. unfold Sphere_draw_vertex at 1.
  replace ((6 * q) mod 6) with 0
    by (symmetry; rewrite Nat.mul_comm; apply Nat.Div0.mod_mul).
  cbn [Nat.eqb].
  rewrite (vertex_at_ge (sm_vertices m) (3 * (6 * q) + 6)) by lia.
  destruct (vertex_at_cases (sm_vertices m) (3 * (6 * q))) as [->|[v1 ->]];
    cbn [rbind]; [by left|].
  destruct (vertex_at_cases (sm_vertices m) (3 * (6 * q) + 3))
    as [->|[v2 ->]]; cbn [rbind]; by left.
Qed.
End DrawFacts.

Section ClothDraw.
Context {F : Type} `{GLfloatOps F}.
Implicit Types (g : grid F) (calls : list (gl_call F)).

Lemma at_lt {A} (v : list A) (i : nat) :
  i < length v -> exists a, at_ v i = Ok a /\ v !! i = Some a.
Proof.
  intros Hi. destruct (lookup_lt_is_Some_2 v i Hi) as [a Ha].
  exists a. unfold at_. by rewrite Ha.
Qed.

Lemma ClothSheet_draw_quad_yields g rows cols i j calls :
  shaped g rows cols -> i + 1 < rows -> j + 1 < cols ->
  yields (fun calls' =>
            map Some (drawn_vertices calls')
            = map Some (drawn_vertices calls)
              ++ map (fun a => position <$> look g a) (quad_corners i j) /\
            length (drawn_normals calls')
            = length (drawn_normals calls) + 2)
         (ClothSheet_draw_quad g i calls j).
Proof.
  intros [Hrows Hcols] Hi Hj. rewrite Forall_lookup in Hcols.
  unfold ClothSheet_draw_quad.
  destruct (at_lt g i) as (rowi & Hati & Hrowi); [lia|].
  destruct (at_lt g (i + 1)) as (rowi1 & Hati1 & Hrowi1); [lia|].
  pose proof (Hcols _ _ Hrowi) as Hlen. pose proof (Hcols _ _ Hrowi1) as Hlen1.
  destruct (at_lt rowi j) as (pij & Hatij & Hpij); [lia|].
  destruct (at_lt rowi1 j) as (pi1j & Hati1j & Hpi1j); [lia|].
  destruct (at_lt rowi (j + 1)) as (pij1 & Hatij1 & Hpij1); [lia|].
  destruct (at_lt rowi1 (j + 1)) as (pi1j1 & Hati1j1 & Hpi1j1); [lia|].
  rewrite Hati. cbn [rbind]. rewrite Hatij. cbn [rbind].
  rewrite Hati1. cbn [rbind]. rewrite Hati1j. cbn [rbind].
  rewrite Hatij1. cbn [rbind].
  pose proof (face_normal_yields (position pi1j) (position pij)
                (position pij1)) as Hn1.
  destruct (face_normal (position pi1j) (position pij) (position pij1))
    as [n1|e]; [|exact Hn1].
  cbn [rbind]. rewrite Hati1j1. cbn [rbind].
  pose proof (face_normal_yields (position pi1j) (position pij1)
                (position pi1j1)) as Hn2.
  destruct (face_normal (position pi1j) (position pij1) (position pi1j1))
    as [n2|e]; [|exact Hn2].
  cbn [rbind yields].
  rewrite !drawn_vertices_app, !drawn_normals_app, !length_app, !map_app.
  simpl (drawn_vertices [_; _; _; _; _]). simpl (drawn_vertices [_; _; _; _]).
  simpl (drawn_normals [_; _; _; _; _]). simpl (drawn_normals [_; _; _; _]).
  split; [|cbn [length]; lia].
  rewrite <- app_assoc. f_equal. unfold quad_corners, look.
  cbn [map fst snd app]. by rewrite Hrowi, Hrowi1, Hpij, Hpi1j, Hpij1, Hpi1j1.
Qed.

Lemma ClothSheet_draw_row_yields g rows cols i calls :
  shaped g rows cols -> i + 1 < rows -> 0 < cols ->
  yields (fun calls' =>
            map Some (drawn_vertices calls')
            = map Some (drawn_vertices calls)
              ++ map (fun a => position <$> look g a)
                     (concat (map (quad_corners i) (seq 0 (cols - 1)))) /\
            length (drawn_normals calls')
            = length (drawn_normals calls) + 2 * (cols - 1))
         (do row <- at_ g i;
          if length row =? 0 then Err OutOfRange else
          foldM (ClothSheet_draw_quad g i) (seq 0 (length row - 1)) calls).
Proof.
  intros Hg Hi Hcols. pose proof Hg as [Hrows Hall].
  rewrite Forall_lookup in Hall.
  destruct (at_lt g i) as (rowi & -> & Hrowi); [lia|].
  cbn [rbind]. rewrite (Hall _ _ Hrowi).
  destruct (Nat.eqb_spec cols 0) as [|_]; [lia|].
  pose proof (foldM_seq_yields
    (fun j calls' =>
       map Some (drawn_vertices calls')
       = map Some (drawn_vertices calls)
         ++ map (fun a => position <$> look g a)
                (concat (map (quad_corners i) (seq 0 j))) /\
       length (drawn_normals calls') = length (drawn_normals calls) + 2 * j)
    (ClothSheet_draw_quad g i) 0 (cols - 1) calls) as Hy.
  apply Hy.
  - intros j x [_ Hj] [Hx Hxn].
    eapply yields_impl;
      [apply (ClothSheet_draw_quad_yields g rows cols); [done|lia|lia]|].
    intros calls' [Hv Hn]. split; [|lia].
    rewrite Hv, Hx, seq_S, map_app, concat_app, map_app, <- app_assoc.
    cbn [map concat Nat.add]. by rewrite app_nil_r.
  - split; [|lia]. cbn. by rewrite app_nil_r.
Qed.

(** The rows of the loop of [ClothSheet::draw]. *)
Lemma ClothSheet_draw_loop_yields g rows cols calls0 :
  shaped g rows cols -> 0 < rows -> 0 < cols ->
  yields (fun calls =>
            map Some (drawn_vertices calls)
            = map Some (drawn_vertices calls0)
              ++ map (fun a => position <$> look g a)
                     (cloth_triangles rows cols) /\
            length (drawn_normals calls)
            = length (drawn_normals calls0) + 2 * ((rows - 1) * (cols - 1)))
         (foldM (fun calls i =>
                   do row <- at_ g i;
                   if length row =? 0 then Err OutOfRange else
                   foldM (ClothSheet_draw_quad g i)
                         (seq 0 (length row - 1)) calls)
                (seq 0 (rows - 1)) calls0).
Proof.
  intros Hg Hrows Hcols.
  apply (foldM_seq_yields
    (fun i calls =>
       map Some (drawn_vertices calls)
       = map Some (drawn_vertices calls0)
         ++ map (fun a => position <$> look g a)
                (concat (map (fun i => concat (map (quad_corners i)
                                                   (seq 0 (cols - 1))))
                             (seq 0 i))) /\
       length (drawn_normals calls)
       = length (drawn_normals calls0) + 2 * (i * (cols - 1)))).
  - intros i x [_ Hi] [Hx Hxn].
    eapply yields_impl;
      [apply (ClothSheet_draw_row_yields _ rows cols); [done|lia|done]|].
    intros calls' [Hv Hn]. split; [|lia].
    rewrite Hv, Hx, seq_S, map_app, concat_app, map_app, <- app_assoc.
    cbn [map concat Nat.add]. by rewrite app_nil_r.
  - split; [|lia]. cbn. by rewrite app_nil_r.
Qed.

(** X21. [ClothSheet::draw] on a cloth whose grid is [rows] by [cols]:
    no [at] throws; the vertices handed to [glVertex3f] are the positions
    of the corners of the two triangles of each quad, quad by quad and row
    by row, and [glNormal3f] is called once for each of the
    2 (rows - 1) (cols - 1) triangles. *)
Theorem ClothSheet_draw_safe (cs : ClothSheet F) (rows cols : nat) :
  sound rows cols cs ->
  match ClothSheet_draw cs with
  | Ok calls =>
      map Some (drawn_vertices calls)
      = map (fun a => position <$> look (particles cs) a)
            (cloth_triangles rows cols) /\
      length (drawn_normals calls) = 2 * ((rows - 1) * (cols - 1))
  | Err e => e = DivByZero /\ exists a b : F, fdiv a b = None
  end.
Proof.
  intros (Hg & Hrows & Hcols & _). unfold ClothSheet_draw.
  pose proof Hg as [Hlen _]. rewrite Hlen.
  destruct (Nat.eqb_spec rows 0) as [|_]; [lia|].
  pose proof (ClothSheet_draw_loop_yields (particles cs) rows cols
                [glPushMatrix; glBegin] Hg Hrows Hcols) as Hy.
  destruct (foldM _ (seq 0 (rows - 1)) _) as [calls|e]; cbn [rbind];
    [|exact Hy].
  destruct Hy as [Hv Hn].
  rewrite drawn_vertices_app, drawn_normals_app, length_app, map_app, Hv, Hn.
  simpl (drawn_vertices [_; _]). simpl (drawn_normals [_; _]).
  cbn [map length app]. rewrite app_nil_r. split; [done|lia].
Qed.
End ClothDraw.

(** ** The program: its callbacks and the event loop *)

Section ProgramFacts.
Context {F : Type} `{GLfloatOps F}.
Implicit Types (w : World F) (cs : ClothSheet F).

Lemma insert_live (hp : list (Sphere F)) a s c :
  is_Some (hp !! c) -> is_Some (<[a := s]> hp !! c).
Proof.
  intros Hc%lookup_lt_is_Some. apply lookup_lt_is_Some.
  by rewrite length_insert.
Qed.

Lemma actor_live_ext w w' actor :
  (forall c, is_Some (heap (w_globals w) !! c) ->
             is_Some (heap (w_globals w') !! c)) ->
  w_meshes w' = w_meshes w -> actor_live w actor -> actor_live w' actor.
Proof.
  intros Hheap Hmesh. destruct actor as [a|]; [|done].
  intros [Ha Hm]. split; [by apply Hheap|]. by rewrite Hmesh.
Qed.

Lemma Actor_draw_yields w actor :
  world_live w -> actor ∈ w_actors w ->
  yields (fun _ => True) (Actor_draw w actor).
Proof.
  intros (Hreach & _ & Hact) Hin. rewrite Forall_forall in Hact.
  specialize (Hact _ Hin). destruct actor as [a|]; cbn [Actor_draw].
  - destruct Hact as ([s ->] & m & n & -> & Hlen). cbn [of_option rbind].
    unfold Sphere_draw. rewrite Hlen, whole_turns.
    eapply yields_bind; [apply (Sphere_draw_loop_yields m _ n); lia|].
    by intros calls _.
  - destruct (reachable_sound _ Hreach) as (rows & cols & Hs).
    pose proof Hs as (Hg & Hrows & Hcols & _).
    unfold ClothSheet_draw. pose proof Hg as [-> _].
    destruct (Nat.eqb_spec rows 0) as [|_]; [lia|].
    eapply yields_bind;
      [by apply (ClothSheet_draw_loop_yields _ rows cols)|].
    by intros calls _.
Qed.

Lemma draw_yields w : world_live w -> yields (fun _ => True) (draw w).
Proof.
  intros Hw. unfold draw.
  eapply yields_bind; [|by intros calls _].
  apply (foldM_yields (fun _ => True)); [|done].
  intros calls actor Hin _.
  eapply yields_bind; [by apply Actor_draw_yields|]. by intros more _.
Qed.

(** What a successful [update] has done. *)
Lemma update_Ok w deltaT w' :
  update w deltaT = Ok w' ->
  exists a s,
    sphere (w_globals w) = Some a /\ heap (w_globals w) !! a = Some s /\
    w_globals w'
    = mkGlobals (<[a := Sphere_move s deltaT]> (heap (w_globals w)))
                (Some a) /\
    w_wind w' = (generateWindForce (w_wind w) deltaT).1 /\
    move (w_globals w')
         (applyWindForce (w_cloth w) (generateWindForce (w_wind w) deltaT).2)
         deltaT = Ok (w_cloth w') /\
    w_meshes w' = w_meshes w /\ w_actors w' = w_actors w /\
    lastUpdateT w' = lastUpdateT w /\ paused w' = paused w.
Proof.
  unfold update. intros Hrun.
  inv_bind Hrun as a Ha. apply of_option_Ok in Ha.
  inv_bind Hrun as s Hs. apply of_option_Ok in Hs.
  cbn [w_wind with_heap] in Hrun.
  destruct (generateWindForce (w_wind w) deltaT) as [wind windUpdate].
  inv_bind Hrun as cs Hcs. injection Hrun as <-.
  exists a, s.
  cbn [w_globals w_wind w_cloth w_meshes w_actors lastUpdateT paused
       with_cloth with_wind with_heap fst snd] in *.
  rewrite Ha in *. by repeat split.
Qed.

Lemma update_yields w deltaT :
  world_live w -> yields world_live (update w deltaT).
Proof.
  intros (Hreach & [(a & Ha & [s Hs]) Hcol] & Hact). unfold update.
  rewrite Ha. cbn [of_option rbind]. rewrite Hs. cbn [of_option rbind].
  cbn [w_wind with_heap].
  destruct (generateWindForce (w_wind w) deltaT) as [wind windUpdate].
  cbn [w_globals with_wind with_heap w_cloth].
  set (gl := mkGlobals _ _).
  assert (reachable (applyWindForce (w_cloth w) windUpdate)) as Hreach'
    by by constructor.
  destruct (reachable_sound _ Hreach') as (rows & cols & Hs').
  assert (colliders_live gl (applyWindForce (w_cloth w) windUpdate)) as Hlive.
  { split.
    - exists a. split; [done|]. apply insert_live. by eexists.
    - eapply Forall_impl; [exact Hcol|]. intros c Hc. by apply insert_live. }
  pose proof (move_yields rows cols gl _ deltaT Hlive Hs') as Hy.
  destruct (move gl (applyWindForce (w_cloth w) windUpdate) deltaT)
    as [cs|e] eqn:Hmove; cbn [rbind yields]; [|exact Hy].
  split; [by eapply reach_move|]. split.
  - destruct Hlive as [Hsph Hcol']. split; [done|].
    apply move_keeps_pins in Hmove as (_ & Hc & _).
    cbn [w_cloth with_cloth]. by rewrite Hc.
  - eapply Forall_impl; [exact Hact|]. intros actor.
    apply actor_live_ext; [|done]. intros c. apply insert_live.
Qed.

Lemma driver_yields currT w :
  world_live w -> yields (fun r => world_live r.1) (driver currT w).
Proof.
  intros Hw. unfold driver.
  destruct (negb (lastUpdateT w =? 0)%Z);
    destruct (MIN_TIME_STEP <? _)%Z; cbn [yields fst]; try exact Hw.
  - destruct (negb (paused w)).
    + eapply yields_bind; [by apply update_yields|]. intros w1 Hw1.
      eapply yields_bind; [by apply draw_yields|]. by intros calls _.
    + cbn [rbind].
      eapply yields_bind; [by apply draw_yields|]. by intros calls _.
  - destruct (negb (paused (with_lastUpdateT w currT))).
    + eapply yields_bind; [by apply (update_yields (with_lastUpdateT w currT))|].
      intros w1 Hw1.
      eapply yields_bind; [by apply draw_yields|]. by intros calls _.
    + cbn [rbind].
      eapply yields_bind;
        [by apply (draw_yields (with_lastUpdateT w currT))|].
      by intros calls _.
Qed.

(** What [keyboardHandler] does to a live world. *)
Lemma keyboardHandler_live key w :
  world_live w ->
  exists r, keyboardHandler key w = Ok r /\
    match r with
    | Exited => key = 27%Z
    | Running w' _ => key <> 27%Z /\ world_live w'
    end.
Proof.
  intros Hw. pose proof Hw as (Hreach & [(a & Ha & [s Hs]) Hcol] & Hact).
  unfold keyboardHandler.
  destruct (Z.eqb_spec key 27); [by exists Exited|].
  destruct (Z.eqb_spec key 32).
  { destruct (detach_queue_ok _ (reachable_queue_ok _ Hreach))
      as (cs' & Hdet & _).
    rewrite Hdet. cbn [rbind]. eexists. split; [done|]. split; [done|].
    split; [by eapply reach_detach|]. split; [|done].
    split; [by exists a; eauto|].
    unfold detach in Hdet. inv_bind Hdet as g Hg. injection Hdet as <-.
    exact Hcol. }
  destruct (Z.eqb_spec key 13); [by eexists|].
  destruct (Z.eqb_spec key 97); [by eexists|].
  destruct (Z.eqb_spec key 100); [by eexists|].
  destruct (Z.eqb_spec key 119); [by eexists|].
  destruct (Z.eqb_spec key 115); [by eexists|].
  destruct (Z.eqb_spec key 122); [by eexists|].
  destruct (Z.eqb_spec key 120); [|by eexists].
  rewrite Ha. cbn [of_option rbind]. rewrite Hs. cbn [of_option rbind].
  eexists. split; [done|].
  split; [done|]. split; [done|]. split.
  - split.
    + exists a. split; [done|]. apply insert_live. by eexists.
    + eapply Forall_impl; [exact Hcol|]. intros c Hc. by apply insert_live.
  - eapply Forall_impl; [exact Hact|]. intros actor.
    apply actor_live_ext; [|done]. intros c. apply insert_live.
Qed.

Lemma react_yields w e :
  world_live w ->
  yields (fun r => match r with
                   | Exited => True
                   | Running w' _ => world_live w'
                   end) (react w e).
Proof.
  intros Hw. destruct e as [currT| |key]; cbn [react].
  - eapply yields_bind; [by apply driver_yields|]. by intros r Hr.
  - eapply yields_bind; [by apply draw_yields|]. by intros calls _.
  - destruct (keyboardHandler_live key w Hw) as (r & -> & Hr).
    destruct r; [done|]. apply Hr.
Qed.

Lemma run_yields w events :
  world_live w ->
  yields (fun r => match r with
                   | Exited => True
                   | Running w' _ => world_live w'
                   end) (run w events).
Proof.
  revert w. induction events as [|e events IH]; intros w Hw; cbn [run];
    [done|].
  eapply yields_bind; [by apply react_yields|].
  intros [|w1 calls] Hw1; [done|].
  eapply yields_bind; [by apply IH|]. by intros [|w2 more] Hw2.
Qed.
End ProgramFacts.

Section MeshSize.
Context {F : Type} `{GLfloatOps F} `{GLfloatCmp F}.
Implicit Types (vs : list F).

Lemma count_up_invariant (I : list F -> Prop) fuel delta body :
  (forall u ws ws', I ws -> body u ws = Some ws' -> I ws') ->
  forall v vs vs', I vs -> count_up fuel delta v body vs = Some vs' -> I vs'.
Proof.
  intros Hbody. induction fuel as [|fuel IH]; intros v vs vs' Hvs Hrun;
    cbn [count_up] in Hrun; [done|].
  destruct (fleb v fone); [|by injection Hrun as <-].
  destruct (body v vs) as [ws|] eqn:Hws; [|done].
  eapply IH; [|exact Hrun]. by eapply Hbody.
Qed.

Lemma count_down_invariant (I : list F -> Prop) fuel delta body :
  (forall u ws ws', I ws -> body u ws = Some ws' -> I ws') ->
  forall v vs vs', I vs -> count_down fuel delta v body vs = Some vs' -> I vs'.
Proof.
  intros Hbody. induction fuel as [|fuel IH]; intros v vs vs' Hvs Hrun;
    cbn [count_down] in Hrun; [done|].
  destruct (fleb (flit (-1) 1) v); [|by injection Hrun as <-].
  destruct (body v vs) as [ws|] eqn:Hws; [|done].
  eapply IH; [|exact Hrun]. by eapply Hbody.
Qed.

(** Whatever the turns of the loops, [generateCube] pushes whole pairs of
    faces: 36 coordinates at a time. *)
Lemma cube_faces_whole fuel delta vs vs' :
  cube_faces fuel delta vs = Some vs' ->
  exists k, length vs' = length vs + 36 * k.
Proof.
  unfold cube_faces. intros Hrun.
  set (I := fun ws : list F => exists k, length ws = length vs + 36 * k).
  assert (forall (f : F -> list F) u ws ws',
            length (f u) = 36 -> I ws -> Some (ws ++ f u) = Some ws' -> I ws')
    as Hpush.
  { intros f u ws ws' Hf [k Hk] [= <-]. exists (S k).
    rewrite length_app, Hk, Hf. lia. }
  destruct (count_up fuel delta (flit (-1) 1) _ vs) as [vs1|] eqn:H1;
    [|done].
  destruct (count_down fuel delta fone _ vs1) as [vs2|] eqn:H2; [|done].
  assert (I vs1) as Hvs1.
  { revert H1. apply count_up_invariant; [|by exists 0; lia].
    intros x ws ws' Hws. apply count_down_invariant; [|done].
    intros y ws1 ws1' Hws1.
    by apply (Hpush (fun y => face_z x y fone delta
                              ++ face_z x y (fneg1 fone) delta)). }
  assert (I vs2) as Hvs2.
  { revert H2. apply count_down_invariant; [|done].
    intros z ws ws' Hws. apply count_down_invariant; [|done].
    intros y ws1 ws1' Hws1.
    by apply (Hpush (fun y => face_x fone y z delta
                              ++ face_x (fneg1 fone) y z delta)). }
  revert Hrun. apply (count_up_invariant I); [|done].
  intros x ws ws' Hws. apply count_down_invariant; [|done].
  intros z ws1 ws1' Hws1.
  by apply (Hpush (fun z => face_y x fone z delta
                            ++ face_y x (fneg1 fone) z delta)).
Qed.

Lemma set_at_length {A} (v v' : list A) i (a : A) :
  set_at v i a = Ok v' -> length v' = length v.
Proof.
  unfold set_at. destruct (decide (i < length v)); [|done].
  intros [= <-]. apply length_insert.
Qed.

Lemma spherify_length vs vs' : spherify vs = Ok vs' -> length vs' = length vs.
Proof.
  unfold spherify.
  apply (foldM_invariant (fun ws => length ws = length vs)); [|done].
  intros ws n ws' _ Hws Hrun. unfold spherify_vertex in Hrun.
  inv_bind Hrun as point Hpoint. inv_bind Hrun as normal Hnormal.
  inv_bind Hrun as ws1 H1. inv_bind Hrun as ws2 H2.
  apply set_at_length in H1, H2, Hrun. congruence.
Qed.

Lemma generateSpherifiedCube_whole fuel smoothness vs vs' :
  generateSpherifiedCube fuel smoothness vs = Ok (Some vs') ->
  exists k, length vs' = length vs + 36 * k.
Proof.
  unfold generateSpherifiedCube, generateCube. intros Hrun.
  inv_bind Hrun as cube Hcube. inv_bind Hcube as delta Hdelta.
  injection Hcube as <-.
  destruct (cube_faces fuel delta vs) as [ws|] eqn:Hws; [|done].
  inv_bind Hrun as ws' Hws'. injection Hrun as <-.
  apply cube_faces_whole in Hws as [k Hk]. apply spherify_length in Hws'.
  exists k. congruence.
Qed.

(** X17. [generateSpherifiedCube] normalizes the cube vertex by vertex,
    in any arithmetic: if [generateCube] returns a mesh from an empty
    vector and [normalize] is defined on each of its vertices, then
    [generateSpherifiedCube] returns a mesh of the same length in which
    every vertex is the normalized vertex of the cube at the same place
    (no turn of the loop reads a vertex that an earlier turn has
    written). *)
Theorem spherified_cube_normalized fuel (s : Z) (cube : list F) :
  generateCube fuel s [] = Ok (Some cube) ->
  (forall k v, vertex_at cube (3 * k) = Ok v -> exists u, normalize v = Ok u) ->
  exists ws,
    generateSpherifiedCube fuel s [] = Ok (Some ws) /\
    length ws = length cube /\
    forall k v, vertex_at cube (3 * k) = Ok v ->
      exists u, normalize v = Ok u /\ vertex_at ws (3 * k) = Ok u.
Proof.
  intros Hcube Hnorm. unfold generateSpherifiedCube. rewrite Hcube.
  cbn [rbind]. unfold generateCube in Hcube.
  inv_bind Hcube as delta Hdelta. injection Hcube as Hfaces.
  apply cube_faces_whole in Hfaces as [k Hk]. cbn [length Nat.add] in Hk.
  destruct (spherify_total cube (12 * k)) as (ws & -> & Hlen & Hall);
    [lia|done|].
  exists ws. by cbn [rbind].
Qed.

(** X22. The mesh of [generateSpherifiedCube] can be drawn, whatever the
    smoothness and the arithmetic: started on an empty vector, the loops
    push 36 coordinates at a time and the normalization keeps the length,
    so [Sphere::draw] reads no index beyond the end; it draws every vertex
    once, in order, with one normal for every six vertices. *)
Theorem spherified_cube_draws (fuel : nat) (smoothness : Z)
    (s : Sphere F) (m : SphereMesh F) :
  generateSpherifiedCube fuel smoothness [] = Ok (Some (sm_vertices m)) ->
  match Sphere_draw s m with
  | Ok calls =>
      drawn_vertices calls = triples (sm_vertices m) /\
      6 * length (drawn_normals calls) = length (drawn_vertices calls)
  | Err e => e = DivByZero /\ exists a b : F, fdiv a b = None
  end.
Proof.
  intros [k Hk]%generateSpherifiedCube_whole. cbn [length Nat.add] in Hk.
  unfold Sphere_draw.
  replace (length (sm_vertices m)) with (18 * (2 * k)) by lia.
  rewrite whole_turns.
  pose proof (Sphere_draw_loop_yields m
    [glPushMatrix; glTranslatef (sph_position s); glScalef (sm_scale m);
     glBegin] (2 * k) ltac:(lia)) as Hy.
  destruct (foldM _ _ _) as [calls|e]; cbn [rbind]; [|exact Hy].
  destruct Hy as [Hv Hn].
  rewrite drawn_vertices_app, drawn_normals_app, length_app, Hv, Hn.
  simpl (drawn_vertices [_; _]). simpl (drawn_normals [_; _]).
  simpl (drawn_vertices [_; _; _; _]). simpl (drawn_normals [_; _; _; _]).
  rewrite app_nil_r.
  assert (length (triples (sm_vertices m)) = 6 * (2 * k)) as Hlen
    by (apply triples_length; lia).
  rewrite take_ge by lia. split; [done|]. cbn [length app]. lia.
Qed.

Lemma main_Ok fuel (w : World F) :
  main fuel = Ok (Some w) ->
  exists vertices cloth,
    generateSpherifiedCube fuel 16 [] = Ok (Some vertices) /\
    ClothSheet_new (mkvec3 (flit (-1) 1) fone (flit (-2) 1))
      (mkvec4 (flit 212 1000) (flit 969 1000) (flit 627 1000) fone) 50 50
    = Ok cloth /\
    w = mkWorld
          (mkGlobals [Sphere_new (mkvec3 (flit (-5) 10) (flit (-5) 10)
                                         (flit (-25) 10)) fone (flit 5 10)]
                     (Some 0))
          [mkSphereMesh (mkvec3 (flit 5 10) (flit 5 10) (flit 5 10))
             (mkvec4 (flit 212 1000) (flit 969 1000) (flit 627 1000) fone)
             vertices]
          [ActorSphere 0; ActorCloth] (pushCollidable cloth 0)
          (Wind_new (mkvec3 fzero (flit (-2) 1) (flit (-15) 10))) 0 false.
Proof.
  unfold main. intros Hrun. inv_bind Hrun as vertices Hv.
  destruct vertices as [vertices|]; [|done].
  inv_bind Hrun as cloth Hcloth. injection Hrun as <-.
  by exists vertices, cloth.
Qed.

Lemma main_live fuel (w : World F) : main fuel = Ok (Some w) -> world_live w.
Proof.
  intros (vertices & cloth & Hv & Hcloth & ->)%main_Ok.
  apply generateSpherifiedCube_whole in Hv as [k Hk].
  cbn [length Nat.add] in Hk.
  split; [|split].
  - cbn [w_cloth]. apply reach_pushCollidable.
    by eapply (reach_new _ _ 50 50).
  - split; [exists 0; split; [done|by eexists]|].
    cbn [w_cloth w_globals heap].
    assert (potentialColliders cloth = []) as Hnone.
    { by destruct (ClothSheet_new_Ok _ _ _ _ _ Hcloth)
        as (_ & _ & _ & Hnone & _); [unfold is_int; lia..|]. }
    unfold pushCollidable. cbn [potentialColliders]. rewrite Hnone.
    constructor; [by eexists|constructor].
  - cbn [w_actors]. constructor; [|constructor; [done|constructor]].
    cbn [actor_live w_globals heap].
    split; [by eexists|]. eexists. exists (2 * k). split; [done|].
    cbn [sm_vertices]. lia.
Qed.
End MeshSize.

Section ProgramRuns.
Context {F : Type} `{GLfloatOps F}.
Implicit Types (w : World F) (cs : ClothSheet F).

Lemma draw_not_nil w calls : draw w = Ok calls -> calls <> [].
Proof.
  unfold draw. intros Hrun. inv_bind Hrun as calls' Hc. injection Hrun as <-.
  by destruct calls'.
Qed.

(** What a successful [driver] has done: recorded the first reading of the
    clock, nothing at all, a frame of a paused world, or a frame after a
    step. *)
Lemma driver_Ok currT w w' calls :
  driver currT w = Ok (w', calls) ->
  (calls = [] /\ (w' = w \/ w' = with_lastUpdateT w currT)) \/
  (calls <> [] /\ paused w = true /\ w' = with_lastUpdateT w currT) \/
  (calls <> [] /\ paused w = false /\
   exists w1, update w (currT - lastUpdateT w) = Ok w1 /\
              w' = with_lastUpdateT w1 currT).
Proof.
  unfold driver.
  destruct (negb (lastUpdateT w =? 0)%Z) eqn:Hfirst.
  - destruct (MIN_TIME_STEP <? currT - lastUpdateT w)%Z.
    + destruct (paused w) eqn:Hp; cbn [negb rbind]; intros Hrun.
      * inv_bind Hrun as calls' Hc. injection Hrun as <- <-.
        right. left. split; [by eapply draw_not_nil|done].
      * inv_bind Hrun as w1 Hw1. inv_bind Hrun as calls' Hc.
        injection Hrun as <- <-. right. right.
        split; [by eapply draw_not_nil|]. split; [done|]. by exists w1.
    + intros [= <- <-]. left. auto.
  - change (MIN_TIME_STEP <? 0)%Z with false. cbv iota.
    intros [= <- <-]. left. auto.
Qed.

Lemma keyboardHandler_Ok key w r :
  keyboardHandler key w = Ok r ->
  match r with
  | Exited => key = 27%Z
  | Running w' calls =>
      key <> 27%Z /\
      (w' = w \/
       (key = 32%Z /\ calls = [] /\
        exists cs, detach (w_cloth w) = Ok cs /\ w' = with_cloth w cs) \/
       (key = 13%Z /\ calls = [] /\ w' = pause w) \/
       (key = 122%Z /\ calls = [] /\
        w' = with_wind w (toggleWind (w_wind w))) \/
       (key = 120%Z /\ calls = [] /\
        exists a s, sphere (w_globals w) = Some a /\
                    heap (w_globals w) !! a = Some s /\
                    w' = with_heap w (<[a := toggleMovement s]>
                                        (heap (w_globals w)))))
  end.
Proof.
  unfold keyboardHandler.
  destruct (Z.eqb_spec key 27); [by intros [= <-]|].
  destruct (Z.eqb_spec key 32).
  { intros Hrun. inv_bind Hrun as cs Hcs. injection Hrun as <-.
    split; [done|]. right. left. eauto. }
  destruct (Z.eqb_spec key 13); [intros [= <-]; tauto|].
  destruct (Z.eqb_spec key 97); [intros [= <-]; tauto|].
  destruct (Z.eqb_spec key 100); [intros [= <-]; tauto|].
  destruct (Z.eqb_spec key 119); [intros [= <-]; tauto|].
  destruct (Z.eqb_spec key 115); [intros [= <-]; tauto|].
  destruct (Z.eqb_spec key 122); [intros [= <-]; tauto|].
  destruct (Z.eqb_spec key 120); [|intros [= <-]; tauto].
  intros Hrun. inv_bind Hrun as a Ha. apply of_option_Ok in Ha.
  inv_bind Hrun as s Hs. apply of_option_Ok in Hs. injection Hrun as <-.
  split; [done|]. do 4 right. eauto 10.
Qed.

Lemma react_Exited w e : react w e = Ok Exited -> e = Keyboard 27.
Proof.
  destruct e as [currT| |key]; cbn [react]; intros Hrun.
  - by inv_bind Hrun as r Hr.
  - by inv_bind Hrun as r Hr.
  - apply keyboardHandler_Ok in Hrun. by subst.
Qed.

Lemma run_Exited events : forall w,
  run w events = Ok Exited -> Keyboard 27 ∈ events.
Proof.
  induction events as [|e events IH]; intros w Hrun; cbn [run] in Hrun;
    [done|].
  inv_bind Hrun as r Hr. destruct r as [|w1 calls].
  - apply react_Exited in Hr as ->. left.
  - inv_bind Hrun as r' Hr'. destruct r' as [|w2 more]; [|done].
    right. by eapply IH.
Qed.

Lemma run_invariant (I : World F -> Prop) events : forall w w' calls,
  (forall w e w' calls,
     e ∈ events -> I w -> react w e = Ok (Running w' calls) -> I w') ->
  I w -> run w events = Ok (Running w' calls) -> I w'.
Proof.
  induction events as [|e events IH]; intros w w' calls Hstep Hw Hrun;
    cbn [run] in Hrun.
  - by injection Hrun as <- <-.
  - inv_bind Hrun as r Hr. destruct r as [|w1 calls1]; [done|].
    inv_bind Hrun as r' Hr'. destruct r' as [|w2 more]; [done|].
    injection Hrun as <- <-. eapply (IH w1); [|..|exact Hr'].
    + intros v e' v' c Hin. apply Hstep. by right.
    + eapply Hstep; [left|exact Hw|exact Hr].
Qed.

Lemma move_springs gl cs deltaT cs' :
  move gl cs deltaT = Ok cs' -> springs cs' = springs cs.
Proof.
  unfold move. intros Hrun.
  inv_bind Hrun as cs1 H1. inv_bind Hrun as cs2 H2.
  apply accumulateForces_acc_only in H1 as (_ & Hs1 & _).
  apply relax_pin_stable in H2 as (_ & Hs2 & _).
  apply handleCollision_pos_only in Hrun as (_ & Hs3 & _).
  cbn [integrate with_particles springs] in Hs3. congruence.
Qed.

Lemma no_pin_rel g g' :
  grid_rel (fun p q : Particle F => pinned q = pinned p) g g' ->
  (forall a p, look g a = Some p -> pinned p = false) ->
  forall a p, look g' a = Some p -> pinned p = false.
Proof.
  intros Hrel Hg a q Hq. specialize (Hrel a). rewrite Hq in Hrel.
  inversion Hrel as [p q' Hpq Hp|]; subst. rewrite Hpq. eapply Hg. eauto.
Qed.
End ProgramRuns.

Section ProgramTheorems.
Context {F : Type} `{GLfloatOps F} `{GLfloatCmp F}.
Implicit Types (w : World F) (cs : ClothSheet F).

(** The ways a callback changes the globals. *)
Lemma react_Running w e w' calls :
  react w e = Ok (Running w' calls) ->
  (exists t, w' = w \/ w' = with_lastUpdateT w t) \/
  (exists t w1 dt, e = Idle t /\ paused w = false /\ update w dt = Ok w1 /\
                   w' = with_lastUpdateT w1 t) \/
  (e = Keyboard 32 /\
   exists cs, detach (w_cloth w) = Ok cs /\ w' = with_cloth w cs) \/
  (e = Keyboard 13 /\ w' = pause w) \/
  (e = Keyboard 122 /\ w' = with_wind w (toggleWind (w_wind w))) \/
  (e = Keyboard 120 /\
   exists a s, sphere (w_globals w) = Some a /\
               heap (w_globals w) !! a = Some s /\
               w' = with_heap w (<[a := toggleMovement s]>
                                   (heap (w_globals w)))).
Proof.
  destruct e as [currT| |key]; cbn [react]; intros Hrun.
  - inv_bind Hrun as r Hr. destruct r as [w1 calls1].
    injection Hrun as <- <-.
    apply driver_Ok in Hr
      as [[_ Hw]|[(_ & _ & ->)|(_ & Hp & w1' & Hup & ->)]].
    + left. by exists currT.
    + left. exists currT. by right.
    + right. left. by exists currT, w1', (currT - lastUpdateT w)%Z.
  - inv_bind Hrun as calls' Hc. injection Hrun as <- <-.
    left. exists 0%Z. by left.
  - apply keyboardHandler_Ok in Hrun
      as (_ & [->|[(-> & _ & Hd)|[(-> & _ & ->)|[(-> & _ & ->)
                                                |(-> & _ & Hx)]]]]).
    + left. exists 0%Z. by left.
    + do 2 right. by left.
    + do 3 right. by left.
    + do 4 right. by left.
    + do 5 right. done.
Qed.

(** X23. What [main] has set up when it enters the GLUT loop, in any
    arithmetic: a cloth of 50 by 50 particles with the six pins of its top
    row and the sphere as its one collider; one sphere on the heap, of
    radius 1 * 0.5 (the radius times the scale), with the global [sphere]
    pointer on it; a mesh of whole pairs of triangles; the actors, sphere
    then cloth.  Every pointer of these globals is live. *)
Theorem main_sets_up (fuel : nat) (w : World F) :
  main fuel = Ok (Some w) ->
  world_live w /\
  shaped (particles (w_cloth w)) 50 50 /\
  pins_are (w_cloth w) [(0, 0); (0, 1); (0, 2); (0, 49); (0, 48); (0, 47)] /\
  potentialColliders (w_cloth w) = [0] /\
  w_actors w = [ActorSphere 0; ActorCloth] /\
  sphere (w_globals w) = Some 0 /\
  exists s m k,
    heap (w_globals w) = [s] /\ sph_radius s = fmul fone (flit 5 10) /\
    w_meshes w = [m] /\ length (sm_vertices m) = 36 * k.
Proof.
  intros Hmain. split; [by eapply main_live|].
  apply main_Ok in Hmain as (vertices & cloth & Hv & Hcloth & ->).
  destruct (ClothSheet_new_Ok _ _ _ _ _ Hcloth)
    as (_ & Hshape & Hpins & Hnone & _); [unfold is_int; lia..|].
  apply generateSpherifiedCube_whole in Hv as [k Hk].
  cbn [w_cloth w_actors w_globals w_meshes heap sphere pushCollidable
       particles potentialColliders].
  split; [exact Hshape|]. split; [exact Hpins|]. split; [by rewrite Hnone|].
  split; [done|]. split; [done|]. by eexists _, _, k.
Qed.

(** X24. [driver] on live globals returns live globals, or fails by a
    division that the arithmetic leaves undefined (binary32 has none): no
    [at] throws and no pointer dangles, whatever the clock reads.  When it
    issues no OpenGL call it has not stepped the simulation either: cloth,
    wind and spheres are as they were. *)
Theorem driver_memory_safe (currT : Z) w :
  world_live w ->
  match driver currT w with
  | Ok (w', calls) =>
      world_live w' /\
      (calls = [] ->
       w_cloth w' = w_cloth w /\ w_wind w' = w_wind w /\
       w_globals w' = w_globals w)
  | Err e => e = DivByZero /\ exists a b : F, fdiv a b = None
  end.
Proof.
  intros Hw. pose proof (driver_yields currT w Hw) as Hy.
  destruct (driver currT w) as [[w' calls]|e] eqn:Hrun; [|exact Hy].
  split; [exact Hy|]. intros ->.
  by apply driver_Ok in Hrun as [[_ [->| ->]]|[[? _]|[? _]]].
Qed.

(** X25. [keyboardHandler] on live globals never fails, whatever the key.
    It exits exactly on key 27; on every other key the globals stay live,
    and the keys that issue OpenGL calls (the four cameras) change no
    global of the program. *)
Theorem keyboardHandler_never_fails (key : Z) w :
  world_live w ->
  match keyboardHandler key w with
  | Ok Exited => key = 27%Z
  | Ok (Running w' calls) =>
      key <> 27%Z /\ world_live w' /\ (calls <> [] -> w' = w)
  | Err _ => False
  end.
Proof.
  intros Hw. destruct (keyboardHandler_live key w Hw) as (r & Hrun & Hr).
  rewrite Hrun. destruct r as [|w' calls]; [done|].
  destruct Hr as [Hkey Hw']. split; [done|]. split; [done|].
  intros Hcalls.
  apply keyboardHandler_Ok in Hrun
    as (_ & [->|[(_ & -> & _)|[(_ & -> & _)|[(_ & -> & _)|(_ & -> & _)]]]]);
    done.
Qed.

(** X26. The program is memory safe.  From the globals that [main] sets
    up, any sequence of callbacks (idle with any readings of the clock,
    display, any keys) leaves live globals, or ends in [exit(0)] after an
    escape key, or fails by a division that the arithmetic leaves
    undefined; in binary32, where every quotient is defined, it never
    fails. *)
Theorem program_memory_safe (fuel : nat) w (events : list event) :
  main fuel = Ok (Some w) ->
  match run w events with
  | Ok Exited => Keyboard 27 ∈ events
  | Ok (Running w' _) => world_live w'
  | Err e => e = DivByZero /\ exists a b : F, fdiv a b = None
  end.
Proof.
  intros Hw%main_live. pose proof (run_yields w events Hw) as Hy.
  destruct (run w events) as [[|w' calls]|e] eqn:Hrun; [|exact Hy..].
  by eapply run_Exited.
Qed.

(** X27. A paused program stands still: while [paused] is set, any
    sequence of idle and display callbacks leaves the cloth, the wind and
    the spheres exactly as they were, whatever time passes, and [paused]
    stays set; such callbacks never exit, and fail only where drawing
    divides by zero in an arithmetic that leaves it undefined. *)
Theorem paused_world_is_frozen w (events : list event) :
  world_live w -> paused w = true -> Forall is_frame events ->
  match run w events with
  | Ok Exited => False
  | Ok (Running w' _) =>
      w_cloth w' = w_cloth w /\ w_wind w' = w_wind w /\
      w_globals w' = w_globals w /\ paused w' = true
  | Err e => e = DivByZero /\ exists a b : F, fdiv a b = None
  end.
Proof.
  intros Hw Hp Hframes. pose proof (run_yields w events Hw) as Hy.
  destruct (run w events) as [[|w' calls]|e] eqn:Hrun; [| |exact Hy].
  - apply run_Exited in Hrun. rewrite Forall_forall in Hframes.
    exact (Hframes _ Hrun).
  - revert Hrun.
    apply (run_invariant
             (fun v => w_cloth v = w_cloth w /\ w_wind v = w_wind w /\
                       w_globals v = w_globals w /\ paused v = true));
      [|done].
    intros v e v' c He (Hc & Hwd & Hg & Hpv) Hstep.
    rewrite Forall_forall in Hframes. specialize (Hframes _ He).
    apply react_Running in Hstep
      as [[t [->| ->]]|[(t & w1 & dt & _ & Hpf & _)
         |[[-> _]|[[-> _]|[[-> _]|[-> _]]]]]];
      try done.
    congruence.
Qed.

(** X28. A dropped cloth stays dropped: after the space bar, whatever
    callbacks follow (frames, further keys), no particle of the cloth is
    pinned and the queue of pins is empty. *)
Theorem dropped_cloth_stays_dropped w (events : list event) :
  world_live w ->
  match run w (Keyboard 32 :: events) with
  | Ok Exited => Keyboard 27 ∈ events
  | Ok (Running w' _) =>
      no_pin (w_cloth w') /\ pinnedParticles (w_cloth w') = []
  | Err e => e = DivByZero /\ exists a b : F, fdiv a b = None
  end.
Proof.
  intros Hw.
  pose proof (run_yields w (Keyboard 32 :: events) Hw) as Hy.
  destruct (run w (Keyboard 32 :: events)) as [[|w' calls]|e] eqn:Hrun;
    [| |exact Hy].
  - apply run_Exited in Hrun. by apply elem_of_cons in Hrun as [|].
  - cbn [run react] in Hrun.
    change (keyboardHandler 32 w)
      with (do cs <- detach (w_cloth w); Ok (Running (with_cloth w cs) []))
      in Hrun.
    inv_bind Hrun as r Hr. inv_bind Hr as cs Hcs. injection Hr as <-.
    inv_bind Hrun as r' Hr'. destruct r' as [|w2 more]; [done|].
    injection Hrun as <- _.
    destruct Hw as (Hreach & _).
    destruct (detach_queue_ok _ (reachable_queue_ok _ Hreach))
      as (cs' & Hdet & Hnone & Hq & _).
    assert (cs' = cs) as -> by congruence.
    revert Hr'.
    apply (run_invariant
             (fun v => no_pin (w_cloth v) /\ pinnedParticles (w_cloth v) = []));
      [|done].
    intros v e v' c _ [Hn Hqv] Hstep.
    apply react_Running in Hstep
      as [[t [->| ->]]|[(t & w1 & dt & _ & _ & Hup & ->)
         |[(_ & cs1 & Hd & ->)|[[_ ->]|[[_ ->]|(_ & a & s & _ & _ & ->)]]]]];
      try done.
    + apply update_Ok in Hup as (a & s & _ & _ & _ & _ & Hmove & _).
      apply move_keeps_pins in Hmove as (Hrel & _ & Hq').
      cbn [w_cloth with_lastUpdateT]. split; [|by rewrite Hq'].
      intros b p. by apply (no_pin_rel _ _ Hrel).
    + unfold detach in Hd. rewrite Hqv in Hd. cbn [foldM rbind] in Hd.
      injection Hd as <-. done.
Qed.

(** X29. What the program never changes after [main], whatever callbacks
    run: the global [sphere] pointer and the cloth's one collider are the
    one sphere of the heap, whose radius stays 1 * 0.5; the grid stays 50
    by 50; the springs, the meshes and the actors are those of [main]. *)
Theorem program_constants (fuel : nat) w (events : list event) :
  main fuel = Ok (Some w) ->
  match run w events with
  | Ok (Running w' _) =>
      sphere (w_globals w') = Some 0 /\
      potentialColliders (w_cloth w') = [0] /\
      (exists s, heap (w_globals w') = [s] /\
                 sph_radius s = fmul fone (flit 5 10)) /\
      shaped (particles (w_cloth w')) 50 50 /\
      springs (w_cloth w') = springs (w_cloth w) /\
      w_meshes w' = w_meshes w /\ w_actors w' = w_actors w
  | _ => True
  end.
Proof.
  intros Hmain. pose proof (main_live _ _ Hmain) as Hw.
  destruct (run w events) as [[|w' calls]|e] eqn:Hrun; [done| |done].
  assert (sound 50 50 (w_cloth w) /\ sphere (w_globals w) = Some 0 /\
          potentialColliders (w_cloth w) = [0] /\
          exists s, heap (w_globals w) = [s] /\
                    sph_radius s = fmul fone (flit 5 10)) as Hinit.
  { apply main_Ok in Hmain as (vertices & cloth & _ & Hcloth & ->).
    destruct (ClothSheet_new_Ok _ _ _ _ _ Hcloth)
      as (_ & _ & _ & Hnone & _); [unfold is_int; lia..|].
    split; [|split; [done|split; [by cbn; rewrite Hnone|by eexists]]].
    exact (ClothSheet_new_sound _ _ _ _ _ Hcloth
             ltac:(unfold is_int; lia) ltac:(unfold is_int; lia)). }
  revert Hrun.
  enough (run w events = Ok (Running w' calls) ->
          (sound 50 50 (w_cloth w') /\ sphere (w_globals w') = Some 0 /\
           potentialColliders (w_cloth w') = [0] /\
           exists s, heap (w_globals w') = [s] /\
                     sph_radius s = fmul fone (flit 5 10)) /\
          springs (w_cloth w') = springs (w_cloth w) /\
          w_meshes w' = w_meshes w /\ w_actors w' = w_actors w) as Henough.
  { intros Hrun.
    destruct (Henough Hrun) as ((Hs & Hsp & Hc & Hh) & Hspr & Hm & Ha).
    repeat split; try done. all: apply Hs. }
  apply (run_invariant
           (fun v => (sound 50 50 (w_cloth v) /\ sphere (w_globals v) = Some 0 /\
                      potentialColliders (w_cloth v) = [0] /\
                      exists s, heap (w_globals v) = [s] /\
                                sph_radius s = fmul fone (flit 5 10)) /\
                     springs (w_cloth v) = springs (w_cloth w) /\
                     w_meshes v = w_meshes w /\ w_actors v = w_actors w));
    [|done].
  intros v e v' c _ HI Hstep.
  pose proof HI as ((Hs & Hsp & Hc & s0 & Hh & Hr) & Hspr & Hm & Ha).
  apply react_Running in Hstep
    as [[t [->| ->]]|[(t & w1 & dt & _ & _ & Hup & ->)
       |[(_ & cs1 & Hd & ->)|[[_ ->]|[[_ ->]|(_ & a & s & Ha' & Hs' & ->)]]]]];
    [exact HI|exact HI|..].
  - apply update_Ok in Hup
      as (a & s & Ha' & Hs' & Hg & _ & Hmove & Hm' & Hact' & _).
    assert (a = 0) as -> by congruence.
    rewrite Hh in Hs', Hg. injection Hs' as <-. cbn [insert list_insert] in Hg.
    cbn [w_cloth w_globals w_meshes w_actors with_lastUpdateT].
    pose proof (move_springs _ _ _ _ Hmove) as Hspr'.
    pose proof (move_sound _ _ _ _ _ _ Hmove Hs) as Hs1.
    apply move_keeps_pins in Hmove as (_ & Hc' & _).
    cbn [applyWindForce potentialColliders springs] in Hc', Hspr'.
    rewrite Hg. cbn [sphere heap].
    split; [|repeat split; congruence].
    split; [done|]. split; [done|]. split; [congruence|].
    eexists. split; [done|]. unfold Sphere_move.
    by destruct (sph_isMoving s0).
  - cbn [w_cloth w_globals w_meshes w_actors with_cloth].
    pose proof (detach_sound _ _ _ _ Hd Hs) as Hs1.
    unfold detach in Hd. inv_bind Hd as g Hg. injection Hd as <-.
    cbn [springs potentialColliders].
    split; [|by repeat split].
    split; [done|]. split; [done|]. split; [done|]. by exists s0.
  - exact HI.
  - exact HI.
  - assert (a = 0) as -> by congruence.
    rewrite Hh in Hs'. injection Hs' as <-.
    cbn [w_cloth w_globals w_meshes w_actors with_heap heap sphere].
    rewrite Hh. cbn [insert list_insert].
    split; [|by repeat split].
    split; [done|]. split; [done|]. split; [done|]. by eexists.
Qed.
End ProgramTheorems.

Lemma cloth44_sound : sound 4 4 Scene.cloth44.
Proof.
  exact (ClothSheet_new_sound _ _ 4 4 _ cloth44_new_constructed
           ltac:(unfold is_int; lia) ltac:(unfold is_int; lia)).
Qed.

Lemma world44_live : world_live ProgramScene.world44.
Proof.
  split; [exact cloth44_reachable|]. split.
  - split; [exists 0; split; [done|by eexists]|].
    constructor; [by eexists|constructor].
  - constructor; [|constructor; [done|constructor]].
    split; [by eexists|]. eexists. by exists 1.
Qed.

Lemma paused_world44_live : world_live (pause ProgramScene.world44).
Proof. exact world44_live. Qed.

(** In binary32 the counters of [generateCube(16, vertices)] are exact:
    each loop takes 33 turns. *)
Lemma cube_faces_binary32 (vs : list Binary32.float32) :
  cube_faces 34 ProgramScene.sixteenth vs
  = Some (vs ++ cube_mesh ProgramScene.sixteenth 33 33).
Proof.
  apply cube_faces_mesh; [| | | |lia|lia].
  - intros k Hk.
    do 33 (destruct k as [|k]; [vm_compute; reflexivity|]). lia.
  - vm_compute. reflexivity.
  - intros k Hk.
    do 33 (destruct k as [|k]; [vm_compute; reflexivity|]). lia.
  - vm_compute. reflexivity.
Qed.

Lemma spherified_cube_binary32 :
  exists vs : list Binary32.float32,
    generateSpherifiedCube 34 16 [] = Ok (Some vs).
Proof.
  unfold generateSpherifiedCube, generateCube.
  change (fdivide fone (flit 16 1)) with (Ok ProgramScene.sixteenth).
  cbn [rbind]. rewrite cube_faces_binary32. cbn [app].
  destruct (spherify_total (cube_mesh ProgramScene.sixteenth 33 33)
              (12 * (33 * 33 + 33 * 33 + 33 * 33)))
    as (vs & -> & _).
  - rewrite cube_mesh_length. lia.
  - intros k v _. unfold normalize, vdiv, fdivide. cbn [fdiv Binary32.ops].
    cbn [of_option rbind]. by eexists.
  - by exists vs.
Qed.

Lemma turns_up_binary32 (k : nat) :
  k < 33 ->
  fleb (up_at ProgramScene.sixteenth (flit (-1) 1 : Binary32.float32) k) fone
  = true.
Proof.
  intros Hk. do 33 (destruct k as [|k]; [vm_compute; reflexivity|]). lia.
Qed.

Lemma turns_down_binary32 (k : nat) :
  k < 33 ->
  fleb (flit (-1) 1 : Binary32.float32)
       (down_at ProgramScene.sixteenth fone k)
  = true.
Proof.
  intros Hk. do 33 (destruct k as [|k]; [vm_compute; reflexivity|]). lia.
Qed.

(** [generateCube(16, vertices)] of [main] in binary32: the counters are
    exact, each loop takes 33 turns, 117612 coordinates. *)
Lemma generateCube_size_witness :
  generateCube 34 16 ([] : list Binary32.float32)
  = Ok (Some ([] ++ cube_mesh ProgramScene.sixteenth 33 33)) /\
  length (cube_mesh ProgramScene.sixteenth 33 33)
  = 36 * (33 * 33 + 33 * 33 + 33 * 33).
Proof.
  apply (generateCube_size 34 16 ProgramScene.sixteenth 33 33 []).
  - vm_compute. reflexivity.
  - exact turns_up_binary32.
  - vm_compute. reflexivity.
  - exact turns_down_binary32.
  - vm_compute. reflexivity.
  - lia.
  - lia.
Defined.

Lemma generateCube_binary32 :
  generateCube 34 16 ([] : list Binary32.float32)
  = Ok (Some (cube_mesh ProgramScene.sixteenth 33 33)).
Proof.
  unfold generateCube.
  change (fdivide fone (flit 16 1)) with (Ok ProgramScene.sixteenth).
  cbn [rbind]. by rewrite cube_faces_binary32.
Qed.

Lemma normalize_binary32 (v : vec3 Binary32.float32) :
  exists u, normalize v = Ok u.
Proof.
  unfold normalize, vdiv, fdivide. cbn [fdiv Binary32.ops of_option rbind].
  by eexists.
Qed.

(** The sphere of [main] in binary32: each of its 39204 vertices is the
    normalized vertex of the cube. *)
Lemma spherified_cube_normalized_witness :
  exists ws : list Binary32.float32,
    generateSpherifiedCube 34 16 [] = Ok (Some ws) /\
    length ws = length (cube_mesh ProgramScene.sixteenth 33 33) /\
    forall k v,
      vertex_at (cube_mesh ProgramScene.sixteenth 33 33) (3 * k) = Ok v ->
      exists u, normalize v = Ok u /\ vertex_at ws (3 * k) = Ok u.
Proof.
  apply (spherified_cube_normalized 34 16
           (cube_mesh ProgramScene.sixteenth 33 33) generateCube_binary32).
  intros k v _. exact (normalize_binary32 v).
Defined.

Lemma main_binary32 :
  exists w : World Binary32.float32, main 34 = Ok (Some w).
Proof.
  unfold main. destruct spherified_cube_binary32 as [vs ->]. cbn [rbind].
  destruct (ClothSheet_new_total
              (mkvec3 (flit (-1) 1) fone (flit (-2) 1) : vec3 Binary32.float32)
              (mkvec4 (flit 212 1000) (flit 969 1000) (flit 627 1000) fone)
              50 50) as [cs ->]; [lia|lia|by eexists|by eexists|].
  cbn [rbind]. by eexists.
Qed.

Lemma Sphere_draw_whole_mesh_witness :
  length (sm_vertices ProgramScene.quad_mesh) = 18 * 1 /\
  match Sphere_draw Scene.sphere0 ProgramScene.quad_mesh with
  | Ok calls =>
      drawn_vertices calls = triples (sm_vertices ProgramScene.quad_mesh) /\
      length (drawn_normals calls) = 1
  | Err e => e = DivByZero /\ exists a b : Binary32.float32, fdiv a b = None
  end.
Proof.
  split; [reflexivity|].
  exact (Sphere_draw_whole_mesh Scene.sphere0 ProgramScene.quad_mesh 1
           eq_refl).
Defined.

Lemma Sphere_draw_cut_short_witness :
  length (sm_vertices ProgramScene.short_mesh) = 18 * 0 + 6 /\ 0 < 6 < 9 /\
  match Sphere_draw Scene.sphere0 ProgramScene.short_mesh with
  | Ok _ => False
  | Err e =>
      e = OutOfRange \/
      (e = DivByZero /\ exists a b : Binary32.float32, fdiv a b = None)
  end.
Proof.
  split; [reflexivity|]. split; [lia|].
  apply (Sphere_draw_cut_short Scene.sphere0 ProgramScene.short_mesh 0 6);
    [reflexivity|lia].
Defined.

Lemma ClothSheet_draw_safe_witness :
  sound 4 4 Scene.cloth44 /\
  match ClothSheet_draw Scene.cloth44 with
  | Ok calls =>
      map Some (drawn_vertices calls)
      = map (fun a => position <$> look (particles Scene.cloth44) a)
            (cloth_triangles 4 4) /\
      length (drawn_normals calls) = 2 * ((4 - 1) * (4 - 1))
  | Err e => e = DivByZero /\ exists a b : Binary32.float32, fdiv a b = None
  end.
Proof.
  split; [exact cloth44_sound|].
  exact (ClothSheet_draw_safe Scene.cloth44 4 4 cloth44_sound).
Defined.

Lemma main_sets_up_witness :
  exists w : World Binary32.float32,
    main 34 = Ok (Some w) /\
    (world_live w /\
     shaped (particles (w_cloth w)) 50 50 /\
     pins_are (w_cloth w)
       [(0, 0); (0, 1); (0, 2); (0, 49); (0, 48); (0, 47)] /\
     potentialColliders (w_cloth w) = [0] /\
     w_actors w = [ActorSphere 0; ActorCloth] /\
     sphere (w_globals w) = Some 0 /\
     exists s m k,
       heap (w_globals w) = [s] /\ sph_radius s = fmul fone (flit 5 10) /\
       w_meshes w = [m] /\ length (sm_vertices m) = 36 * k).
Proof.
  destruct main_binary32 as [w Hw]. exists w.
  split; [exact Hw|]. exact (main_sets_up 34 w Hw).
Defined.

Lemma driver_memory_safe_witness :
  world_live ProgramScene.world44 /\
  match driver 1017 ProgramScene.world44 with
  | Ok (w', calls) =>
      world_live w' /\
      (calls = [] ->
       w_cloth w' = w_cloth ProgramScene.world44 /\
       w_wind w' = w_wind ProgramScene.world44 /\
       w_globals w' = w_globals ProgramScene.world44)
  | Err e => e = DivByZero /\ exists a b : Binary32.float32, fdiv a b = None
  end.
Proof.
  split; [exact world44_live|].
  exact (driver_memory_safe 1017 ProgramScene.world44 world44_live).
Defined.

Lemma keyboardHandler_never_fails_witness :
  world_live ProgramScene.world44 /\
  match keyboardHandler 32 ProgramScene.world44 with
  | Ok Exited => 32%Z = 27%Z
  | Ok (Running w' calls) =>
      32%Z <> 27%Z /\ world_live w' /\
      (calls <> [] -> w' = ProgramScene.world44)
  | Err _ => False
  end.
Proof.
  split; [exact world44_live|].
  exact (keyboardHandler_never_fails 32 ProgramScene.world44 world44_live).
Defined.

Lemma program_memory_safe_witness :
  exists w : World Binary32.float32,
    main 34 = Ok (Some w) /\
    match run w [Idle 1000; Idle 1017; Keyboard 32; Idle 1040;
                 Keyboard 120; Display] with
    | Ok Exited =>
        Keyboard 27 ∈ [Idle 1000; Idle 1017; Keyboard 32; Idle 1040;
                       Keyboard 120; Display]
    | Ok (Running w' _) => world_live w'
    | Err e => e = DivByZero /\ exists a b : Binary32.float32, fdiv a b = None
    end.
Proof.
  destruct main_binary32 as [w Hw]. exists w. split; [exact Hw|].
  exact (program_memory_safe 34 w
           [Idle 1000; Idle 1017; Keyboard 32; Idle 1040; Keyboard 120;
            Display] Hw).
Defined.

Lemma paused_world_is_frozen_witness :
  world_live (pause ProgramScene.world44) /\
  paused (pause ProgramScene.world44) = true /\
  Forall is_frame [Idle 1017; Display; Idle 1040] /\
  match run (pause ProgramScene.world44) [Idle 1017; Display; Idle 1040] with
  | Ok Exited => False
  | Ok (Running w' _) =>
      w_cloth w' = w_cloth (pause ProgramScene.world44) /\
      w_wind w' = w_wind (pause ProgramScene.world44) /\
      w_globals w' = w_globals (pause ProgramScene.world44) /\
      paused w' = true
  | Err e => e = DivByZero /\ exists a b : Binary32.float32, fdiv a b = None
  end.
Proof.
  assert (Forall is_frame [Idle 1017; Display; Idle 1040]) as Hframes
    by (repeat constructor).
  split; [exact paused_world44_live|]. split; [reflexivity|].
  split; [exact Hframes|].
  exact (paused_world_is_frozen (pause ProgramScene.world44)
           [Idle 1017; Display; Idle 1040]
           paused_world44_live eq_refl Hframes).
Defined.

Lemma dropped_cloth_stays_dropped_witness :
  world_live ProgramScene.world44 /\
  match run ProgramScene.world44
            (Keyboard 32 :: [Idle 1017; Idle 1040]) with
  | Ok Exited => Keyboard 27 ∈ [Idle 1017; Idle 1040]
  | Ok (Running w' _) =>
      no_pin (w_cloth w') /\ pinnedParticles (w_cloth w') = []
  | Err e => e = DivByZero /\ exists a b : Binary32.float32, fdiv a b = None
  end.
Proof.
  split; [exact world44_live|].
  exact (dropped_cloth_stays_dropped ProgramScene.world44
           [Idle 1017; Idle 1040] world44_live).
Defined.

Lemma program_constants_witness :
  exists w : World Binary32.float32,
    main 34 = Ok (Some w) /\
    match run w [Idle 1000; Idle 1017; Keyboard 120; Idle 1040] with
    | Ok (Running w' _) =>
        sphere (w_globals w') = Some 0 /\
        potentialColliders (w_cloth w') = [0] /\
        (exists s, heap (w_globals w') = [s] /\
                   sph_radius s = fmul fone (flit 5 10)) /\
        shaped (particles (w_cloth w')) 50 50 /\
        springs (w_cloth w') = springs (w_cloth w) /\
        w_meshes w' = w_meshes w /\ w_actors w' = w_actors w
    | _ => True
    end.
Proof.
  destruct main_binary32 as [w Hw]. exists w. split; [exact Hw|].
  exact (program_constants 34 w
           [Idle 1000; Idle 1017; Keyboard 120; Idle 1040] Hw).
Defined.

Lemma spherified_cube_draws_witness :
  exists vs : list Binary32.float32,
    generateSpherifiedCube 34 16 [] = Ok (Some vs) /\
    match Sphere_draw Scene.sphere0
            (mkSphereMesh ProgramScene.sphereScale Scene.clothColor vs) with
    | Ok calls =>
        drawn_vertices calls = triples vs /\
        6 * length (drawn_normals calls) = length (drawn_vertices calls)
    | Err e => e = DivByZero /\ exists a b : Binary32.float32, fdiv a b = None
    end.
Proof.
  destruct spherified_cube_binary32 as [vs Hvs]. exists vs.
  split; [exact Hvs|].
  exact (spherified_cube_draws 34 16 Scene.sphere0
           (mkSphereMesh ProgramScene.sphereScale Scene.clothColor vs) Hvs).
Defined.


(** * Relaxation in binary32 *)

Section Rest32Facts.
Import Binary32 Rest32.
Implicit Types (a b : float32) (g : grid float32) (s : Spring float32).
Implicit Types (p q : Particle float32) (v : vec3 float32).
Implicit Types (cs : ClothSheet float32).

(** *** The arithmetic *)

Lemma SFdiv_self m e :
  SFdiv prec emax (S754_finite false m e) (S754_finite false m e)
  = S754_finite false 8388608 (-23).
Proof.
  unfold SFdiv, SFdiv_core_binary.
  replace (Zdigits2 (Zpos m) + e - (Zdigits2 (Zpos m) + e))%Z with 0%Z by lia.
  rewrite Z.sub_diag.
  change (Z.min (fexp prec emax 0) 0) with (-24)%Z.
  change (0 - -24)%Z with 24%Z. cbv iota beta.
  rewrite Z.shiftl_mul_pow2 by lia.
  assert (Z.div_eucl (Z.pos m * 2 ^ 24) (Z.pos m) = (2 ^ 24, 0)%Z) as ->.
  { pose proof (Z.div_mul (2 ^ 24) (Z.pos m) ltac:(lia)) as Hq.
    pose proof (Z.mod_mul (2 ^ 24) (Z.pos m) ltac:(lia)) as Hr.
    rewrite (Z.mul_comm (Z.pos m)).
    unfold Z.div, Z.modulo in Hq, Hr.
    destruct (Z.div_eucl (2 ^ 24 * Z.pos m) (Z.pos m)) as [q r].
    cbn [fst snd] in Hq, Hr. by subst. }
  assert (new_location (Z.pos m) 0 = loc_Exact) as ->.
  { unfold new_location, new_location_even, new_location_odd.
    by destruct (Z.even (Z.pos m)). }
  vm_compute. reflexivity.
Qed.

Lemma SFsqrt_finite a (sg : bool) m e :
  SFsqrt prec emax a = S754_finite sg m e ->
  exists m' e', a = S754_finite false m' e'.
Proof.
  destruct a as [sa|sa| |sa ma ea]; try destruct sa; try discriminate.
  by eexists _, _.
Qed.

Lemma SFadd_fin a b : finite (SFadd prec emax a b) -> finite a /\ finite b.
Proof.
  destruct a as [sa|sa| |sa ma ea], b as [sb|sb| |sb mb eb];
    try destruct sa; try destruct sb; cbn [SFadd finite]; try done.
Qed.

Lemma SFmul_fin a b : finite (SFmul prec emax a b) -> finite a /\ finite b.
Proof.
  destruct a as [sa|sa| |sa ma ea], b as [sb|sb| |sb mb eb];
    cbn [SFmul finite]; try done.
Qed.

Lemma magnitude_fin v (sg : bool) m e :
  magnitude v = S754_finite sg m e -> finite (x v) /\ finite (y v) /\ finite (z v).
Proof.
  unfold magnitude. cbn [fsqrt fadd fmul ops]. intros Hm.
  apply SFsqrt_finite in Hm as (m' & e' & Hsum).
  assert (finite (SFadd prec emax
                 (SFadd prec emax (SFmul prec emax (x v) (x v))
                                  (SFmul prec emax (y v) (y v)))
                 (SFmul prec emax (z v) (z v)))) as Hfin by by rewrite Hsum.
  apply SFadd_fin in Hfin as [Hxy Hz]. apply SFadd_fin in Hxy as [Hx Hy].
  apply SFmul_fin in Hx as [Hx _], Hy as [Hy _], Hz as [Hz _]. done.
Qed.

(** A finite number times a zero, and that times one half. *)
Lemma SFmul_zero a sb : finite a -> is_zero (SFmul prec emax a (S754_zero sb)).
Proof. by destruct a. Qed.

Lemma SFmul_half a :
  is_zero a -> is_zero (SFmul prec emax a (flit 1 2)).
Proof. by destruct a. Qed.

Lemma settles_refl a : settles a a.
Proof. by left. Qed.

Lemma settles_trans a b c : settles a b -> settles b c -> settles a c.
Proof.
  intros [->|[-> ->]] [->|[Hb ->]]; try (by left); by right.
Qed.

Lemma settles_sub a c : is_zero c -> settles a (SFsub prec emax a c).
Proof.
  destruct c as [sc| | |]; try done. intros _.
  destruct a as [sa|sa| |sa ma ea]; try (by left).
  destruct sa, sc; cbn [SFsub]; (by left) || (by right).
Qed.

Lemma settles_add a c : is_zero c -> settles a (SFadd prec emax a c).
Proof.
  destruct c as [sc| | |]; try done. intros _.
  destruct a as [sa|sa| |sa ma ea]; try (by left).
  destruct sa, sc; cbn [SFadd]; (by left) || (by right).
Qed.

Lemma settles_positive a b : a <> S754_zero true -> settles a b -> b = a.
Proof. by intros Ha [->|[-> _]]. Qed.

Lemma settles_alike a b : settles a b -> alike a b.
Proof. intros [->|[-> ->]]; [by left|by right]. Qed.

Lemma SFsub_alike a a' b b' :
  alike a a' -> alike b b' ->
  alike (SFsub prec emax a b) (SFsub prec emax a' b').
Proof.
  intros [->|[Ha Ha']] [->|[Hb Hb']]; [by left|..].
  - destruct b as [sb| | |], b' as [sb'| | |]; try done.
    destruct a' as [sa|sa| |sa ma ea]; [|by left..].
    right. by destruct sa, sb, sb'.
  - destruct a as [sa| | |], a' as [sa'| | |]; try done.
    destruct b' as [sb|sb| |sb mb eb]; [|by left..].
    right. by destruct sa, sa', sb.
  - destruct a as [sa| | |], a' as [sa'| | |]; try done.
    destruct b as [sb| | |], b' as [sb'| | |]; try done.
    right. by destruct sa, sa', sb, sb'.
Qed.

Lemma SFmul_square a a' :
  alike a a' -> SFmul prec emax a a = SFmul prec emax a' a'.
Proof.
  intros [->|[Ha Ha']]; [done|].
  destruct a as [sa| | |], a' as [sa'| | |]; try done.
  by destruct sa, sa'.
Qed.

Lemma magnitude_alike v v' :
  alike (x v) (x v') -> alike (y v) (y v') -> alike (z v) (z v') ->
  magnitude v = magnitude v'.
Proof.
  intros Hx Hy Hz. unfold magnitude. cbn [fsqrt fadd fmul ops].
  by rewrite (SFmul_square _ _ Hx), (SFmul_square _ _ Hy),
    (SFmul_square _ _ Hz).
Qed.

(** *** The particles *)

Lemma settled_refl p : settled p p.
Proof. repeat split; apply settles_refl. Qed.

Lemma settled_trans p q r : settled p q -> settled q r -> settled p r.
Proof.
  intros (Hx & Hy & Hz & H1 & H2 & H3 & H4 & H5)
         (Hx' & Hy' & Hz' & H1' & H2' & H3' & H4' & H5').
  repeat split; try congruence; by eapply settles_trans.
Qed.

Lemma settled_positive p q :
  x (position p) <> S754_zero true -> y (position p) <> S754_zero true ->
  z (position p) <> S754_zero true -> settled p q -> q = p.
Proof.
  intros Hx Hy Hz (Hx' & Hy' & Hz' & H1 & H2 & H3 & H4 & H5).
  apply settles_positive in Hx', Hy', Hz'; try done.
  destruct p as [[px py pz] pp pa pc pm pb], q as [[qx qy qz] qp qa qc qm qb].
  cbn in *. by subst.
Qed.

(** The correction of a spring at rest is a vector of zeros. *)
Lemma rest_correction v m e :
  magnitude v = S754_finite false m e ->
  let c := vmul (vmul v (fsub fone (SFdiv prec emax (S754_finite false m e)
                                          (magnitude v))))
                (flit 1 2) in
  is_zero (x c) /\ is_zero (y c) /\ is_zero (z c).
Proof.
  intros Hm c. subst c. rewrite Hm, SFdiv_self.
  destruct (magnitude_fin _ _ _ _ Hm) as (Hx & Hy & Hz).
  cbn [x y z vmul fmul fsub ops].
  change (SFsub prec emax fone (S754_finite false 8388608 (-23)))
    with (S754_zero false).
  repeat split; by apply SFmul_half, SFmul_zero.
Qed.

Lemma settled_sub p v :
  is_zero (x v) -> is_zero (y v) -> is_zero (z v) ->
  settled p (set_position p (vsub (position p) v)).
Proof.
  intros Hx Hy Hz. repeat split; cbn [position set_position vsub x y z];
    by apply settles_sub.
Qed.

Lemma settled_add p v :
  is_zero (x v) -> is_zero (y v) -> is_zero (z v) ->
  settled p (set_position p (vadd (position p) v)).
Proof.
  intros Hx Hy Hz. repeat split; cbn [position set_position vadd x y z];
    by apply settles_add.
Qed.

Lemma at_rest_settled g g' s :
  at_rest32 g s -> grid_rel settled g g' -> at_rest32 g' s.
Proof.
  intros (q0 & q1 & H0 & H1 & Hlen & Hrest) Hrel.
  apply deref_Ok in H0 as (a0 & Hp0 & Ha0).
  apply deref_Ok in H1 as (a1 & Hp1 & Ha1).
  destruct (grid_rel_look _ _ _ _ _ Hrel Ha0)
    as (q0' & Hq0' & Hx0 & Hy0 & Hz0 & _).
  destruct (grid_rel_look _ _ _ _ _ Hrel Ha1)
    as (q1' & Hq1' & Hx1 & Hy1 & Hz1 & _).
  exists q0', q1'. rewrite Hp0, Hp1. cbn [deref]. rewrite Hq0', Hq1'.
  split; [done|]. split; [done|]. split; [|done].
  rewrite <- Hlen. symmetry.
  apply magnitude_alike; cbn [vsub x y z fsub ops];
    apply SFsub_alike; by apply settles_alike.
Qed.

(** One spring at rest: nothing moves. *)
Lemma relax_spring_rest32 g s :
  at_rest32 g s ->
  exists g', relax_spring g s = Ok g' /\ grid_rel settled g g' /\
             (positive_zeros g -> g' = g).
Proof.
  intros (q0 & q1 & H0 & H1 & Hlen & m & e & Hrest). unfold relax_spring.
  rewrite H0, H1. cbn [rbind]. unfold fdivide. cbn [fdiv ops of_option rbind].
  rewrite Hrest in Hlen.
  destruct (rest_correction _ _ _ Hlen) as (Hx & Hy & Hz).
  rewrite Hrest.
  set (c := vmul (vmul _ _) (flit 1 2)) in *.
  apply deref_Ok in H0 as (a0 & Hp0 & Ha0).
  apply deref_Ok in H1 as (a1 & Hp1 & Ha1).
  rewrite Hp0, Hp1.
  set (g1 := if pinned q0 then g
             else store g (Some a0)
                    (set_position q0 (vsub (position q0) c))).
  assert (grid_rel settled g g1) as Hrel1.
  { unfold g1. destruct (pinned q0).
    - apply grid_rel_refl, settled_refl.
    - eapply grid_rel_store; [exact settled_refl|exact Ha0|].
      by apply settled_sub. }
  destruct (grid_rel_look _ _ _ _ _ Hrel1 Ha1) as (q1' & Hq1' & Hs1).
  cbn [deref]. rewrite Hq1'. cbn [of_option rbind].
  eexists. split; [done|]. split.
  - eapply grid_rel_trans; [exact settled_trans|exact Hrel1|].
    destruct (pinned q1').
    + apply grid_rel_refl, settled_refl.
    + eapply grid_rel_store; [exact settled_refl|exact Hq1'|].
      by apply settled_add.
  - intros Hpos.
    destruct (Hpos _ _ Ha0) as (Hx0 & Hy0 & Hz0).
    destruct (Hpos _ _ Ha1) as (Hx1 & Hy1 & Hz1).
    assert (g1 = g) as Hg1.
    { unfold g1. destruct (pinned q0); [done|].
      rewrite (settled_positive q0 _ Hx0 Hy0 Hz0 (settled_sub q0 c Hx Hy Hz)).
      by apply store_same. }
    rewrite Hg1 in *. assert (q1' = q1) as -> by congruence.
    destruct (pinned q1); [done|].
    rewrite (settled_positive q1 _ Hx1 Hy1 Hz1 (settled_add q1 c Hx Hy Hz)).
    by apply store_same.
Qed.

Lemma iterM_total {A} (I : A -> Prop) (f : A -> res A) (n : nat) (x0 : A) :
  (forall x, I x -> exists y, f x = Ok y /\ I y) ->
  I x0 -> exists y, iterM n f x0 = Ok y /\ I y.
Proof.
  intros Hstep. revert x0.
  induction n as [|n IH]; intros x0 Hx; cbn [iterM].
  - by exists x0.
  - destruct (Hstep x0 Hx) as (y & -> & Hy). cbn [rbind]. by apply IH.
Qed.

(** *** The 5 by 5 cloth *)

Lemma at_restb_sound g s : at_rest32b g s = true -> at_rest32 g s.
Proof.
  unfold at_rest32b, at_rest32. intros Hb.
  destruct (deref g (p0 s)) as [q0|]; [|done].
  destruct (deref g (p1 s)) as [q1|]; [|done].
  destruct (restLength s) as [| | |[] m e] eqn:Hrest; try done.
  apply bool_decide_eq_true in Hb. exists q0, q1.
  split; [done|]. split; [done|]. split; [done|]. by exists m, e.
Qed.

Lemma at_rest_decided g (sps : list (list (Spring float32))) :
  forallb (forallb (at_rest32b g)) sps = true ->
  Forall (Forall (at_rest32 g)) sps.
Proof.
  induction sps as [|row sps IH]; cbn [forallb]; [by constructor|].
  intros [Hrow Hsps]%andb_true_iff. constructor; [|by apply IH].
  clear IH Hsps. induction row as [|s row IH]; cbn [forallb] in *;
    [by constructor|].
  apply andb_true_iff in Hrow as [Hs Hrow].
  constructor; [by apply at_restb_sound|by apply IH].
Qed.

Lemma positive_zeros_decided g :
  positive_zerosb g = true -> positive_zeros g.
Proof.
  unfold positive_zerosb, positive_zeros, look. intros Hb [i j] p Hp.
  cbn [fst snd] in Hp. destruct (g !! i) as [row|] eqn:Hrow; [|done].
  rewrite forallb_forall in Hb.
  specialize (Hb row). rewrite <- list_elem_of_In in Hb.
  specialize (Hb (list_elem_of_lookup_2 _ _ _ Hrow)).
  rewrite forallb_forall in Hb.
  specialize (Hb p). rewrite <- list_elem_of_In in Hb.
  specialize (Hb (list_elem_of_lookup_2 _ _ _ Hp)).
  apply andb_true_iff in Hb as [Hb Hz]. apply andb_true_iff in Hb as [Hx Hy].
  apply negb_true_iff, bool_decide_eq_false in Hx, Hy, Hz. done.
Qed.

Lemma cloth55_at_rest :
  Forall (Forall (at_rest32 (particles cloth55_new))) (springs cloth55_new).
Proof. apply at_rest_decided. vm_compute. reflexivity. Qed.

Lemma cloth55_positive_zeros : positive_zeros (particles cloth55_new).
Proof. apply positive_zeros_decided. vm_compute. reflexivity. Qed.

Lemma cloth55_constructed :
  ClothSheet_new Scene.clothPos Scene.clothColor 5 5 = Ok cloth55_new.
Proof. vm_compute. reflexivity. Qed.

(** C6.  In binary32: on a cloth whose springs all have, as [magnitude]
    computes it, exactly their rest length, a positive finite number,
    constraint relaxation returns, for any number of iterations, and so
    does [satisfyConstraints]; every particle is then as it was, except
    that a coordinate that was the negative zero may have become the
    positive zero; on a cloth with no negative zero among its coordinates
    the particles come back as they were. *)
Theorem relaxation_fixed_point cs :
  Forall (Forall (at_rest32 (particles cs))) (springs cs) ->
  (forall n : nat, exists g,
     relax n cs = Ok (with_particles cs g) /\
     grid_rel settled (particles cs) g /\
     (positive_zeros (particles cs) -> g = particles cs)) /\
  exists g,
    satisfyConstraints cs = Ok (with_particles cs g) /\
    grid_rel settled (particles cs) g /\
    (positive_zeros (particles cs) -> g = particles cs).
Proof.
  intros Hrest.
  assert (forall n : nat, exists g,
     relax n cs = Ok (with_particles cs g) /\
     grid_rel settled (particles cs) g /\
     (positive_zeros (particles cs) -> g = particles cs)) as Hall.
  { intros n. unfold relax.
    set (I := fun g => grid_rel settled (particles cs) g /\
                        (positive_zeros (particles cs) -> g = particles cs)).
    destruct (iterM_total I (relax_pass (springs cs)) n (particles cs))
      as (g' & -> & Hrel & Hsame).
    - intros g Hg. unfold relax_pass.
      apply (foldM_total I); [|done].
      intros g1 row Hrow Hg1. apply (foldM_total I); [|done].
      intros g2 s Hs [Hrel2 Hsame2].
      rewrite Forall_forall in Hrest. specialize (Hrest _ Hrow).
      rewrite Forall_forall in Hrest. specialize (Hrest _ Hs).
      destruct (relax_spring_rest32 g2 s) as (g3 & Hrun & Hrel3 & Hsame3);
        [by eapply at_rest_settled|].
      exists g3. split; [done|]. split.
      + eapply grid_rel_trans; [exact settled_trans|exact Hrel2|exact Hrel3].
      + intros Hpos. specialize (Hsame2 Hpos). subst g2. by apply Hsame3.
    - split; [apply grid_rel_refl, settled_refl|done].
    - cbn [rbind]. by exists g'. }
  split; [exact Hall|]. exact (Hall CONSTRAINT_ITERATIONS).
Qed.

(** The new 5 by 5 cloth of the program's scene, whose spacings are 1/2:
    every spring is at its rest length and relaxation returns the cloth
    as it was. *)
Lemma relaxation_fixed_point_witness :
  Forall (Forall (at_rest32 (particles cloth55_new))) (springs cloth55_new) /\
  positive_zeros (particles cloth55_new) /\
  relax 1 cloth55_new = Ok cloth55_new /\
  satisfyConstraints cloth55_new = Ok cloth55_new.
Proof.
  split; [exact cloth55_at_rest|]. split; [exact cloth55_positive_zeros|].
  destruct (relaxation_fixed_point cloth55_new cloth55_at_rest)
    as [Hall (g & Hrun & _ & Hsame)].
  destruct (Hall 1%nat) as (g1 & Hrun1 & _ & Hsame1).
  rewrite Hrun1, Hrun, (Hsame1 cloth55_positive_zeros),
    (Hsame cloth55_positive_zeros).
  split; reflexivity.
Defined.
End Rest32Facts.

(** * Force accumulation in any arithmetic *)

Section AccrualFacts.
Context {F : Type} `{GLfloatOps F}.
Implicit Types (g : grid F) (s : Spring F) (a b : nat * nat) (v w : vec3 F).
Implicit Types (ws : nat * nat -> list (vec3 F -> vec3 F)).

Lemma store_map_length g (ptr : pptr) (q : Particle F) :
  map length (store g ptr q) = map length g.
Proof.
  destruct ptr as [a|]; [|done]. unfold store.
  apply list_eq. intros i. rewrite !list_lookup_fmap.
  destruct (decide (i = a.1)) as [->|Hi].
  - rewrite list_lookup_alter_eq. destruct (g !! a.1); [|done]. simpl.
    by rewrite length_insert.
  - by rewrite list_lookup_alter_ne.
Qed.

Lemma rewrites_app (l1 l2 : list (vec3 F -> vec3 F)) acc :
  rewrites (l1 ++ l2) acc = rewrites l2 (rewrites l1 acc).
Proof. apply fold_left_app. Qed.

Lemma accrued_refl g : accrued (fun _ => []) g g.
Proof.
  split; [done|]. intros a. destruct (look g a); constructor.
  split; [apply acc_only_refl|done].
Qed.

Lemma accrued_trans ws1 ws2 g1 g2 g3 :
  accrued ws1 g1 g2 -> accrued ws2 g2 g3 ->
  accrued (fun a => ws1 a ++ ws2 a) g1 g3.
Proof.
  intros [Hs12 H12] [Hs23 H23]. split; [congruence|]. intros a.
  specialize (H12 a). specialize (H23 a).
  destruct H12 as [p p2 [Hp Hacc]|]; inversion H23 as [? p3 [Hp' Hacc']|];
    subst; constructor.
  split; [by eapply acc_only_trans|]. by rewrite rewrites_app, Hacc', Hacc.
Qed.

Lemma accrued_ext ws ws' g g' :
  (forall a, ws a = ws' a) -> accrued ws g g' -> accrued ws' g g'.
Proof.
  intros Hext [Hs Hg]. split; [done|]. intros a. rewrite <- Hext. apply Hg.
Qed.

Lemma accrued_framed ws g g' : accrued ws g g' -> framed g g'.
Proof.
  intros [Hs Hg]. split; [done|]. intros a.
  destruct (Hg a) as [? ? [? _]|]; by constructor.
Qed.

(** Writing a particle back with another acceleration. *)
Lemma store_accrued g b (q : Particle F) (f : vec3 F -> vec3 F) :
  look g b = Some q ->
  accrued (fun a => replicate (hit a (Some b)) f) g
          (store g (Some b) (set_acceleration q (f (acceleration q)))).
Proof.
  intros Hb. split; [apply store_map_length|]. intros a.
  rewrite (look_store _ _ _ _ _ Hb). unfold hit.
  destruct (decide (a = b)) as [->|Hne].
  - rewrite Hb, decide_True by done. constructor.
    split; [apply acc_only_set_acceleration|done].
  - rewrite decide_False by congruence.
    destruct (look g a); constructor. split; [apply acc_only_refl|done].
Qed.

Lemma add_acceleration_accrued g (ptr : pptr) w g' :
  add_acceleration g ptr w = Ok g' ->
  accrued (fun a => replicate (hit a ptr) (fun acc => vadd acc w)) g g'.
Proof.
  unfold add_acceleration. intros Hrun. inv_bind Hrun as q Hq.
  injection Hrun as <-.
  apply deref_Ok in Hq as (b & -> & Hb).
  exact (store_accrued g b q (fun acc => vadd acc w) Hb).
Qed.

Lemma deref_framed g g' (ptr : pptr) :
  framed g g' ->
  match deref g ptr, deref g' ptr with
  | Ok q, Ok q' => acc_only q q'
  | Err _, Err _ => True
  | _, _ => False
  end.
Proof.
  intros [_ Hrel]. destruct ptr as [a|]; [|done]. cbn [deref].
  destruct (Hrel a); simpl; done.
Qed.

Lemma wind_of_framed (wind : vec3 F) g g' (v0 v1 v2 : pptr) :
  framed g g' -> wind_of wind g' v0 v1 v2 = wind_of wind g v0 v1 v2.
Proof.
  intros Hf. unfold wind_of.
  pose proof (deref_framed g g' v0 Hf) as H0.
  pose proof (deref_framed g g' v1 Hf) as H1.
  pose proof (deref_framed g g' v2 Hf) as H2.
  destruct (deref g v0), (deref g' v0); try done;
    destruct (deref g v1), (deref g' v1); try done;
    destruct (deref g v2), (deref g' v2); try done.
  destruct H0 as (E0 & _ & _ & M0 & _), H1 as (E1 & _ & _ & M1 & _),
           H2 as (E2 & _ & _ & M2 & _).
  cbn beta iota. by rewrite E0, E1, E2, M0, M1, M2.
Qed.

Lemma quad_terms_framed (wind : vec3 F) g g' (k l : nat) a :
  framed g g' -> quad_terms wind g' k l a = quad_terms wind g k l a.
Proof.
  intros Hf. unfold quad_terms, triangle_terms.
  by rewrite !(wind_of_framed _ g g').
Qed.

Lemma row_len_framed g g' (k : nat) :
  framed g g' -> row_len g' k = row_len g k.
Proof.
  intros [Hs _]. unfold row_len.
  apply (f_equal (fun l => l !! k)) in Hs. rewrite !list_lookup_fmap in Hs.
  destruct (g !! k), (g' !! k); simpl in Hs; congruence.
Qed.

Lemma elastic_of_framed g g' s :
  framed g g' -> elastic_of g' s = elastic_of g s.
Proof.
  intros Hf. unfold elastic_of.
  pose proof (deref_framed g g' (p0 s) Hf) as H0.
  pose proof (deref_framed g g' (p1 s) Hf) as H1.
  destruct (deref g (p0 s)), (deref g' (p0 s)); try done;
    destruct (deref g (p1 s)), (deref g' (p1 s)); try done.
  destruct H0 as (E0 & _ & _ & M0 & _), H1 as (E1 & _ & _ & M1 & _).
  cbn beta iota. by rewrite E0, E1, M0.
Qed.

Lemma gravity_of_framed g g' a :
  framed g g' -> gravity_of g' a = gravity_of g a.
Proof.
  intros [_ Hrel]. unfold gravity_of.
  destruct (Hrel a) as [p p' (_ & _ & _ & -> & _)|]; done.
Qed.

Lemma spring_term_framed g g' s a :
  framed g g' -> spring_term g' s a = spring_term g s a.
Proof.
  intros Hf. unfold spring_term.
  by rewrite (elastic_of_framed g g'), (gravity_of_framed g g').
Qed.

(** A loop of steps that each write some terms writes them all, one step
    after the other, the terms being those read off the grid the loop
    started with. *)
Lemma accrued_foldM {X} (f : grid F -> X -> res (grid F))
    (terms : grid F -> X -> nat * nat -> list (vec3 F -> vec3 F))
    (l : list X) g g' :
  (forall g x g', f g x = Ok g' -> accrued (terms g x) g g') ->
  (forall g g' x a, framed g g' -> terms g' x a = terms g x a) ->
  foldM f l g = Ok g' ->
  accrued (fun a => concat (map (fun x => terms g x a) l)) g g'.
Proof.
  intros Hstep Hframe. revert g.
  induction l as [|x l IH]; intros g Hrun; cbn [foldM] in Hrun.
  - injection Hrun as <-. apply accrued_refl.
  - inv_bind Hrun as g1 Hg1. apply Hstep in Hg1.
    specialize (IH _ Hrun).
    eapply accrued_ext; [|exact (accrued_trans _ _ _ _ _ Hg1 IH)].
    intros a. cbn [map concat]. f_equal. f_equal.
    apply map_ext. intros y. apply Hframe.
    by eapply accrued_framed.
Qed.

Lemma vdiv_vquo v (d : F) u : vdiv v d = Ok u -> u = vquo v d.
Proof. intros Hrun. unfold vquo. by rewrite Hrun. Qed.

Lemma wind_triangle_accrued (wind : vec3 F) g (v0 v1 v2 : pptr) g' :
  wind_triangle wind g v0 v1 v2 = Ok g' ->
  accrued (fun a => map (fun w acc => vadd acc w)
                        (triangle_terms wind g v0 v1 v2 a)) g g'.
Proof.
  unfold wind_triangle. intros Hrun.
  inv_bind Hrun as q0 H0. inv_bind Hrun as q1 H1. inv_bind Hrun as q2 H2.
  inv_bind Hrun as n Hn. inv_bind Hrun as w Hw.
  inv_bind Hrun as g1 Hg1. inv_bind Hrun as g2 Hg2.
  unfold normalize in Hn. apply vdiv_vquo in Hn as ->, Hw as ->.
  apply add_acceleration_accrued in Hg1, Hg2, Hrun.
  eapply accrued_ext;
    [|exact (accrued_trans _ _ _ _ _
               (accrued_trans _ _ _ _ _ Hg1 Hg2) Hrun)].
  intros a. unfold triangle_terms, wind_of, unit_vec.
  rewrite H0, H1, H2. cbn beta iota zeta.
  by rewrite !replicate_add, !map_app, !fmap_replicate.
Qed.

Lemma wind_quad_accrued (wind : vec3 F) (k : nat) g (l : nat) g' :
  wind_quad wind k g l = Ok g' ->
  accrued (fun a => map (fun w acc => vadd acc w) (quad_terms wind g k l a))
          g g'.
Proof.
  unfold wind_quad. intros Hrun.
  inv_bind Hrun as v0 H0. inv_bind Hrun as v1 H1. inv_bind Hrun as v2 H2.
  inv_bind Hrun as g1 Hg1. inv_bind Hrun as v3 H3.
  apply addr_Ok in H0 as [-> _], H1 as [-> _], H2 as [-> _], H3 as [-> _].
  apply wind_triangle_accrued in Hg1, Hrun.
  eapply accrued_ext; [|exact (accrued_trans _ _ _ _ _ Hg1 Hrun)].
  intros a. unfold quad_terms. rewrite map_app. f_equal. f_equal.
  unfold triangle_terms. f_equal.
  apply wind_of_framed. by eapply accrued_framed.
Qed.

Lemma map_concat_map {A B C} (f : B -> C) (h : A -> list B) (l : list A) :
  map f (concat (map h l)) = concat (map (fun x => map f (h x)) l).
Proof.
  induction l as [|x l IH]; [done|].
  cbn [map concat]. by rewrite map_app, IH.
Qed.

Lemma wind_pass_accrued (wind : vec3 F) g g' :
  wind_pass wind g = Ok g' ->
  accrued (fun a => map (fun w acc => vadd acc w) (wind_terms wind g a)) g g'.
Proof.
  unfold wind_pass. destruct (length g =? 0); [discriminate|].
  intros Hrun.
  apply (accrued_foldM _
           (fun g k a =>
              map (fun w acc => vadd acc w)
                  (concat (map (fun l => quad_terms wind g k l a)
                               (seq 0 (row_len g k - 1)))))) in Hrun.
  - eapply accrued_ext; [|exact Hrun]. intros a. unfold wind_terms.
    by rewrite map_concat_map.
  - clear. intros g k g' Hrun. inv_bind Hrun as row Hrow.
    apply of_option_Ok in Hrow.
    destruct (length row =? 0); [discriminate|].
    unfold row_len. rewrite Hrow.
    apply (accrued_foldM (wind_quad wind k)
             (fun g l a => map (fun w acc => vadd acc w)
                               (quad_terms wind g k l a))) in Hrun.
    + eapply accrued_ext; [|exact Hrun]. intros a.
      by rewrite map_concat_map.
    + intros ? ? ?. apply wind_quad_accrued.
    + intros ? ? ? ? Hf. by rewrite (quad_terms_framed _ _ _ _ _ _ Hf).
  - clear. intros g g' k a Hf. rewrite (row_len_framed g g') by done.
    f_equal. f_equal. apply map_ext. intros l. by apply quad_terms_framed.
Qed.

Lemma gravity_of_store g a0 (q0 : Particle F) acc a1 q1 :
  look g a0 = Some q0 ->
  look (store g (Some a0) (set_acceleration q0 acc)) a1 = Some q1 ->
  gravity_of g a1 = vquo gravity (mass q1).
Proof.
  intros Ha0 Ha1. rewrite (look_store _ _ _ _ _ Ha0) in Ha1.
  unfold gravity_of. destruct (decide (a1 = a0)) as [->|].
  - rewrite Ha0. by simplify_eq.
  - by rewrite Ha1.
Qed.

Lemma spring_force_accrued g s g' :
  spring_force g s = Ok g' ->
  accrued (fun a => map (fun t acc => vadd t acc) (spring_term g s a)) g g'.
Proof.
  unfold spring_force. intros Hrun.
  inv_bind Hrun as q0 H0. inv_bind Hrun as q1 H1.
  inv_bind Hrun as u Hu. inv_bind Hrun as acc Hacc.
  inv_bind Hrun as g0 Hg0. inv_bind Hrun as q1' H1'.
  inv_bind Hrun as g1 Hg1. injection Hrun as <-.
  apply vdiv_vquo in Hu as ->, Hacc as ->, Hg0 as ->, Hg1 as ->.
  assert (vquo (vmul (vquo (vsub (position q0) (position q1))
                        (magnitude (vsub (position q0) (position q1))))
                     (fmul springConstK
                        (fsub (magnitude (vsub (position q0) (position q1)))
                              (restLength s))))
               (mass q0)
          = elastic_of g s) as Hel
    by (unfold elastic_of, unit_vec; by rewrite H0, H1).
  rewrite Hel in H1' |- *.
  pose proof H0 as H0'. apply deref_Ok in H0' as (a0 & Hp0 & Ha0).
  apply deref_Ok in H1' as (a1 & Hp1 & Ha1).
  rewrite Hp0 in Ha1 |- *. rewrite Hp1.
  pose proof (accrued_trans _ _ _ _ _
    (store_accrued g a0 q0
       (fun acc => vadd (vsub (vquo gravity (mass q0)) (elastic_of g s)) acc)
       Ha0)
    (store_accrued _ a1 q1'
       (fun acc => vadd (vadd (vquo gravity (mass q1')) (elastic_of g s)) acc)
       Ha1)) as Hacc.
  eapply accrued_ext; [|exact Hacc].
  intros a. unfold spring_term. rewrite Hp0, Hp1.
  rewrite map_app, !fmap_replicate. f_equal.
  - unfold hit. destruct (decide (Some a0 = Some a)) as [Heq|]; [|done].
    assert (a = a0) as -> by congruence.
    unfold gravity_of. by rewrite Ha0.
  - unfold hit. destruct (decide (Some a1 = Some a)) as [Heq|]; [|done].
    assert (a = a1) as -> by congruence.
    by rewrite (gravity_of_store _ _ _ _ _ _ Ha0 Ha1).
Qed.

Lemma spring_pass_accrued (sps : list (list (Spring F))) g g' :
  spring_pass sps g = Ok g' ->
  accrued (fun a => map (fun t acc => vadd t acc) (spring_terms g sps a))
          g g'.
Proof.
  unfold spring_pass. intros Hrun.
  apply (accrued_foldM _
           (fun g row a =>
              map (fun t acc => vadd t acc)
                  (concat (map (fun s => spring_term g s a) row))))
    in Hrun.
  - eapply accrued_ext; [|exact Hrun]. intros a. unfold spring_terms. clear.
    induction sps as [|row sps IH]; [done|].
    cbn [concat map]. by rewrite map_app, concat_app, map_app, IH.
  - clear. intros g row g' Hrun.
    apply (accrued_foldM spring_force
             (fun g s a => map (fun t acc => vadd t acc) (spring_term g s a)))
      in Hrun.
    + eapply accrued_ext; [|exact Hrun]. intros a.
      by rewrite map_concat_map.
    + apply spring_force_accrued.
    + intros ? ? ? ? Hf. by rewrite (spring_term_framed _ _ _ _ Hf).
  - clear. intros g g' row a Hf. f_equal. f_equal. apply map_ext.
    intros s. by apply spring_term_framed.
Qed.

Lemma rewrites_add_r (l : list (vec3 F)) acc :
  rewrites (map (fun w acc => vadd acc w) l) acc = fold_left vadd l acc.
Proof.
  revert acc. induction l as [|w l IH]; intros acc; [done|].
  cbn [map]. unfold rewrites in *. cbn [fold_left]. apply IH.
Qed.

Lemma rewrites_add_l (l : list (vec3 F)) acc :
  rewrites (map (fun t acc => vadd t acc) l) acc
  = fold_left (fun acc t => vadd t acc) l acc.
Proof.
  revert acc. induction l as [|w l IH]; intros acc; [done|].
  cbn [map]. unfold rewrites in *. cbn [fold_left]. apply IH.
Qed.

Lemma spring_terms_length g sps a :
  length (spring_terms g sps a) = spring_ends sps a.
Proof.
  unfold spring_terms, spring_ends.
  induction (concat sps) as [|s l IH]; [done|].
  cbn [map concat sum_list sum_list_with]. rewrite length_app, IH.
  unfold spring_term. by rewrite length_app, !length_replicate.
Qed.

Lemma spring_terms_gravity g sps a :
  Forall (fun t => exists e, t = vsub (gravity_of g a) e \/
                             t = vadd (gravity_of g a) e)
         (spring_terms g sps a).
Proof.
  unfold spring_terms. apply Forall_concat, Forall_fmap, Forall_forall.
  intros s _. unfold spring_term. apply Forall_app. split.
  - apply Forall_replicate. eexists. by left.
  - apply Forall_replicate. eexists. by right.
Qed.

(** C3.  In any arithmetic: when force accumulation returns, every
    particle keeps everything but its acceleration, and its new
    acceleration is the stored one with, added to it one after the other
    in the order of the loops, the wind acceleration of each triangle
    corner that the particle is, and then, for each spring end that the
    particle is, either gravity / mass less the elastic acceleration of
    the spring (a first end) or gravity / mass plus it (a second end):
    nothing resets the stored value, and gravity / mass enters once for
    each spring end at the particle. *)
Theorem accumulateForces_adds (cs cs' : ClothSheet F) a p :
  accumulateForces cs = Ok cs' -> look (particles cs) a = Some p ->
  let winds := wind_terms (vWindForce cs) (particles cs) a in
  let pulls := spring_terms (particles cs) (springs cs) a in
  exists p', look (particles cs') a = Some p' /\ acc_only p p' /\
    acceleration p'
    = fold_left (fun acc t => vadd t acc) pulls
                (fold_left vadd winds (acceleration p)) /\
    length pulls = spring_ends (springs cs) a /\
    Forall (fun t => exists e, t = vsub (gravity_of (particles cs) a) e \/
                               t = vadd (gravity_of (particles cs) a) e)
           pulls.
Proof.
  intros Hrun Hp winds pulls. subst winds pulls.
  unfold accumulateForces in Hrun.
  inv_bind Hrun as n Hn. inv_bind Hrun as g1 Hwind.
  inv_bind Hrun as g2 Hspring. injection Hrun as <-.
  cbn [particles with_particles].
  apply wind_pass_accrued in Hwind. apply spring_pass_accrued in Hspring.
  pose proof (accrued_framed _ _ _ Hwind) as Hf.
  destruct (accrued_trans _ _ _ _ _ Hwind Hspring) as [_ Hrel].
  specialize (Hrel a). rewrite Hp in Hrel.
  inversion Hrel as [q p' [Hacc Heq] Hq Hp'|]; subst q.
  exists p'. split; [done|]. split; [done|]. split.
  - rewrite Heq, rewrites_app, rewrites_add_r, rewrites_add_l.
    f_equal. unfold spring_terms. f_equal. apply map_ext. intros s.
    by apply spring_term_framed.
  - split; [apply spring_terms_length|apply spring_terms_gravity].
Qed.
End AccrualFacts.

Lemma cloth44_accumulates :
  accumulateForces ProgramScene.cloth44_blown = Ok ProgramScene.cloth44_forces.
Proof. vm_compute. reflexivity. Qed.

Lemma cloth44_calm_accumulates :
  accumulateForces ProgramScene.cloth44_calm = Ok ProgramScene.cloth44_calm2.
Proof. vm_compute. reflexivity. Qed.

(** In binary32, on the 4 by 4 cloth: the particle of row 1 and column 1
    is an end of twelve springs and a corner of six triangles.  First in
    the wind of [main]; then with no wind, in the second pass over the
    cloth, whose stored accelerations are those of the first. *)
Lemma accumulateForces_adds_witness :
  (accumulateForces ProgramScene.cloth44_blown
   = Ok ProgramScene.cloth44_forces /\
   look (particles ProgramScene.cloth44_blown) (1, 1)
   = Some ProgramScene.particle11 /\
   spring_ends (springs ProgramScene.cloth44_blown) (1, 1) = 12 /\
   exists p',
     look (particles ProgramScene.cloth44_forces) (1, 1) = Some p' /\
     acc_only ProgramScene.particle11 p' /\
     acceleration p'
     = fold_left (fun acc t => vadd t acc)
         (spring_terms (particles ProgramScene.cloth44_blown)
                       (springs ProgramScene.cloth44_blown) (1, 1))
         (fold_left vadd
            (wind_terms (vWindForce ProgramScene.cloth44_blown)
                        (particles ProgramScene.cloth44_blown) (1, 1))
            (acceleration ProgramScene.particle11)) /\
     length (spring_terms (particles ProgramScene.cloth44_blown)
                          (springs ProgramScene.cloth44_blown) (1, 1))
     = spring_ends (springs ProgramScene.cloth44_blown) (1, 1)) /\
  (accumulateForces ProgramScene.cloth44_calm
   = Ok ProgramScene.cloth44_calm2 /\
   vWindForce ProgramScene.cloth44_calm = vzero /\
   look (particles ProgramScene.cloth44_calm) (1, 1)
   = Some ProgramScene.particle11_calm /\
   acceleration ProgramScene.particle11_calm <> vzero /\
   exists p',
     look (particles ProgramScene.cloth44_calm2) (1, 1) = Some p' /\
     acc_only ProgramScene.particle11_calm p' /\
     acceleration p'
     = fold_left (fun acc t => vadd t acc)
         (spring_terms (particles ProgramScene.cloth44_calm)
                       (springs ProgramScene.cloth44_calm) (1, 1))
         (fold_left vadd
            (wind_terms (vWindForce ProgramScene.cloth44_calm)
                        (particles ProgramScene.cloth44_calm) (1, 1))
            (acceleration ProgramScene.particle11_calm))).
Proof.
  split.
  - split; [exact cloth44_accumulates|].
    assert (look (particles ProgramScene.cloth44_blown) (1, 1)
            = Some ProgramScene.particle11) as Hlook
      by (vm_compute; reflexivity).
    split; [exact Hlook|]. split; [vm_compute; reflexivity|].
    destruct (accumulateForces_adds ProgramScene.cloth44_blown
                ProgramScene.cloth44_forces (1, 1)
                ProgramScene.particle11 cloth44_accumulates Hlook)
      as (p' & Hp' & Hacc & Heq & Hlen & _).
    exists p'. split; [exact Hp'|]. split; [exact Hacc|].
    split; [exact Heq|exact Hlen].
  - split; [exact cloth44_calm_accumulates|].
    split; [vm_compute; reflexivity|].
    assert (look (particles ProgramScene.cloth44_calm) (1, 1)
            = Some ProgramScene.particle11_calm) as Hlook
      by (vm_compute; reflexivity).
    split; [exact Hlook|]. split; [vm_compute; discriminate|].
    destruct (accumulateForces_adds ProgramScene.cloth44_calm
                ProgramScene.cloth44_calm2 (1, 1)
                ProgramScene.particle11_calm cloth44_calm_accumulates Hlook)
      as (p' & Hp' & Hacc & Heq & _).
    exists p'. split; [exact Hp'|]. split; [exact Hacc|exact Heq].
Defined.
